(** * Resolution refutation for propositional clauses (lab02-logic/PS5)

    A shallow embedding of [src/lab02-logic/PS5/src/main.py]: the classes
    [Literal], [Clause] and [KnowledgeBase], and the properties of the
    resolution engine.  The reading and writing of files is left out.

    Conventions of the embedding.
    - A Python [str] is a [string]; a character is read as the code point
      given by its 8 bits (0..255).  Comparison of strings is Python's:
      lexicographic, by code point.
    - A Python exception is a constructor of [outcome]; the only one the
      engine can raise is [IndexError] (indexing a string out of range).
    - The [while True] loop takes a fuel argument; running out of fuel is a
      third constructor of [outcome], never confused with a result.
    - A Python [set] is its sequence of elements without duplicates (with
      respect to the [__eq__] of the class), in order of insertion.  Python
      also asks [__hash__] before [__eq__]; the hashes are left out of the
      sets, and shown apart to agree with [__eq__] on the clauses the sets
      hold ([hash_eq_consistent], [same_eq_canonical] and the lemmas of
      [SetsAgree]): the canonical clauses, which are all that parsing and
      resolution build.  A base filled by [add_clause] with a clause that
      was not refactored is another matter: the hash of a clause depends
      on the order of its literals, and Python keeps apart two clauses
      that are [==]; what is said of the sets of a round is said of
      working sets of canonical clauses.  The order in which Python iterates over
      a set is not specified: [sorted(set(...))] does not depend on it
      ([refactor_set_order]), and where the source iterates over the working
      set, with a [break] that makes the order visible in the trace, the
      order is a parameter.
    - The engine is given twice.  First on values ([Literal], [Clause],
      [KnowledgeBase]): a clause is the sequence of its literals.  Then on a
      store of objects ([LiteralObj], [ClauseObj], [KnowledgeBaseObj]),
      where objects are shared by reference and mutated in place, as in
      Python; this is the reading in which a call can be said to leave an
      object untouched.  The second computes what the first computes
      ([run_objects_refines]).
    - Entailment is stated over valuations of the symbols: a literal is a
      symbol that may be negated, a clause is the disjunction of its
      literals, and a knowledge base holds when all its clauses do
      ([holds_literal], [holds], [models]). *)

From Stdlib Require Import List String Ascii Bool Arith PeanoNat NArith ZArith Lia.
From Stdlib Require Import Permutation Sorted.
Import ListNotations.
Local Open Scope string_scope.
Local Open Scope list_scope.
Local Open Scope nat_scope.

Set Implicit Arguments.

(** ** Outcomes of a Python call *)

Inductive outcome (A : Type) : Type :=
| Return (a : A)
| IndexError
| OutOfFuel.

Arguments Return {A} a.
Arguments IndexError {A}.
Arguments OutOfFuel {A}.

Definition bind {A B : Type} (m : outcome A) (k : A -> outcome B) : outcome B :=
  match m with
  | Return a => k a
  | IndexError => IndexError
  | OutOfFuel => OutOfFuel
  end.

Notation "x <- m ;; k" := (bind m (fun x => k))
  (at level 61, m at next level, right associativity).

(** [for x in xs: acc = f(acc, x)], where the body may raise. *)
Fixpoint for_each {A S : Type} (f : S -> A -> outcome S) (xs : list A) (s : S)
  : outcome S :=
  match xs with
  | [] => Return s
  | x :: rest => s' <- f s x ;; for_each f rest s'
  end.

(** ** Strings: [str.strip] and [str.split] *)

Module Str.

(** [str.isspace] on the code points below 256. *)
Definition is_space (c : ascii) : bool :=
  let n := nat_of_ascii c in
  ((9 <=? n) && (n <=? 13)) || ((28 <=? n) && (n <=? 32))
  || (n =? 133) || (n =? 160).

Fixpoint lstrip (s : string) : string :=
  match s with
  | EmptyString => EmptyString
  | String c rest => if is_space c then lstrip rest else s
  end.

Fixpoint rev_onto (s acc : string) : string :=
  match s with
  | EmptyString => acc
  | String c rest => rev_onto rest (String c acc)
  end.

Definition rev (s : string) : string := rev_onto s EmptyString.

Definition rstrip (s : string) : string := rev (lstrip (rev s)).

(** [s.strip()] *)
Definition strip (s : string) : string := rstrip (lstrip s).

(** [s.split(sep)] for a non-empty [sep]: the text is scanned from the
    left; at an occurrence of [sep] the current piece is closed and the
    scan resumes after the separator ([skip] counts the characters of the
    separator still to pass over). *)
Fixpoint split_from (sep : string) (skip : nat) (cur : string) (s : string)
  : list string :=
  match s with
  | EmptyString => [cur]
  | String c rest =>
      match skip with
      | S k => split_from sep k cur rest
      | O =>
          if prefix sep s
          then cur :: split_from sep (String.length sep - 1) EmptyString rest
          else split_from sep 0 (cur ++ String c EmptyString)%string rest
      end
  end.

Definition split (sep s : string) : list string :=
  split_from sep 0 EmptyString s.

End Str.

(** ** Python sets and [sorted], over any element type *)

Section PySet.

Variable A : Type.
Variable eqb : A -> A -> bool.      (* [__eq__] *)

Definition mem (x : A) (s : list A) : bool := existsb (eqb x) s.

(** [s.add(x)] *)
Definition add (s : list A) (x : A) : list A :=
  if mem x s then s else s ++ [x].

(** [s.update(xs)] *)
Definition update (s xs : list A) : list A := fold_left add xs s.

(** [set(xs)] *)
Definition pyset (xs : list A) : list A := update [] xs.

(** [s.difference(t)] *)
Definition difference (s t : list A) : list A :=
  filter (fun x => negb (mem x t)) s.

(** [s.issubset(t)] *)
Definition issubset (s t : list A) : bool :=
  forallb (fun x => mem x t) s.

(** [s == t] on sets: same size, and one included in the other. *)
Definition set_eq (s t : list A) : bool :=
  (List.length s =? List.length t) && issubset s t.

Variable ltb : A -> A -> bool.      (* [__lt__] *)

(** [sorted(xs)]: a stable sort that only asks [<]. *)
Fixpoint insert (x : A) (l : list A) : list A :=
  match l with
  | [] => [x]
  | y :: rest => if ltb y x then y :: insert x rest else x :: l
  end.

Definition sorted (xs : list A) : list A := fold_right insert [] xs.

(** Strictly increasing sequences: what [sorted] returns on a sequence
    without duplicates. *)
Definition increasing : list A -> Prop :=
  StronglySorted (fun x y => ltb x y = true).

End PySet.

(** ** class Literal *)

Module Literal.

Record t : Type := mk { symbol : string; negated : bool }.

(** [__repr__] *)
Definition repr (l : t) : string :=
  if negated l then ("-" ++ symbol l)%string else symbol l.

(** [__eq__] *)
Definition eq (a b : t) : bool :=
  String.eqb (symbol a) (symbol b) && Bool.eqb (negated a) (negated b).

(** [False < True] on Python booleans. *)
Definition bool_lt (a b : bool) : bool := negb a && b.

(** [__hash__]: the hash of the representation; [hash_str] is Python's
    hash of a [str]. *)
Definition hash (hash_str : string -> Z) (l : t) : Z := hash_str (repr l).

(** [__lt__] *)
Definition lt (a b : t) : bool :=
  if negb (String.eqb (symbol a) (symbol b))
  then String.ltb (symbol a) (symbol b)
  else bool_lt (negated a) (negated b).

Definition negate (l : t) : t := mk (symbol l) (negb (negated l)).

Definition is_complement (a b : t) : bool :=
  negb (Bool.eqb (negated a) (negated b)) && String.eqb (symbol a) (symbol b).

(** [literal_str[i]]: the one-character string at index [i]. *)
Definition char_at (s : string) (i : nat) : outcome string :=
  match String.get i s with
  | Some c => Return (String c EmptyString)
  | None => IndexError
  end.

(** [Literal.parse] *)
Definition parse (literal_str : string) : outcome t :=
  c0 <- char_at literal_str 0 ;;
  if String.eqb c0 "-"
  then c1 <- char_at literal_str 1 ;; Return (mk c1 true)
  else c0' <- char_at literal_str 0 ;; Return (mk c0' false).

End Literal.

(** ** class Clause *)

Module Clause.

(** A clause object has the single attribute [literals]; a clause is
    the value of that attribute. *)
Definition t : Type := list Literal.t.

(** A clause is canonical when its literals are strictly increasing for
    [Literal.lt]: sorted, and without duplicates. *)
Definition canonical (c : t) : Prop := increasing Literal.lt c.

(** [refactor]: [self.literals = sorted(set(self.literals))] *)
Definition refactor (c : t) : t :=
  sorted Literal.lt (pyset Literal.eq c).

(** [__eq__]: [set(self.literals) == set(other.literals)] *)
Definition eq (a b : t) : bool :=
  set_eq Literal.eq (pyset Literal.eq a) (pyset Literal.eq b).

(** [__hash__]: [hash(tuple(self.literals))]; [hash_tuple] is Python's
    hash of a tuple, a function of the hashes of its items in order. *)
Definition hash (hash_str : string -> Z) (hash_tuple : list Z -> Z) (c : t) : Z :=
  hash_tuple (map (Literal.hash hash_str) c).

(** The test a Python set applies to a stored key and a looked-up key:
    same hash, and [==]. *)
Definition same (hash_str : string -> Z) (hash_tuple : list Z -> Z) (a b : t) : bool :=
  Z.eqb (hash hash_str hash_tuple a) (hash hash_str hash_tuple b) && eq a b.

Definition is_empty (c : t) : bool :=
  List.length c =? 0.

(** [is_always_true]: scan of the adjacent pairs. *)
Fixpoint is_always_true (c : t) : bool :=
  match c with
  | x :: (y :: _) as rest =>
      if Literal.is_complement x y then true else is_always_true rest
  | _ => false
  end.

Definition merge (a b : t) : t := refactor (a ++ b).

Definition clone_without (c : t) (literal : Literal.t) : t :=
  refactor (filter (fun l => negb (Literal.eq l literal)) c).

(** [Clause.parse] *)
Definition parse (clause_str : string) : outcome t :=
  c <- for_each
         (fun (clause : t) literal_str =>
            l <- Literal.parse (Str.strip literal_str) ;;
            Return (clause ++ [l]))
         (Str.split " OR " clause_str) [] ;;
  Return (refactor c).

(** Body of the two nested loops of [pl_resolve], on the pair
    [(literal1, literal2)]; the state is [(resolvents, has_empty_clause)]. *)
Definition resolve_pair (self other : t)
           (st : list t * bool) (literal1 literal2 : Literal.t)
  : list t * bool :=
  if Literal.is_complement literal1 literal2 then
    let clause1 := clone_without self literal1 in
    let clause2 := clone_without other literal2 in
    let resolvent := merge clause1 clause2 in
    if is_always_true resolvent then st
    else (add eq (fst st) resolvent,
          if is_empty resolvent then true else snd st)
  else st.

(** [pl_resolve] *)
Definition pl_resolve (self other : t) : list t * bool :=
  fold_left
    (fun st literal1 =>
       fold_left (fun st' literal2 => resolve_pair self other st' literal1 literal2)
                 other st)
    self ([], false).

(** [__repr__]: the literals joined by [ OR ], or [{}] for the empty
    clause. *)
Definition repr (c : t) : string :=
  if negb (List.length c =? 0)
  then String.concat " OR " (map Literal.repr c)
  else "{}".

(** The loop of [__lt__], on two sequences of the same length: the first
    position where the literals differ decides. *)
Fixpoint lt_scan (a b : t) : bool :=
  match a, b with
  | x :: a', y :: b' =>
      if negb (Literal.eq x y) then Literal.lt x y else lt_scan a' b'
  | _, _ => false
  end.

(** [__lt__]: by number of literals first, then by the literals. *)
Definition lt (a b : t) : bool :=
  if negb (List.length a =? List.length b)
  then List.length a <? List.length b
  else lt_scan a b.

End Clause.

(** ** class KnowledgeBase *)

Module KnowledgeBase.

(** A knowledge base has the single attribute [clauses]. *)
Definition t : Type := list Clause.t.

(** [KnowledgeBase.parse] *)
Definition parse (clauses : list string) : outcome t :=
  for_each
    (fun (kb : t) clause_str =>
       clause <- Clause.parse clause_str ;;
       Return (kb ++ [Clause.refactor clause]))
    clauses [].

(** Step 1 of [pl_resolution]: the clauses of the base, then one unit
    clause per negated literal of [alpha] that is not there yet
    ([clause not in clauses] on a list asks [==] only). *)
Definition negated_query (self : t) (alpha : string) : outcome (list Clause.t) :=
  for_each
    (fun (clauses : list Clause.t) literal_str =>
       literal <- Literal.parse (Str.strip literal_str) ;;
       let clause : Clause.t := [Literal.negate literal] in
       Return (if negb (mem Clause.eq clause clauses)
               then clauses ++ [clause] else clauses))
    (Str.split " OR " alpha) self.

(** [for clause2 in clauses: ...], with its [break]; the state is
    [(new_clauses, is_unsatisfiable)]. *)
Fixpoint resolve_with (clause1 : Clause.t) (clauses : list Clause.t)
         (st : list Clause.t * bool) : list Clause.t * bool :=
  match clauses with
  | [] => st
  | clause2 :: rest =>
      let '(resolvents, has_empty_clause) := Clause.pl_resolve clause1 clause2 in
      let new_clauses := update Clause.eq (fst st) resolvents in
      if has_empty_clause then (new_clauses, true)
      else resolve_with clause1 rest (new_clauses, snd st)
  end.

(** [for clause1 in clauses: for clause2 in clauses: ...] *)
Definition resolve_all (clauses : list Clause.t) (st : list Clause.t * bool)
  : list Clause.t * bool :=
  fold_left (fun st' clause1 => resolve_with clause1 clauses st') clauses st.

Section Loop.

(** The order in which Python iterates over the set [clauses]. *)
Variable set_iter : list Clause.t -> list Clause.t.

(** [while True: ...] *)
Fixpoint saturate (fuel : nat) (clauses : list Clause.t)
         (output : list (list Clause.t)) (is_unsatisfiable : bool)
  : outcome (bool * list (list Clause.t)) :=
  match fuel with
  | O => OutOfFuel
  | S fuel' =>
      let '(new_clauses, is_unsatisfiable') :=
        resolve_all (set_iter clauses) ([], is_unsatisfiable) in
      let output' := output ++ [difference Clause.eq new_clauses clauses] in
      if is_unsatisfiable' then Return (true, output')
      else if issubset Clause.eq new_clauses clauses then Return (false, output')
      else saturate fuel' (update Clause.eq clauses new_clauses) output'
                    is_unsatisfiable'
  end.

(** [pl_resolution] *)
Definition pl_resolution (fuel : nat) (self : t) (alpha : string)
  : outcome (bool * list (list Clause.t)) :=
  clauses <- negated_query self alpha ;;
  saturate fuel (pyset Clause.eq clauses) [] false.

End Loop.

End KnowledgeBase.

(** ** The engine on an object store

    The classes above are read as values.  Python's [Literal] and [Clause]
    are objects, shared by reference and mutated in place ([negate],
    [add_literal], [refactor]), and [self.clauses] is a list object.  To
    speak of what a call leaves untouched, the same methods are given on a
    store of objects: an address is an index in the store, a constructor
    call allocates at the end of the store, and a method that mutates an
    object rewrites the store at its address.  The list in the [literals]
    attribute of a clause is never shared between two clauses (it is made
    by [[]], by [+] or by [sorted]): it is kept in the clause object.  The
    sets and the trace that [pl_resolution] builds are local to the call:
    they are sequences of references. *)

Module Store.

Definition ref : Type := nat.

Record t : Type := mk {
  literals : list Literal.t;   (** the [Literal] objects *)
  clauses : list (list ref);   (** the [Clause] objects: their [literals] *)
  lists : list (list ref)      (** the list objects that hold clauses *)
}.

Definition empty : t := mk [] [] [].

(** A computation on the store. *)
Definition M (A : Type) : Type := t -> outcome (A * t).

Definition ret {A : Type} (a : A) : M A := fun st => Return (a, st).

Definition bind {A B : Type} (m : M A) (k : A -> M B) : M B :=
  fun st =>
    match m st with
    | Return (a, st') => k a st'
    | IndexError => IndexError
    | OutOfFuel => OutOfFuel
    end.

Definition raise {A : Type} : M A := fun _ => IndexError.

(** Reading the store. *)
Definition read {A : Type} (f : t -> A) : M A := fun st => Return (f st, st).

(** [l[i] = f(l[i])] *)
Fixpoint upd {A : Type} (i : nat) (f : A -> A) (l : list A) : list A :=
  match l, i with
  | [], _ => []
  | x :: rest, O => f x :: rest
  | x :: rest, S j => x :: upd j f rest
  end.

(** The objects behind the references.  A reference always designates an
    object of the store; the default is never read on such a store. *)
Definition literal_at (st : t) (r : ref) : Literal.t :=
  nth r (literals st) (Literal.mk EmptyString false).

Definition clause_at (st : t) (c : ref) : list ref := nth c (clauses st) [].

Definition list_at (st : t) (k : ref) : list ref := nth k (lists st) [].

(** The value of a clause object, and of a list of clause objects. *)
Definition clause_value (st : t) (c : ref) : Clause.t :=
  map (literal_at st) (clause_at st c).

Definition list_value (st : t) (k : ref) : list Clause.t :=
  map (clause_value st) (list_at st k).

(** [for x in xs: ...] with the state [s] of the loop. *)
Fixpoint for_each {A S : Type} (f : S -> A -> M S) (xs : list A) (s : S) : M S :=
  match xs with
  | [] => ret s
  | x :: rest => bind (f s x) (fun s' => for_each f rest s')
  end.

End Store.

Notation "x <~ m ;; k" := (Store.bind m (fun x => k))
  (at level 61, m at next level, right associativity).

Module LiteralObj.

Import Store.

(** [Literal(symbol, negated)] *)
Definition new (symbol : string) (negated : bool) : M ref :=
  fun st => Return (List.length (literals st),
                    mk (literals st ++ [Literal.mk symbol negated])
                       (clauses st) (lists st)).

(** [negate]: [self.negated = not self.negated] *)
Definition negate (self : ref) : M unit :=
  fun st => Return (tt, mk (upd self Literal.negate (literals st))
                           (clauses st) (lists st)).

Definition eq (st : t) (a b : ref) : bool :=
  Literal.eq (literal_at st a) (literal_at st b).

Definition lt (st : t) (a b : ref) : bool :=
  Literal.lt (literal_at st a) (literal_at st b).

Definition is_complement (st : t) (a b : ref) : bool :=
  Literal.is_complement (literal_at st a) (literal_at st b).

Definition char_at (s : string) (i : nat) : M string :=
  match String.get i s with
  | Some c => ret (String c EmptyString)
  | None => raise
  end.

(** [Literal.parse] *)
Definition parse (literal_str : string) : M ref :=
  c0 <~ char_at literal_str 0 ;;
  if String.eqb c0 "-"
  then c1 <~ char_at literal_str 1 ;; new c1 true
  else c0' <~ char_at literal_str 0 ;; new c0' false.

End LiteralObj.

Module ClauseObj.

Import Store.

(** [Clause()] *)
Definition new : M ref :=
  fun st => Return (List.length (clauses st),
                    mk (literals st) (clauses st ++ [[]]) (lists st)).

(** [self.literals = ls] *)
Definition set_literals (self : ref) (ls : list ref) : M unit :=
  fun st => Return (tt, mk (literals st) (upd self (fun _ => ls) (clauses st))
                           (lists st)).

(** [self.literals.append(literal)] *)
Definition add_literal (self : ref) (literal : ref) : M unit :=
  fun st => Return (tt, mk (literals st)
                           (upd self (fun ls => ls ++ [literal]) (clauses st))
                           (lists st)).

(** [refactor] *)
Definition refactor (self : ref) : M unit :=
  ls <~ read (fun st => sorted (LiteralObj.lt st)
                               (pyset (LiteralObj.eq st) (clause_at st self))) ;;
  set_literals self ls.

(** [__eq__] *)
Definition eq (st : t) (a b : ref) : bool :=
  set_eq (LiteralObj.eq st) (pyset (LiteralObj.eq st) (clause_at st a))
         (pyset (LiteralObj.eq st) (clause_at st b)).

Definition is_empty (st : t) (self : ref) : bool :=
  List.length (clause_at st self) =? 0.

Fixpoint scan_always_true (st : t) (ls : list ref) : bool :=
  match ls with
  | x :: (y :: _) as rest =>
      if LiteralObj.is_complement st x y then true else scan_always_true st rest
  | _ => false
  end.

Definition is_always_true (st : t) (self : ref) : bool :=
  scan_always_true st (clause_at st self).

(** [merge] *)
Definition merge (self other : ref) : M ref :=
  new_clause <~ new ;;
  ls <~ read (fun st => clause_at st self ++ clause_at st other) ;;
  _ <~ set_literals new_clause ls ;;
  _ <~ refactor new_clause ;;
  ret new_clause.

(** [clone_without] *)
Definition clone_without (self : ref) (literal : ref) : M ref :=
  new_clause <~ new ;;
  ls <~ read (fun st => clause_at st self) ;;
  _ <~ for_each (fun (_ : unit) l =>
                   same <~ read (fun st => LiteralObj.eq st l literal) ;;
                   if negb same then add_literal new_clause l else ret tt)
                ls tt ;;
  _ <~ refactor new_clause ;;
  ret new_clause.

(** [Clause.parse] *)
Definition parse (clause_str : string) : M ref :=
  clause <~ new ;;
  _ <~ for_each (fun (_ : unit) literal_str =>
                   l <~ LiteralObj.parse (Str.strip literal_str) ;;
                   add_literal clause l)
                (Str.split " OR " clause_str) tt ;;
  _ <~ refactor clause ;;
  ret clause.

Definition resolve_pair (self other : ref) (acc : list ref * bool)
           (literal1 literal2 : ref) : M (list ref * bool) :=
  complement <~ read (fun st => LiteralObj.is_complement st literal1 literal2) ;;
  if complement then
    clause1 <~ clone_without self literal1 ;;
    clause2 <~ clone_without other literal2 ;;
    resolvent <~ merge clause1 clause2 ;;
    tautology <~ read (fun st => is_always_true st resolvent) ;;
    if tautology then ret acc
    else
      empty <~ read (fun st => is_empty st resolvent) ;;
      resolvents <~ read (fun st => add (eq st) (fst acc) resolvent) ;;
      ret (resolvents, if empty then true else snd acc)
  else ret acc.

(** [pl_resolve] *)
Definition pl_resolve (self other : ref) : M (list ref * bool) :=
  ls1 <~ read (fun st => clause_at st self) ;;
  ls2 <~ read (fun st => clause_at st other) ;;
  for_each
    (fun acc literal1 =>
       for_each (fun acc' literal2 => resolve_pair self other acc' literal1 literal2)
                ls2 acc)
    ls1 ([], false).

End ClauseObj.

Module KnowledgeBaseObj.

Import Store.

(** [KnowledgeBase()]: the object is given by its list [self.clauses]. *)
Definition new : M ref :=
  fun st => Return (List.length (lists st),
                    mk (literals st) (clauses st) (lists st ++ [[]])).

(** [l.copy()] *)
Definition list_copy (l : ref) : M ref :=
  fun st => Return (List.length (lists st),
                    mk (literals st) (clauses st) (lists st ++ [list_at st l])).

(** [l.append(clause)] *)
Definition list_append (l : ref) (clause : ref) : M unit :=
  fun st => Return (tt, mk (literals st) (clauses st)
                           (upd l (fun cs => cs ++ [clause]) (lists st))).

(** [KnowledgeBase.parse] *)
Definition parse (clauses : list string) : M ref :=
  kb <~ new ;;
  _ <~ for_each (fun (_ : unit) clause_str =>
                   clause <~ ClauseObj.parse clause_str ;;
                   _ <~ ClauseObj.refactor clause ;;
                   list_append kb clause)
                clauses tt ;;
  ret kb.

(** Step 1 of [pl_resolution]; the result is the local list [clauses]. *)
Definition negated_query (self : ref) (alpha : string) : M ref :=
  clauses <~ list_copy self ;;
  _ <~ for_each (fun (_ : unit) literal_str =>
                   literal <~ LiteralObj.parse (Str.strip literal_str) ;;
                   _ <~ LiteralObj.negate literal ;;
                   clause <~ ClauseObj.new ;;
                   _ <~ ClauseObj.add_literal clause literal ;;
                   present <~ read (fun st => mem (ClauseObj.eq st) clause
                                                  (list_at st clauses)) ;;
                   if negb present then list_append clauses clause else ret tt)
                (Str.split " OR " alpha) tt ;;
  ret clauses.

Fixpoint resolve_with (clause1 : ref) (clauses : list ref)
         (acc : list ref * bool) : M (list ref * bool) :=
  match clauses with
  | [] => ret acc
  | clause2 :: rest =>
      r <~ ClauseObj.pl_resolve clause1 clause2 ;;
      new_clauses <~ read (fun st => update (ClauseObj.eq st) (fst acc) (fst r)) ;;
      if snd r then ret (new_clauses, true)
      else resolve_with clause1 rest (new_clauses, snd acc)
  end.

Definition resolve_all (clauses : list ref) (acc : list ref * bool)
  : M (list ref * bool) :=
  for_each (fun acc' clause1 => resolve_with clause1 clauses acc') clauses acc.

Section Loop.

Variable set_iter : list ref -> list ref.

Fixpoint saturate (fuel : nat) (clauses : list ref)
         (output : list (list ref)) (is_unsatisfiable : bool)
  : M (bool * list (list ref)) :=
  match fuel with
  | O => fun _ => OutOfFuel
  | S fuel' =>
      r <~ resolve_all (set_iter clauses) ([], is_unsatisfiable) ;;
      diff <~ read (fun st => difference (ClauseObj.eq st) (fst r) clauses) ;;
      let output' := output ++ [diff] in
      if snd r then ret (true, output')
      else
        subset <~ read (fun st => issubset (ClauseObj.eq st) (fst r) clauses) ;;
        if subset then ret (false, output')
        else
          clauses' <~ read (fun st => update (ClauseObj.eq st) clauses (fst r)) ;;
          saturate fuel' clauses' output' (snd r)
  end.

(** [pl_resolution], on the knowledge base whose list is [self]. *)
Definition pl_resolution (fuel : nat) (self : ref) (alpha : string)
  : M (bool * list (list ref)) :=
  clauses <~ negated_query self alpha ;;
  working <~ read (fun st => pyset (ClauseObj.eq st) (list_at st clauses)) ;;
  saturate fuel working [] false.

End Loop.

End KnowledgeBaseObj.

(** The objects of [base] are in [st], unchanged, at their addresses. *)
Definition extends (base st : Store.t) : Prop :=
  (exists l, Store.literals st = Store.literals base ++ l) /\
  (exists l, Store.clauses st = Store.clauses base ++ l) /\
  (exists l, Store.lists st = Store.lists base ++ l).

(** The references that do not designate an object of [base]. *)
Definition fresh_literal (base : Store.t) (r : Store.ref) : Prop :=
  List.length (Store.literals base) <= r.

Definition fresh_clause (base : Store.t) (r : Store.ref) : Prop :=
  List.length (Store.clauses base) <= r.

Definition fresh_list (base : Store.t) (r : Store.ref) : Prop :=
  List.length (Store.lists base) <= r.

(** [frame base Q m]: run from a store that holds the objects of [base]
    unchanged, [m] leaves them unchanged, and its result satisfies [Q]. *)
Definition frame (A : Type) (base : Store.t) (Q : A -> Prop) (m : Store.M A) : Prop :=
  forall st a st',
    extends base st -> m st = Return (a, st') -> extends base st' /\ Q a.

(** A knowledge base of the store: its list, its clauses and their
    literals are objects of the store. *)
Definition clause_in_store (st : Store.t) (c : Store.ref) : Prop :=
  c < List.length (Store.clauses st) /\
  Forall (fun l => l < List.length (Store.literals st)) (Store.clause_at st c).

Definition kb_in_store (st : Store.t) (self : Store.ref) : Prop :=
  self < List.length (Store.lists st) /\
  Forall (clause_in_store st) (Store.list_at st self).

(** The literal and clause objects of [base] are in [st], unchanged (its
    list objects may have changed). *)
Definition keeps_objects (base st : Store.t) : Prop :=
  (exists l, Store.literals st = Store.literals base ++ l) /\
  (exists l, Store.clauses st = Store.clauses base ++ l).

(** The store [st] with the clause objects [l] allocated after its own. *)
Definition grown (st : Store.t) (l : list (list Store.ref)) : Store.t :=
  Store.mk (Store.literals st) (Store.clauses st ++ l) (Store.lists st).

(** What [refactor] stores in a clause object whose literals are [ls]. *)
Definition refactor_refs (st : Store.t) (ls : list Store.ref) : list Store.ref :=
  sorted (LiteralObj.lt st) (pyset (LiteralObj.eq st) ls).

(** The references that designate a clause object of the store. *)
Definition valid_refs (st : Store.t) (cs : list Store.ref) : Prop :=
  Forall (fun c => c < List.length (Store.clauses st)) cs.

(** The value of the state of the loops: a set of clauses and a flag. *)
Definition acc_value (st : Store.t) (acc : list Store.ref * bool)
  : list Clause.t * bool :=
  (map (Store.clause_value st) (fst acc), snd acc).

(** The whole run, from the texts: on values, and on a store that is empty
    at first (the clauses of the trace are then read in the final store). *)
Definition run_values (premises : list string) (alpha : string) (fuel : nat)
  : outcome (bool * list (list Clause.t)) :=
  kb <- KnowledgeBase.parse premises ;;
  KnowledgeBase.pl_resolution (fun s => s) fuel kb alpha.

(** What a run on the store shows: the verdict, and the trace with its
    clauses read in the final store. *)
Definition observe (r : outcome ((bool * list (list Store.ref)) * Store.t))
  : outcome (bool * list (list Clause.t)) :=
  match r with
  | Return ((b, trace), st) => Return (b, map (map (Store.clause_value st)) trace)
  | IndexError => IndexError
  | OutOfFuel => OutOfFuel
  end.

Definition run_objects (premises : list string) (alpha : string) (fuel : nat)
  : outcome (bool * list (list Clause.t)) :=
  observe ((kb <~ KnowledgeBaseObj.parse premises ;;
            KnowledgeBaseObj.pl_resolution (fun s => s) fuel kb alpha) Store.empty).

(** The store after [KnowledgeBase.parse(["A OR B", "-A"])], and after the
    query [B] on it. *)
Definition modus_ponens_store : Store.t :=
  Eval vm_compute in
    match KnowledgeBaseObj.parse ["A OR B"; "-A"] Store.empty with
    | Return (_, st) => st
    | _ => Store.empty
    end.

Definition modus_ponens_store_after : Store.t :=
  Eval vm_compute in
    match KnowledgeBaseObj.pl_resolution (fun s => s) 2 0 "B" modus_ponens_store with
    | Return (_, st) => st
    | _ => Store.empty
    end.

(** ** Well-formed input and the universe of clauses *)

(** The texts on which [Literal.parse] does not index out of range: a
    symbol character, or [-] and a symbol character (what follows is not
    read). *)
Definition well_formed_literal (literal_str : string) : bool :=
  match literal_str with
  | EmptyString => false
  | String c rest =>
      if Ascii.eqb c "-" then negb (String.eqb rest EmptyString) else true
  end.

(** A clause text is well formed when each of its pieces, trimmed, is. *)
Definition well_formed (clause_str : string) : bool :=
  forallb (fun piece => well_formed_literal (Str.strip piece))
          (Str.split " OR " clause_str).

(** All subsequences of a sequence. *)
Fixpoint sublists (A : Type) (l : list A) : list (list A) :=
  match l with
  | [] => [[]]
  | x :: rest => map (cons x) (sublists rest) ++ sublists rest
  end.

(** The clauses the saturation can ever hold, given the literals [L] of
    the initial working set: the canonical clauses over [L]. *)
Definition universe (L : list Literal.t) : list Clause.t :=
  sublists (Clause.refactor L).

(** [good L c]: [c] is a canonical clause over the literals [L]. *)
Definition good (L : list Literal.t) (c : Clause.t) : Prop :=
  Clause.canonical c /\ incl c L.

(** Some pair of clauses of the working set resolves to the empty clause. *)
Definition derives_empty (cs : list Clause.t) : bool :=
  existsb (fun c1 => existsb (fun c2 => snd (Clause.pl_resolve c1 c2)) cs) cs.

(** All the resolvents of the pairs of clauses of the working set. *)
Definition all_resolvents (cs : list Clause.t) : list Clause.t :=
  flat_map (fun c1 => flat_map (fun c2 => fst (Clause.pl_resolve c1 c2)) cs) cs.

(** Some pair of clauses of [W] has [c] among its resolvents. *)
Definition resolvent_of (W : list Clause.t) (c : Clause.t) : Prop :=
  exists c1 c2, In c1 W /\ In c2 W /\ In c (fst (Clause.pl_resolve c1 c2)).

(** ** The resolvents of two clauses, by comprehension *)

(** The resolvent of [self] and [other] on the pair of literals, when the
    pair is complementary and the resolvent is not always true. *)
Definition kept_resolvent (self other : Clause.t) (literal1 literal2 : Literal.t)
  : list Clause.t :=
  if Literal.is_complement literal1 literal2 then
    let resolvent := Clause.merge (Clause.clone_without self literal1)
                                  (Clause.clone_without other literal2) in
    if Clause.is_always_true resolvent then [] else [resolvent]
  else [].

(** Over all the pairs, in the order of the two loops. *)
Definition kept_resolvents (self other : Clause.t) : list Clause.t :=
  flat_map (fun literal1 => flat_map (kept_resolvent self other literal1) other) self.

(** ** The meaning of literals, clauses and knowledge bases

    A literal is a symbol that may be negated, a clause is a disjunction
    of literals, and the clauses of a knowledge base hold together. *)

Definition valuation : Type := string -> bool.

Definition holds_literal (v : valuation) (l : Literal.t) : bool :=
  if Literal.negated l then negb (v (Literal.symbol l)) else v (Literal.symbol l).

Definition holds (v : valuation) (c : Clause.t) : bool :=
  existsb (holds_literal v) c.

Definition models (v : valuation) (kb : list Clause.t) : bool :=
  forallb (holds v) kb.

(** The valuation that makes true the symbols of [trues], and no other. *)
Definition assign (trues : list string) : valuation :=
  fun s => existsb (String.eqb s) trues.

(** [falsified D trues c]: every literal of [c] is on a symbol of [D] and
    is false under [assign trues]. *)
Definition falsified (D trues : list string) (c : Clause.t) : bool :=
  forallb (fun l => existsb (String.eqb (Literal.symbol l)) D
                    && negb (holds_literal (assign trues) l)) c.

(** A valuation for a set of clauses [W], decided symbol by symbol: a
    symbol is made true when leaving it false would falsify a clause. *)
Fixpoint build_model (W : list Clause.t) (atoms D trues : list string)
  : list string :=
  match atoms with
  | [] => trues
  | p :: rest =>
      if existsb (falsified (p :: D) trues) W
      then build_model W rest (p :: D) (p :: trues)
      else build_model W rest (p :: D) trues
  end.

(** The symbols of a set of clauses. *)
Definition symbols_of (W : list Clause.t) : list string :=
  map Literal.symbol (List.concat W).

(** ** Literals that survive printing and parsing *)

(** The literals [Literal.parse] reads back from their representation:
    the symbol is one character, and not [-] unless the literal is
    negated. *)
Definition readable (l : Literal.t) : bool :=
  match Literal.symbol l with
  | String c EmptyString => Literal.negated l || negb (Ascii.eqb c "-")
  | _ => false
  end.

(** Those that [Clause.parse] reads back too: the character is not white
    space, which [strip] would remove. *)
Definition printable (l : Literal.t) : bool :=
  match Literal.symbol l with
  | String c EmptyString => negb (Str.is_space c) && readable l
  | _ => false
  end.

(** Texts without the character that starts the separator [ OR ]. *)
Fixpoint no_space (s : string) : bool :=
  match s with
  | EmptyString => true
  | String c rest => negb (Ascii.eqb c " ") && no_space rest
  end.

(** Proof steps for computations on the store: one [bind] of a rule of
    the shape of a sequence rule, and one read of the store. *)
Ltac bind_with rule lemma :=
  eapply rule; [apply lemma | cbv beta; intros ? ?].

Ltac step_read := unfold Store.bind at 1; unfold Store.read at 1; cbv beta iota.

(** * Properties *)

(** ** Python sets whose [__eq__] decides equality *)

(** [__eq__] need not decide equality everywhere: [Clause.__eq__] does so
    on canonical clauses only.  The facts are stated for the elements
    that satisfy [P], where it does. *)

Section PySetFacts.

Variable A : Type.
Variable eqb : A -> A -> bool.
Variable P : A -> Prop.
Hypothesis eqb_spec : forall x y, P x -> P y -> (eqb x y = true <-> x = y).

Lemma mem_In (x : A) (s : list A) :
  P x -> Forall P s -> (mem eqb x s = true <-> In x s).
Proof.
  intros Hx Hs. rewrite Forall_forall in Hs.
  unfold mem. rewrite existsb_exists. split.
  - intros [y [Hy He]]. apply eqb_spec in He; auto. now subst.
  - intros H. exists x. split; [assumption | now apply eqb_spec].
Qed.

Lemma mem_false (x : A) (s : list A) :
  P x -> Forall P s -> (mem eqb x s = false <-> ~ In x s).
Proof.
  intros Hx Hs. rewrite <- (mem_In Hx Hs).
  destruct (mem eqb x s); split; intros; congruence.
Qed.

Lemma In_add (s : list A) (x y : A) :
  P x -> Forall P s -> (In y (add eqb s x) <-> In y s \/ y = x).
Proof.
  intros Hx Hs. unfold add. destruct (mem eqb x s) eqn:E.
  - apply (mem_In Hx Hs) in E. split; [auto | intros [H | ->]; assumption].
  - rewrite in_app_iff. simpl. intuition.
Qed.

Lemma Forall_add (Q : A -> Prop) (s : list A) (x : A) :
  Forall Q s -> Q x -> Forall Q (add eqb s x).
Proof.
  intros Hs Hx. unfold add. destruct (mem eqb x s); [assumption |].
  apply Forall_app. split; [assumption | now constructor].
Qed.

Lemma Forall_update (Q : A -> Prop) (xs s : list A) :
  Forall Q s -> Forall Q xs -> Forall Q (update eqb s xs).
Proof.
  unfold update. revert s. induction xs as [| x xs IH]; intros s Hs Hxs; simpl.
  - assumption.
  - apply Forall_cons_iff in Hxs. destruct Hxs as [Hx Hxs].
    apply IH; [now apply Forall_add | assumption].
Qed.

Lemma NoDup_add (s : list A) (x : A) :
  P x -> Forall P s -> NoDup s -> NoDup (add eqb s x).
Proof.
  intros Hx Hs H. unfold add. destruct (mem eqb x s) eqn:E; [assumption |].
  apply (mem_false Hx Hs) in E.
  apply NoDup_rev in H. rewrite <- (rev_involutive (s ++ [x])).
  apply NoDup_rev. rewrite rev_app_distr. simpl. constructor; [| assumption].
  now rewrite <- in_rev.
Qed.

Lemma In_update (xs s : list A) (y : A) :
  Forall P xs -> Forall P s -> (In y (update eqb s xs) <-> In y s \/ In y xs).
Proof.
  unfold update. revert s. induction xs as [| x xs IH]; intros s Hxs Hs; simpl.
  - tauto.
  - apply Forall_cons_iff in Hxs. destruct Hxs as [Hx Hxs].
    rewrite IH by (auto using Forall_add). rewrite In_add by assumption.
    intuition.
Qed.

Lemma NoDup_update (xs s : list A) :
  Forall P xs -> Forall P s -> NoDup s -> NoDup (update eqb s xs).
Proof.
  unfold update. revert s. induction xs as [| x xs IH]; intros s Hxs Hs H; simpl.
  - assumption.
  - apply Forall_cons_iff in Hxs. destruct Hxs as [Hx Hxs].
    apply IH; auto using Forall_add, NoDup_add.
Qed.

Lemma In_pyset (xs : list A) (y : A) :
  Forall P xs -> (In y (pyset eqb xs) <-> In y xs).
Proof. intros H. unfold pyset. rewrite In_update by auto. simpl. tauto. Qed.

Lemma NoDup_pyset (xs : list A) : Forall P xs -> NoDup (pyset eqb xs).
Proof. intros H. apply NoDup_update; auto. constructor. Qed.

Lemma update_fresh (xs s : list A) :
  Forall P xs -> Forall P s -> NoDup (s ++ xs) -> update eqb s xs = s ++ xs.
Proof.
  unfold update. revert s. induction xs as [| x xs IH]; intros s Hxs Hs H; simpl.
  - now rewrite app_nil_r.
  - apply Forall_cons_iff in Hxs. destruct Hxs as [Hx Hxs].
    assert (Hm : mem eqb x s = false).
    { apply mem_false; trivial. intros Hin. apply NoDup_remove_2 in H.
      apply H. apply in_or_app. now left. }
    unfold add at 2. rewrite Hm.
    replace (s ++ x :: xs) with ((s ++ [x]) ++ xs) in *
      by (rewrite <- app_assoc; reflexivity).
    apply IH; trivial. apply Forall_app. split; [assumption | now constructor].
Qed.

Lemma pyset_NoDup (xs : list A) : Forall P xs -> NoDup xs -> pyset eqb xs = xs.
Proof. intros HP H. unfold pyset. now rewrite update_fresh. Qed.

Lemma issubset_incl (s u : list A) :
  Forall P s -> Forall P u -> (issubset eqb s u = true <-> incl s u).
Proof.
  intros Hs Hu. unfold issubset, incl. rewrite forallb_forall.
  pose proof (proj1 (Forall_forall P s) Hs) as Hs'.
  split; intros H x Hx; apply mem_In; auto.
Qed.

Lemma In_difference (s u : list A) (x : A) :
  Forall P s -> Forall P u ->
  (In x (difference eqb s u) <-> In x s /\ ~ In x u).
Proof.
  intros Hs Hu. unfold difference. rewrite filter_In, negb_true_iff.
  pose proof (proj1 (Forall_forall P s) Hs) as Hs'.
  split; intros [H1 H2]; (split; [assumption |]); apply mem_false in H2; auto.
Qed.

Lemma set_eq_same (s u : list A) :
  Forall P s -> Forall P u -> NoDup s -> NoDup u ->
  (set_eq eqb s u = true <-> (forall x, In x s <-> In x u)).
Proof.
  intros HPs HPu Hs Hu. unfold set_eq.
  rewrite andb_true_iff, Nat.eqb_eq, issubset_incl by assumption. split.
  - intros [Hlen Hincl] x. split; [apply Hincl |].
    apply (NoDup_length_incl Hs); [lia | assumption].
  - intros H. split.
    + apply Nat.le_antisymm; apply NoDup_incl_length; trivial;
        intros x Hx; now apply H.
    + intros x Hx. now apply H.
Qed.

(** The set grows strictly when something new comes in. *)
Lemma update_length (xs s : list A) :
  Forall P xs -> Forall P s -> NoDup s -> ~ incl xs s ->
  List.length s < List.length (update eqb s xs).
Proof.
  intros Hxs HPs Hs Hn.
  assert (Hle : List.length s <= List.length (update eqb s xs)).
  { apply NoDup_incl_length; [assumption |].
    intros x Hx. apply In_update; auto. }
  destruct (Nat.eq_dec (List.length s) (List.length (update eqb s xs))) as [E | E];
    [| lia].
  exfalso. apply Hn. intros x Hx.
  apply (@NoDup_length_incl _ s (update eqb s xs)); trivial.
  - lia.
  - intros y Hy. apply In_update; auto.
  - apply In_update; auto.
Qed.

(** An empty difference is what an included set leaves. *)
Lemma difference_subset (s u : list A) :
  issubset eqb s u = true -> difference eqb s u = [].
Proof.
  unfold issubset, difference. induction s as [| x s IH]; simpl; [reflexivity |].
  rewrite andb_true_iff. intros [Hx Hs]. rewrite Hx. simpl. auto.
Qed.

End PySetFacts.

Lemma Forall_True (A : Type) (l : list A) : Forall (fun _ => True) l.
Proof. apply Forall_forall. trivial. Qed.

(** ** [sorted] under a strict total order *)

Section SortedFacts.

Variable A : Type.
Variable ltb : A -> A -> bool.
Hypothesis ltb_irrefl : forall x, ltb x x = false.
Hypothesis ltb_trans :
  forall x y z, ltb x y = true -> ltb y z = true -> ltb x z = true.
Hypothesis ltb_total :
  forall x y, ltb x y = false -> ltb y x = false -> x = y.

Lemma ltb_asym (x y : A) : ltb x y = true -> ltb y x = false.
Proof.
  intros H. destruct (ltb y x) eqn:E; [| reflexivity].
  rewrite <- (ltb_irrefl x). symmetry. now apply ltb_trans with y.
Qed.

Lemma insert_perm (x : A) (l : list A) : Permutation (insert ltb x l) (x :: l).
Proof.
  induction l as [| y l IH]; simpl.
  - apply Permutation_refl.
  - destruct (ltb y x).
    + apply perm_trans with (y :: x :: l); [now apply perm_skip | apply perm_swap].
    + apply Permutation_refl.
Qed.

Lemma sorted_perm (l : list A) : Permutation (sorted ltb l) l.
Proof.
  induction l as [| x l IH]; simpl.
  - apply perm_nil.
  - apply perm_trans with (x :: sorted ltb l);
      [apply insert_perm | now apply perm_skip].
Qed.

Lemma In_sorted (l : list A) (x : A) : In x (sorted ltb l) <-> In x l.
Proof.
  split; apply Permutation_in;
    [apply sorted_perm | apply Permutation_sym, sorted_perm].
Qed.

Lemma insert_increasing (x : A) (l : list A) :
  increasing ltb l -> ~ In x l -> increasing ltb (insert ltb x l).
Proof.
  unfold increasing. induction l as [| y l IH]; intros Hs Hn; simpl.
  - constructor; constructor.
  - apply StronglySorted_inv in Hs. destruct Hs as [Hs Hy].
    destruct (ltb y x) eqn:E.
    + constructor.
      * apply IH; [assumption | intros H; apply Hn; now right].
      * apply (Permutation_Forall (Permutation_sym (insert_perm x l))).
        constructor; assumption.
    + assert (Hxy : ltb x y = true).
      { destruct (ltb x y) eqn:E'; [reflexivity |].
        exfalso. apply Hn. left. symmetry. now apply ltb_total. }
      constructor; [now constructor |].
      constructor; [assumption |].
      eapply Forall_impl; [| exact Hy].
      intros z Hz. now apply ltb_trans with y.
Qed.

Lemma sorted_increasing (l : list A) : NoDup l -> increasing ltb (sorted ltb l).
Proof.
  induction 1 as [| x l Hx Hl IH]; simpl.
  - constructor.
  - apply insert_increasing; [assumption | now rewrite In_sorted].
Qed.

Lemma increasing_NoDup (l : list A) : increasing ltb l -> NoDup l.
Proof.
  induction 1 as [| x l Hs IH Hx]; constructor; [| assumption].
  intros Hin. rewrite Forall_forall in Hx.
  specialize (Hx x Hin). now rewrite ltb_irrefl in Hx.
Qed.

Lemma sorted_fixed (l : list A) : increasing ltb l -> sorted ltb l = l.
Proof.
  induction 1 as [| x l Hs IH Hx]; simpl; [reflexivity |].
  rewrite IH. destruct l as [| y l]; simpl; [reflexivity |].
  apply Forall_inv in Hx. now rewrite (ltb_asym Hx).
Qed.

(** An increasing sequence is determined by its elements. *)
Lemma increasing_unique (a b : list A) :
  increasing ltb a -> increasing ltb b -> (forall x, In x a <-> In x b) -> a = b.
Proof.
  intros Ha. revert b.
  induction Ha as [| x a Hs IH Hx]; intros b Hb Hab.
  - destruct b as [| y b]; [reflexivity |].
    exfalso. apply (Hab y). now left.
  - destruct Hb as [| y b Hsb Hy].
    + exfalso. apply (Hab x). now left.
    + rewrite Forall_forall in Hx, Hy.
      assert (Exy : x = y).
      { destruct (proj1 (Hab x) (or_introl Logic.eq_refl)) as [E | Hin];
          [now symmetry |].
        destruct (proj2 (Hab y) (or_introl Logic.eq_refl)) as [E | Hin'];
          [assumption |].
        pose proof (Hy x Hin) as H1. pose proof (Hx y Hin') as H2.
        rewrite (ltb_asym H1) in H2. discriminate. }
      subst y. f_equal. apply IH; [assumption |].
      intros z. split; intros Hz.
      * destruct (proj1 (Hab z) (or_intror Hz)) as [E | Hin]; [| assumption].
        subst z. specialize (Hx x Hz). now rewrite ltb_irrefl in Hx.
      * destruct (proj2 (Hab z) (or_intror Hz)) as [E | Hin]; [| assumption].
        subst z. specialize (Hy x Hz). now rewrite ltb_irrefl in Hy.
Qed.

(** [sorted] forgets the order of its argument: this is why the order in
    which [set(...)] is iterated does not show in [refactor]. *)
Lemma sorted_order_irrelevant (l l' : list A) :
  NoDup l -> Permutation l' l -> sorted ltb l' = sorted ltb l.
Proof.
  intros Hl Hp. apply increasing_unique.
  - apply sorted_increasing. apply (Permutation_NoDup (Permutation_sym Hp) Hl).
  - now apply sorted_increasing.
  - intros x. rewrite !In_sorted. split; apply Permutation_in;
      [assumption | now apply Permutation_sym].
Qed.

End SortedFacts.

(** ** The order on strings and on literals *)

Lemma ascii_compare_refl (a : ascii) : Ascii.compare a a = Eq.
Proof. unfold Ascii.compare. apply N.compare_refl. Qed.

Lemma ascii_compare_lt_trans (a b c : ascii) :
  Ascii.compare a b = Lt -> Ascii.compare b c = Lt -> Ascii.compare a c = Lt.
Proof.
  unfold Ascii.compare. rewrite !N.compare_lt_iff. apply N.lt_trans.
Qed.

Lemma string_compare_refl (s : string) : String.compare s s = Eq.
Proof.
  induction s as [| a s IH]; simpl; [reflexivity |].
  now rewrite ascii_compare_refl.
Qed.

Lemma string_compare_lt_trans (s1 s2 s3 : string) :
  String.compare s1 s2 = Lt -> String.compare s2 s3 = Lt ->
  String.compare s1 s3 = Lt.
Proof.
  revert s2 s3. induction s1 as [| a s1 IH]; intros [| b s2] [| c s3]; simpl;
    try discriminate; try reflexivity.
  destruct (Ascii.compare a b) eqn:Eab; try discriminate;
    destruct (Ascii.compare b c) eqn:Ebc; try discriminate; intros H1 H2.
  - apply Ascii.compare_eq_iff in Eab, Ebc. subst.
    rewrite ascii_compare_refl. now apply IH with s2.
  - apply Ascii.compare_eq_iff in Eab. subst. now rewrite Ebc.
  - apply Ascii.compare_eq_iff in Ebc. subst. now rewrite Eab.
  - now rewrite (ascii_compare_lt_trans _ _ _ Eab Ebc).
Qed.

Lemma string_ltb_irrefl (s : string) : String.ltb s s = false.
Proof. unfold String.ltb. now rewrite string_compare_refl. Qed.

Lemma string_ltb_trans (s1 s2 s3 : string) :
  String.ltb s1 s2 = true -> String.ltb s2 s3 = true -> String.ltb s1 s3 = true.
Proof.
  unfold String.ltb.
  destruct (String.compare s1 s2) eqn:E1; try discriminate.
  destruct (String.compare s2 s3) eqn:E2; try discriminate.
  now rewrite (string_compare_lt_trans _ _ _ E1 E2).
Qed.

Lemma string_ltb_total (s1 s2 : string) :
  String.ltb s1 s2 = false -> String.ltb s2 s1 = false -> s1 = s2.
Proof.
  unfold String.ltb. rewrite (String.compare_antisym s2 s1).
  destruct (String.compare s1 s2) eqn:E; simpl; try discriminate.
  intros _ _. now apply String.compare_eq_iff.
Qed.

Lemma Literal_eq_spec (a b : Literal.t) : Literal.eq a b = true <-> a = b.
Proof.
  unfold Literal.eq. destruct a as [sa na], b as [sb nb]; simpl.
  rewrite andb_true_iff, String.eqb_eq, Bool.eqb_true_iff.
  split; [intros [-> ->]; reflexivity | intros H; injection H; auto].
Qed.

Lemma Literal_eq_refl (a : Literal.t) : Literal.eq a a = true.
Proof. now apply Literal_eq_spec. Qed.

Lemma Literal_lt_irrefl (a : Literal.t) : Literal.lt a a = false.
Proof.
  unfold Literal.lt. rewrite String.eqb_refl. simpl.
  unfold Literal.bool_lt. now destruct (Literal.negated a).
Qed.

Lemma Literal_lt_trans (a b c : Literal.t) :
  Literal.lt a b = true -> Literal.lt b c = true -> Literal.lt a c = true.
Proof.
  unfold Literal.lt, Literal.bool_lt.
  destruct a as [sa na], b as [sb nb], c as [sc nc]; simpl.
  destruct (String.eqb_spec sa sb) as [-> | Hab];
    destruct (String.eqb_spec sb sc) as [-> | Hbc]; simpl.
  - destruct na, nb, nc; simpl; congruence.
  - destruct (String.eqb_spec sb sc); [contradiction |]. simpl. auto.
  - destruct (String.eqb_spec sa sc); [contradiction |]. simpl. auto.
  - intros H1 H2. pose proof (string_ltb_trans _ _ _ H1 H2) as H.
    destruct (String.eqb_spec sa sc) as [-> | Hac]; simpl; [| assumption].
    unfold String.ltb in H1, H2. rewrite (String.compare_antisym sc sb) in H1.
    destruct (String.compare sb sc); simpl in *; discriminate.
Qed.

Lemma Literal_lt_total (a b : Literal.t) :
  Literal.lt a b = false -> Literal.lt b a = false -> a = b.
Proof.
  unfold Literal.lt, Literal.bool_lt.
  destruct a as [sa na], b as [sb nb]; simpl.
  rewrite (String.eqb_sym sb sa).
  destruct (String.eqb_spec sa sb) as [-> | Hab]; simpl.
  - destruct na, nb; simpl; congruence.
  - intros H1 H2. exfalso. apply Hab. now apply string_ltb_total.
Qed.

Lemma is_complement_spec (a b : Literal.t) :
  Literal.is_complement a b = true <->
  Literal.symbol a = Literal.symbol b /\ Literal.negated a = negb (Literal.negated b).
Proof.
  unfold Literal.is_complement.
  rewrite andb_true_iff, negb_true_iff, String.eqb_eq, Bool.eqb_false_iff.
  destruct (Literal.negated a), (Literal.negated b); simpl; intuition congruence.
Qed.

(** ** Canonical clauses *)

Lemma Literal_eq_on (x y : Literal.t) :
  True -> True -> (Literal.eq x y = true <-> x = y).
Proof. intros _ _. apply Literal_eq_spec. Qed.

Lemma In_literal_set (c : list Literal.t) (x : Literal.t) :
  In x (pyset Literal.eq c) <-> In x c.
Proof.
  apply In_pyset with (P := fun _ => True);
    [apply Literal_eq_on | apply Forall_True].
Qed.

Lemma NoDup_literal_set (c : list Literal.t) : NoDup (pyset Literal.eq c).
Proof.
  apply NoDup_pyset with (P := fun _ => True);
    [apply Literal_eq_on | apply Forall_True].
Qed.

Lemma In_refactor (c : Clause.t) (x : Literal.t) :
  In x (Clause.refactor c) <-> In x c.
Proof.
  unfold Clause.refactor. rewrite In_sorted. apply In_literal_set.
Qed.

Lemma refactor_canonical (c : Clause.t) : Clause.canonical (Clause.refactor c).
Proof.
  apply sorted_increasing.
  - apply Literal_lt_trans.
  - apply Literal_lt_total.
  - apply NoDup_literal_set.
Qed.

Lemma canonical_NoDup (c : Clause.t) : Clause.canonical c -> NoDup c.
Proof. apply increasing_NoDup, Literal_lt_irrefl. Qed.

Lemma refactor_fixed (c : Clause.t) : Clause.canonical c -> Clause.refactor c = c.
Proof.
  intros H. unfold Clause.refactor.
  rewrite pyset_NoDup with (P := fun _ => True);
    [| apply Literal_eq_on | apply Forall_True | now apply canonical_NoDup].
  apply sorted_fixed; [apply Literal_lt_irrefl | apply Literal_lt_trans | exact H].
Qed.

Lemma canonical_unique (a b : Clause.t) :
  Clause.canonical a -> Clause.canonical b -> (forall x, In x a <-> In x b) -> a = b.
Proof.
  apply increasing_unique;
    [apply Literal_lt_irrefl | apply Literal_lt_trans].
Qed.

Lemma Clause_eq_same (a b : Clause.t) :
  Clause.eq a b = true <-> (forall x, In x a <-> In x b).
Proof.
  unfold Clause.eq.
  rewrite set_eq_same with (P := fun _ => True);
    try apply Literal_eq_on; try apply Forall_True; try apply NoDup_literal_set.
  split; intros H x; specialize (H x);
    rewrite !In_literal_set in *; assumption.
Qed.

Lemma Clause_eq_canonical (a b : Clause.t) :
  Clause.canonical a -> Clause.canonical b -> (Clause.eq a b = true <-> a = b).
Proof.
  intros Ha Hb. rewrite Clause_eq_same. split.
  - now apply canonical_unique.
  - intros ->. tauto.
Qed.

(** ** Canonicalization *)

(** C7. Canonicalization is idempotent: refactoring a refactored clause
    gives back the same literal sequence. *)
Theorem refactor_idempotent (c : Clause.t) :
  Clause.refactor (Clause.refactor c) = Clause.refactor c.
Proof. apply refactor_fixed, refactor_canonical. Qed.

(** The order in which [set(self.literals)] is iterated does not show in
    the result of [refactor]. *)
Lemma refactor_set_order (c l : list Literal.t) :
  Permutation l (pyset Literal.eq c) -> sorted Literal.lt l = Clause.refactor c.
Proof.
  intros H. apply sorted_order_irrelevant; trivial.
  - apply Literal_lt_irrefl.
  - apply Literal_lt_trans.
  - apply Literal_lt_total.
  - apply NoDup_literal_set.
Qed.

(** ** Hashing *)

(** C10. On refactored clauses [==] implies equal hashes, whatever
    Python's hashes of strings and of tuples are. *)
Theorem hash_eq_consistent (hash_str : string -> Z) (hash_tuple : list Z -> Z)
        (a b : Clause.t) :
  Clause.eq (Clause.refactor a) (Clause.refactor b) = true ->
  Clause.hash hash_str hash_tuple (Clause.refactor a)
  = Clause.hash hash_str hash_tuple (Clause.refactor b).
Proof.
  intros H. apply Clause_eq_canonical in H; try apply refactor_canonical.
  now rewrite H.
Qed.

Lemma hash_eq_consistent_witness :
  Clause.hash (fun s => Z.of_nat (String.length s)) (fold_right Z.add 0%Z)
              (Clause.refactor [Literal.mk "B" false; Literal.mk "A" true;
                                Literal.mk "A" true])
  = Clause.hash (fun s => Z.of_nat (String.length s)) (fold_right Z.add 0%Z)
                (Clause.refactor [Literal.mk "A" true; Literal.mk "B" false]).
Proof. apply hash_eq_consistent. reflexivity. Defined.

(** Sets that ask the hash before [==] are the sets that ask [==] only, as
    long as they hold canonical clauses: this is what the sets of the
    engine rely on. *)

Section SetsAgree.

Variable A : Type.
Variables eqb1 eqb2 : A -> A -> bool.
Variable P : A -> Prop.
Hypothesis agree : forall x y, P x -> P y -> eqb1 x y = eqb2 x y.

Lemma mem_agree (x : A) (s : list A) :
  P x -> Forall P s -> mem eqb1 x s = mem eqb2 x s.
Proof.
  intros Hx Hs. unfold mem. induction Hs as [| y s Hy Hs IH]; simpl.
  - reflexivity.
  - now rewrite IH, agree.
Qed.

Lemma add_agree (s : list A) (x : A) :
  P x -> Forall P s -> add eqb1 s x = add eqb2 s x.
Proof. intros Hx Hs. unfold add. now rewrite mem_agree. Qed.

Lemma update_agree (xs s : list A) :
  Forall P xs -> Forall P s -> update eqb1 s xs = update eqb2 s xs.
Proof.
  unfold update. intros Hxs. revert s.
  induction Hxs as [| x xs Hx Hxs IH]; intros s Hs; simpl.
  - reflexivity.
  - rewrite add_agree by assumption. apply IH. now apply Forall_add.
Qed.

Lemma pyset_agree (xs : list A) : Forall P xs -> pyset eqb1 xs = pyset eqb2 xs.
Proof. intros H. unfold pyset. apply update_agree; [assumption | constructor]. Qed.

Lemma issubset_agree (s u : list A) :
  Forall P s -> Forall P u -> issubset eqb1 s u = issubset eqb2 s u.
Proof.
  intros Hs Hu. unfold issubset. induction Hs as [| x s Hx Hs IH]; simpl.
  - reflexivity.
  - now rewrite IH, mem_agree.
Qed.

Lemma difference_agree (s u : list A) :
  Forall P s -> Forall P u -> difference eqb1 s u = difference eqb2 s u.
Proof.
  intros Hs Hu. unfold difference. induction Hs as [| x s Hx Hs IH]; simpl.
  - reflexivity.
  - now rewrite IH, mem_agree.
Qed.

End SetsAgree.

Lemma same_eq_canonical (hash_str : string -> Z) (hash_tuple : list Z -> Z)
      (a b : Clause.t) :
  Clause.canonical a -> Clause.canonical b ->
  Clause.same hash_str hash_tuple a b = Clause.eq a b.
Proof.
  intros Ha Hb. unfold Clause.same.
  destruct (Clause.eq a b) eqn:E; [| apply andb_false_r].
  apply (Clause_eq_canonical Ha Hb) in E. subst b.
  now rewrite Z.eqb_refl.
Qed.

(** On sets of canonical clauses the tests of a Python set, which ask the
    hash and then [==], are the tests by [==] alone, whatever the
    hashes. *)
Lemma issubset_same_canonical (hash_str : string -> Z) (hash_tuple : list Z -> Z)
      (s u : list Clause.t) :
  Forall Clause.canonical s -> Forall Clause.canonical u ->
  issubset (Clause.same hash_str hash_tuple) s u = issubset Clause.eq s u.
Proof.
  apply issubset_agree. intros x y. apply same_eq_canonical.
Qed.

Lemma difference_same_canonical (hash_str : string -> Z) (hash_tuple : list Z -> Z)
      (s u : list Clause.t) :
  Forall Clause.canonical s -> Forall Clause.canonical u ->
  difference (Clause.same hash_str hash_tuple) s u = difference Clause.eq s u.
Proof.
  apply difference_agree. intros x y. apply same_eq_canonical.
Qed.

Lemma update_same_canonical (hash_str : string -> Z) (hash_tuple : list Z -> Z)
      (xs s : list Clause.t) :
  Forall Clause.canonical xs -> Forall Clause.canonical s ->
  update (Clause.same hash_str hash_tuple) s xs = update Clause.eq s xs.
Proof.
  apply update_agree. intros x y. apply same_eq_canonical.
Qed.

(** ** Tautologies *)

Lemma string_ltb_asym (s1 s2 : string) :
  String.ltb s1 s2 = true -> String.ltb s2 s1 = false.
Proof.
  intros H. destruct (String.ltb s2 s1) eqn:E; [| reflexivity].
  rewrite <- (string_ltb_irrefl s1). symmetry. now apply string_ltb_trans with s2.
Qed.

(** No literal sits strictly between [A] and [-A]. *)
Lemma no_literal_between (p b n : Literal.t) :
  Literal.symbol p = Literal.symbol n ->
  Literal.negated p = false -> Literal.negated n = true ->
  Literal.lt p b = true -> Literal.lt b n = true -> False.
Proof.
  destruct p as [sp np], b as [sb nb], n as [sn nn]; simpl.
  intros -> -> ->. unfold Literal.lt, Literal.bool_lt; simpl.
  rewrite (String.eqb_sym sb sn).
  destruct (String.eqb_spec sn sb) as [-> | Hne]; simpl.
  - destruct nb; simpl; discriminate.
  - intros H1 H2. apply string_ltb_asym in H1. congruence.
Qed.

Lemma adjacent_complements (c : Clause.t) (p n : Literal.t) :
  Clause.canonical c -> In p c -> In n c ->
  Literal.symbol p = Literal.symbol n ->
  Literal.negated p = false -> Literal.negated n = true ->
  Clause.is_always_true c = true.
Proof.
  intros Hc Hp Hn Hs Hpf Hnt.
  induction Hc as [| a c Hc IH Ha]; [contradiction |].
  rewrite Forall_forall in Ha.
  destruct Hp as [-> | Hp], Hn as [E | Hn].
  - subst n. congruence.
  - destruct c as [| b c]; [contradiction |]. simpl.
    destruct (Literal.is_complement p b) eqn:Epb; [reflexivity |].
    exfalso. destruct Hn as [-> | Hn].
    + assert (Literal.is_complement p n = true)
        by (apply is_complement_spec; rewrite Hpf, Hnt; auto).
      congruence.
    + apply StronglySorted_inv in Hc. destruct Hc as [_ Hb].
      rewrite Forall_forall in Hb.
      apply (no_literal_between p b n); auto.
      apply Ha. now left.
  - subst a. exfalso. specialize (Ha p Hp).
    unfold Literal.lt, Literal.bool_lt in Ha.
    rewrite Hs, String.eqb_refl, Hpf, Hnt in Ha. discriminate.
  - destruct c as [| b c]; [contradiction |].
    change (Clause.is_always_true (a :: b :: c))
      with (if Literal.is_complement a b then true
            else Clause.is_always_true (b :: c)).
    destruct (Literal.is_complement a b); [reflexivity | auto].
Qed.

Lemma canonical_complements_detected (x : Literal.t) (c : Clause.t) :
  Clause.canonical c -> In x c -> In (Literal.negate x) c ->
  Clause.is_always_true c = true.
Proof.
  intros Hc Hx Hn. destruct (Literal.negated x) eqn:E.
  - apply adjacent_complements with (p := Literal.negate x) (n := x); auto.
    simpl. now rewrite E.
  - apply adjacent_complements with (p := x) (n := Literal.negate x); auto.
    simpl. now rewrite E.
Qed.

(** C8. Tautology soundness: a clause that holds a literal and its
    complement is reported always true once refactored. *)
Theorem tautology_soundness (x : Literal.t) (c : Clause.t) :
  In x c -> In (Literal.negate x) c ->
  Clause.is_always_true (Clause.refactor c) = true.
Proof.
  intros Hx Hn. apply canonical_complements_detected with (x := x).
  - apply refactor_canonical.
  - now apply In_refactor.
  - now apply In_refactor.
Qed.

Lemma tautology_soundness_witness :
  Clause.is_always_true
    (Clause.refactor [Literal.mk "B" false; Literal.mk "A" true; Literal.mk "A" false])
  = true.
Proof.
  apply (@tautology_soundness (Literal.mk "A" false)); simpl; auto.
Defined.

(** The scan is also complete on canonical clauses: it only answers true
    when a complementary pair is there. *)
Lemma always_true_has_complements (c : Clause.t) :
  Clause.is_always_true c = true ->
  exists x y, In x c /\ In y c /\ Literal.is_complement x y = true.
Proof.
  induction c as [| a c IH]; [discriminate |].
  destruct c as [| b c]; [discriminate |].
  change (Clause.is_always_true (a :: b :: c))
    with (if Literal.is_complement a b then true
          else Clause.is_always_true (b :: c)).
  destruct (Literal.is_complement a b) eqn:E.
  - intros _. exists a, b. simpl. auto.
  - intros H. destruct (IH H) as [x [y [Hx [Hy Hxy]]]].
    exists x, y. split; [now right | split; [now right | assumption]].
Qed.

(** ** Resolution of two clauses *)

Lemma fold_left_invariant (S B : Type) (P : S -> Prop) (f : S -> B -> S)
      (l : list B) (s : S) :
  (forall s' x, P s' -> P (f s' x)) -> P s -> P (fold_left f l s).
Proof.
  intros Hf. revert s. induction l as [| x l IH]; simpl; auto.
Qed.

(** Whatever property the non-tautological merges have, the resolvents
    have. *)
Lemma pl_resolve_Forall (P : Clause.t -> Prop) (a b : Clause.t) :
  (forall l1 l2, In l1 a -> In l2 b -> Literal.is_complement l1 l2 = true ->
     let r := Clause.merge (Clause.clone_without a l1) (Clause.clone_without b l2) in
     Clause.is_always_true r = false -> P r) ->
  Forall P (fst (Clause.pl_resolve a b)).
Proof.
  intros HP. unfold Clause.pl_resolve.
  assert (G : forall (la lb : list Literal.t) st,
             incl la a -> incl lb b -> Forall P (fst st) ->
             Forall P (fst (fold_left
               (fun st literal1 =>
                  fold_left (fun st' literal2 =>
                               Clause.resolve_pair a b st' literal1 literal2) lb st)
               la st))).
  { induction la as [| l1 la IH]; intros lb st Hla Hlb Hst; simpl; [assumption |].
    apply IH; [intros x Hx; apply Hla; now right | assumption |].
    assert (H1 : In l1 a) by (apply Hla; now left).
    clear IH Hla. revert st Hst.
    induction lb as [| l2 lb IHb]; intros st Hst; simpl; [assumption |].
    apply IHb; [intros x Hx; apply Hlb; now right |].
    assert (H2 : In l2 b) by (apply Hlb; now left).
    unfold Clause.resolve_pair.
    destruct (Literal.is_complement l1 l2) eqn:Ec; [| assumption].
    destruct (Clause.is_always_true _) eqn:Et; [assumption |].
    simpl. apply Forall_add; [assumption |]. now apply HP. }
  apply G; try apply incl_refl. constructor.
Qed.

(** The resolvents kept hold no literal together with its complement:
    on the canonical clauses that [merge] builds, the scan misses none. *)
Lemma pl_resolve_no_complements (a b : Clause.t) :
  Forall (fun c => forall x, In x c -> ~ In (Literal.negate x) c)
         (fst (Clause.pl_resolve a b)).
Proof.
  apply pl_resolve_Forall. intros l1 l2 _ _ _ r Hr x Hx Hn.
  assert (Ht : Clause.is_always_true r = true).
  { apply canonical_complements_detected with (x := x); trivial.
    apply refactor_canonical. }
  congruence.
Qed.

(** C2. No clause of the resolvent set returned by [pl_resolve] is always
    true: tautological resolvents are left out of the set. *)
Theorem pl_resolve_no_tautology (a b : Clause.t) :
  Forall (fun c => Clause.is_always_true c = false) (fst (Clause.pl_resolve a b)).
Proof. apply pl_resolve_Forall. intros l1 l2 _ _ _ r Hr. exact Hr. Qed.

(** ** One round of resolution over the working set *)

Lemma Clause_eq_on (L : list Literal.t) (x y : Clause.t) :
  good L x -> good L y -> (Clause.eq x y = true <-> x = y).
Proof. intros [Hx _] [Hy _]. now apply Clause_eq_canonical. Qed.

Section GoodSets.

Variable L : list Literal.t.

Lemma mem_In_good (x : Clause.t) (s : list Clause.t) :
  good L x -> Forall (good L) s -> (mem Clause.eq x s = true <-> In x s).
Proof. apply mem_In. apply Clause_eq_on. Qed.

Lemma In_update_good (xs s : list Clause.t) (y : Clause.t) :
  Forall (good L) xs -> Forall (good L) s ->
  (In y (update Clause.eq s xs) <-> In y s \/ In y xs).
Proof. apply In_update. apply Clause_eq_on. Qed.

Lemma NoDup_update_good (xs s : list Clause.t) :
  Forall (good L) xs -> Forall (good L) s -> NoDup s ->
  NoDup (update Clause.eq s xs).
Proof. apply NoDup_update. apply Clause_eq_on. Qed.

Lemma In_pyset_good (xs : list Clause.t) (y : Clause.t) :
  Forall (good L) xs -> (In y (pyset Clause.eq xs) <-> In y xs).
Proof. apply In_pyset. apply Clause_eq_on. Qed.

Lemma NoDup_pyset_good (xs : list Clause.t) :
  Forall (good L) xs -> NoDup (pyset Clause.eq xs).
Proof. apply NoDup_pyset. apply Clause_eq_on. Qed.

Lemma issubset_incl_good (s u : list Clause.t) :
  Forall (good L) s -> Forall (good L) u ->
  (issubset Clause.eq s u = true <-> incl s u).
Proof. apply issubset_incl. apply Clause_eq_on. Qed.

Lemma update_length_good (xs s : list Clause.t) :
  Forall (good L) xs -> Forall (good L) s -> NoDup s -> ~ incl xs s ->
  List.length s < List.length (update Clause.eq s xs).
Proof. apply update_length. apply Clause_eq_on. Qed.

End GoodSets.

Lemma In_merge_clone (a b : Clause.t) (l1 l2 x : Literal.t) :
  In x (Clause.merge (Clause.clone_without a l1) (Clause.clone_without b l2)) <->
  (In x a /\ x <> l1) \/ (In x b /\ x <> l2).
Proof.
  unfold Clause.merge, Clause.clone_without.
  rewrite In_refactor, in_app_iff, !In_refactor, !filter_In, !negb_true_iff.
  assert (E : forall l, Literal.eq x l = false <-> x <> l).
  { intros l. rewrite <- Literal_eq_spec.
    destruct (Literal.eq x l); split; intros; congruence. }
  rewrite !E. tauto.
Qed.

Lemma pl_resolve_good (L : list Literal.t) (a b : Clause.t) :
  incl a L -> incl b L -> Forall (good L) (fst (Clause.pl_resolve a b)).
Proof.
  intros Ha Hb. apply pl_resolve_Forall. intros l1 l2 _ _ _ r _. split.
  - apply refactor_canonical.
  - intros x Hx. apply In_merge_clone in Hx.
    destruct Hx as [[Hx _] | [Hx _]]; auto.
Qed.

Lemma resolve_with_good (L : list Literal.t) (c1 : Clause.t)
      (cs : list Clause.t) (st : list Clause.t * bool) :
  good L c1 -> Forall (good L) cs -> Forall (good L) (fst st) ->
  Forall (good L) (fst (KnowledgeBase.resolve_with c1 cs st)).
Proof.
  intros H1. revert st. induction cs as [| c2 cs IH]; intros st Hcs Hst; simpl.
  - assumption.
  - apply Forall_cons_iff in Hcs. destruct Hcs as [H2 Hcs].
    pose proof (pl_resolve_good (proj2 H1) (proj2 H2)) as Hr.
    destruct (Clause.pl_resolve c1 c2) as [resolvents has_empty]. simpl in Hr.
    destruct has_empty; simpl.
    + apply Forall_update; assumption.
    + apply IH; [assumption |]. simpl. apply Forall_update; assumption.
Qed.

Lemma resolve_all_good (L : list Literal.t) (cs : list Clause.t)
      (st : list Clause.t * bool) :
  Forall (good L) cs -> Forall (good L) (fst st) ->
  Forall (good L) (fst (KnowledgeBase.resolve_all cs st)).
Proof.
  intros Hcs. unfold KnowledgeBase.resolve_all.
  assert (G : forall l st', Forall (good L) l -> Forall (good L) (fst st') ->
            Forall (good L) (fst (fold_left
              (fun st'' clause1 => KnowledgeBase.resolve_with clause1 cs st'') l st'))).
  { induction l as [| c1 l IH]; intros st' Hl Hst'; simpl; [assumption |].
    apply Forall_cons_iff in Hl. destruct Hl as [H1 Hl].
    apply IH; [assumption |]. now apply resolve_with_good. }
  now apply G.
Qed.

(** The flag after a round: set before, or raised by some pair. *)
Lemma resolve_with_flag (c1 : Clause.t) (cs : list Clause.t)
      (st : list Clause.t * bool) :
  snd (KnowledgeBase.resolve_with c1 cs st)
  = snd st || existsb (fun c2 => snd (Clause.pl_resolve c1 c2)) cs.
Proof.
  revert st. induction cs as [| c2 cs IH]; intros st; simpl.
  - now rewrite orb_false_r.
  - destruct (Clause.pl_resolve c1 c2) as [resolvents has_empty]. simpl.
    destruct has_empty; simpl.
    + now rewrite orb_true_r.
    + now rewrite IH.
Qed.

Lemma resolve_all_flag (cs : list Clause.t) (st : list Clause.t * bool) :
  snd (KnowledgeBase.resolve_all cs st) = snd st || derives_empty cs.
Proof.
  unfold KnowledgeBase.resolve_all, derives_empty.
  assert (G : forall l st',
            snd (fold_left
                   (fun st'' clause1 => KnowledgeBase.resolve_with clause1 cs st'')
                   l st')
            = snd st' ||
              existsb (fun c1 => existsb (fun c2 => snd (Clause.pl_resolve c1 c2)) cs) l).
  { induction l as [| c1 l IH]; intros st'; simpl.
    - now rewrite orb_false_r.
    - rewrite IH, resolve_with_flag. now rewrite orb_assoc. }
  apply G.
Qed.

(** The new clauses of a round that raises no flag: the resolvents of all
    the pairs. *)
Lemma resolve_with_new (L : list Literal.t) (c1 : Clause.t)
      (cs : list Clause.t) (st : list Clause.t * bool) (c : Clause.t) :
  good L c1 -> Forall (good L) cs -> Forall (good L) (fst st) ->
  existsb (fun c2 => snd (Clause.pl_resolve c1 c2)) cs = false ->
  (In c (fst (KnowledgeBase.resolve_with c1 cs st)) <->
   In c (fst st) \/ In c (flat_map (fun c2 => fst (Clause.pl_resolve c1 c2)) cs)).
Proof.
  intros H1. revert st. induction cs as [| c2 cs IH]; intros st Hcs Hst He; simpl.
  - tauto.
  - apply Forall_cons_iff in Hcs. destruct Hcs as [H2 Hcs].
    simpl in He. apply orb_false_iff in He. destruct He as [He2 He].
    pose proof (pl_resolve_good (proj2 H1) (proj2 H2)) as Hr.
    destruct (Clause.pl_resolve c1 c2) as [resolvents has_empty].
    simpl in Hr, He2. subst has_empty. simpl.
    rewrite IH; trivial; simpl.
    + rewrite in_app_iff.
      rewrite (@In_update_good L) by assumption. tauto.
    + apply Forall_update; assumption.
Qed.

Lemma resolve_all_new (L : list Literal.t) (cs : list Clause.t) (c : Clause.t) :
  Forall (good L) cs -> derives_empty cs = false ->
  (In c (fst (KnowledgeBase.resolve_all cs ([], false))) <->
   In c (all_resolvents cs)).
Proof.
  intros Hcs. unfold KnowledgeBase.resolve_all, derives_empty, all_resolvents.
  assert (G : forall l st, Forall (good L) l -> Forall (good L) (fst st) ->
            existsb (fun c1 => existsb (fun c2 => snd (Clause.pl_resolve c1 c2)) cs) l
            = false ->
            (In c (fst (fold_left
               (fun st' clause1 => KnowledgeBase.resolve_with clause1 cs st') l st)) <->
             In c (fst st) \/
             In c (flat_map
                     (fun c1 => flat_map (fun c2 => fst (Clause.pl_resolve c1 c2)) cs)
                     l))).
  { induction l as [| c1 l IH]; intros st Hl Hst He; simpl; [tauto |].
    apply Forall_cons_iff in Hl. destruct Hl as [H1 Hl].
    simpl in He. apply orb_false_iff in He. destruct He as [He1 He].
    rewrite IH; trivial.
    - rewrite in_app_iff.
      rewrite (@resolve_with_new L c1 cs st c H1 Hcs Hst He1). tauto.
    - now apply resolve_with_good. }
  intros He. rewrite G; trivial; simpl; try tauto; try constructor.
Qed.

(** ** Parsing *)

(** The two indexings of [Literal.parse], by cases on the text. *)
Lemma Literal_parse_cases (c : ascii) (rest : string) :
  Literal.parse (String c rest)
  = if Ascii.eqb c "-"
    then match rest with
         | EmptyString => IndexError
         | String d _ => Return (Literal.mk (String d EmptyString) true)
         end
    else Return (Literal.mk (String c EmptyString) false).
Proof.
  unfold Literal.parse, Literal.char_at. simpl.
  destruct (Ascii.eqb_spec c "-"%char) as [-> | Hc].
  - destruct rest; reflexivity.
  - destruct (Ascii.eqb_spec c "-"%char) as [E | _]; [contradiction |].
    reflexivity.
Qed.

(** C4 (amended). On a non-empty text, [Literal.parse] reads one character
    for the symbol: the one after a leading [-] (and the literal is
    negated), else the first one (and the literal is not negated); the rest
    of the text is not read.  The text [-] alone has no character for the
    symbol: the indexing fails. *)
Theorem Literal_parse_spec (c : ascii) (rest : string) :
  Literal.parse (String c rest)
  = if Ascii.eqb c "-"
    then match rest with
         | EmptyString => IndexError
         | String d _ => Return (Literal.mk (String d EmptyString) true)
         end
    else Return (Literal.mk (String c EmptyString) false).
Proof. apply Literal_parse_cases. Qed.

(** C4, as stated, fails: the symbol of the literal parsed from [-AB] is
    not the whole remaining text [AB]. *)
Lemma Literal_parse_symbol_is_one_character :
  ~ (exists l, Literal.parse "-AB" = Return l /\ Literal.negated l = true
               /\ Literal.symbol l = "AB").
Proof.
  intros [l [H [_ Hs]]]. vm_compute in H. injection H as <-. discriminate.
Qed.

Lemma Literal_parse_well_formed (s : string) :
  well_formed_literal s = true <-> exists l, Literal.parse s = Return l.
Proof.
  destruct s as [| c rest].
  - simpl. split; [discriminate | intros [l H]; discriminate].
  - rewrite Literal_parse_cases. simpl.
    destruct (Ascii.eqb c "-").
    + destruct rest; simpl; split; intros H.
      * discriminate.
      * destruct H as [l H]. discriminate.
      * eauto.
      * reflexivity.
    + split; eauto.
Qed.

Lemma split_from_nonempty (sep : string) (s : string) (skip : nat) (cur : string) :
  Str.split_from sep skip cur s <> [].
Proof.
  revert skip cur. induction s as [| c s IH]; intros skip cur;
    cbn [Str.split_from].
  - discriminate.
  - destruct skip; [| apply IH].
    destruct (prefix sep (String c s)); [discriminate | apply IH].
Qed.

(** The loop of [Clause.parse] appends one literal per piece. *)
Lemma parse_loop_length (pieces : list string) (acc c : Clause.t) :
  for_each (fun (clause : Clause.t) literal_str =>
              l <- Literal.parse (Str.strip literal_str) ;;
              Return (clause ++ [l])) pieces acc = Return c ->
  List.length c = List.length acc + List.length pieces.
Proof.
  revert acc. induction pieces as [| p pieces IH]; intros acc; simpl.
  - intros H. injection H as <-. lia.
  - destruct (Literal.parse (Str.strip p)) as [l | |]; simpl; try discriminate.
    intros H. apply IH in H. rewrite length_app in H. simpl in H. lia.
Qed.

Lemma parse_loop_well_formed (pieces : list string) (acc : Clause.t) :
  forallb (fun piece => well_formed_literal (Str.strip piece)) pieces = true ->
  exists c,
    for_each (fun (clause : Clause.t) literal_str =>
                l <- Literal.parse (Str.strip literal_str) ;;
                Return (clause ++ [l])) pieces acc = Return c.
Proof.
  revert acc. induction pieces as [| p pieces IH]; intros acc; simpl.
  - eauto.
  - rewrite andb_true_iff. intros [Hp Hrest].
    apply Literal_parse_well_formed in Hp. destruct Hp as [l Hl].
    rewrite Hl. simpl. now apply IH.
Qed.

Lemma Clause_parse_well_formed (s : string) :
  well_formed s = true -> exists c, Clause.parse s = Return c.
Proof.
  intros H. unfold Clause.parse.
  destruct (parse_loop_well_formed (Str.split " OR " s) [] H) as [c Hc].
  rewrite Hc. simpl. eauto.
Qed.

Lemma Clause_parse_canonical (s : string) (c : Clause.t) :
  Clause.parse s = Return c -> Clause.canonical c.
Proof.
  unfold Clause.parse.
  destruct (for_each _ _ _) as [c' | |]; simpl; try discriminate.
  intros H. injection H as <-. apply refactor_canonical.
Qed.

(** C3, as stated, fails: parsing the empty text does not succeed. *)
Lemma Clause_parse_empty_text_fails :
  ~ (exists c, Clause.parse EmptyString = Return c).
Proof. intros [c H]. vm_compute in H. discriminate. Qed.

(** C3 (amended). Parsing the empty text fails: the text splits into one
    empty piece, on which [Literal.parse] indexes out of range.  The failure
    is not the empty clause, and no text parses to the empty clause: a
    parsed clause holds at least one literal. *)
Theorem Clause_parse_never_empty :
  Clause.parse EmptyString = IndexError /\
  forall s, match Clause.parse s with
            | Return c => Clause.is_empty c = false
            | IndexError => True
            | OutOfFuel => True
            end.
Proof.
  split; [reflexivity |]. intros s. unfold Clause.parse.
  destruct (for_each _ _ _) as [c | |] eqn:E; simpl; trivial.
  apply parse_loop_length in E. simpl in E.
  destruct c as [| x c].
  - exfalso. simpl in E.
    destruct (Str.split " OR " s) eqn:Es; [| discriminate].
    now apply split_from_nonempty in Es.
  - assert (Hx : In x (Clause.refactor (x :: c))) by (apply In_refactor; now left).
    unfold Clause.is_empty. destruct (Clause.refactor (x :: c)); [contradiction |].
    reflexivity.
Qed.

(** ** The universe of clauses is finite *)

Lemma length_sublists (A : Type) (l : list A) :
  List.length (sublists l) = 2 ^ List.length l.
Proof.
  induction l as [| x l IH]; simpl; [reflexivity |].
  rewrite length_app, length_map, IH. lia.
Qed.

Lemma sublists_complete (A : Type) (ltb : A -> A -> bool) (U c : list A) :
  (forall x, ltb x x = false) ->
  (forall x y z, ltb x y = true -> ltb y z = true -> ltb x z = true) ->
  increasing ltb U -> increasing ltb c -> incl c U -> In c (sublists U).
Proof.
  intros Hirr Htr HU. revert c.
  induction HU as [| u U HU IH Hu]; intros c Hc Hincl.
  - destruct c as [| x c]; [now left |].
    exfalso. apply (Hincl x). now left.
  - simpl. apply in_or_app. rewrite Forall_forall in Hu.
    destruct Hc as [| x c Hc Hx].
    + right. apply IH; [constructor | intros y []].
    + assert (Hxc : increasing ltb (x :: c)) by (constructor; assumption).
      rewrite Forall_forall in Hx.
      assert (Hxu : In x (u :: U)) by (apply Hincl; now left).
      destruct Hxu as [-> | HxU].
      * left. apply in_map. apply IH; [assumption |].
        intros y Hy. destruct (Hincl y (or_intror Hy)) as [-> | HyU]; [| assumption].
        specialize (Hx _ Hy). now rewrite Hirr in Hx.
      * right. apply IH; [assumption |].
        intros y [-> | Hy]; [assumption |].
        destruct (Hincl y (or_intror Hy)) as [-> | HyU]; [| assumption].
        exfalso. pose proof (Htr _ _ _ (Hu _ HxU) (Hx _ Hy)) as H.
        now rewrite Hirr in H.
Qed.

Lemma good_in_universe (L : list Literal.t) (c : Clause.t) :
  good L c -> In c (universe L).
Proof.
  intros [Hc Hincl]. unfold universe.
  apply sublists_complete with (ltb := Literal.lt).
  - apply Literal_lt_irrefl.
  - apply Literal_lt_trans.
  - apply refactor_canonical.
  - exact Hc.
  - intros x Hx. apply In_refactor. now apply Hincl.
Qed.

Lemma working_set_bounded (L : list Literal.t) (W : list Clause.t) :
  NoDup W -> Forall (good L) W -> List.length W <= List.length (universe L).
Proof.
  intros Hnd HW. apply NoDup_incl_length; [assumption |].
  rewrite Forall_forall in HW. intros c Hc. now apply good_in_universe, HW.
Qed.

(** ** The saturation loop *)

Lemma bool_eq_iff (a b : bool) : (a = true <-> b = true) -> a = b.
Proof. destruct a, b; intuition congruence. Qed.

Lemma derives_empty_spec (W : list Clause.t) :
  derives_empty W = true <->
  exists c1 c2, In c1 W /\ In c2 W /\ snd (Clause.pl_resolve c1 c2) = true.
Proof.
  unfold derives_empty. rewrite existsb_exists. split.
  - intros [c1 [H1 H]]. apply existsb_exists in H. destruct H as [c2 [H2 H]].
    eauto.
  - intros [c1 [c2 [H1 [H2 H]]]]. exists c1. split; [assumption |].
    apply existsb_exists. eauto.
Qed.

Lemma all_resolvents_spec (W : list Clause.t) (c : Clause.t) :
  In c (all_resolvents W) <-> resolvent_of W c.
Proof.
  unfold all_resolvents, resolvent_of. rewrite in_flat_map. split.
  - intros [c1 [H1 H]]. apply in_flat_map in H. destruct H as [c2 [H2 H]].
    eauto.
  - intros [c1 [c2 [H1 [H2 H]]]]. exists c1. split; [assumption |].
    apply in_flat_map. eauto.
Qed.

Lemma derives_empty_same (W W' : list Clause.t) :
  (forall c, In c W <-> In c W') -> derives_empty W = derives_empty W'.
Proof.
  intros H. apply bool_eq_iff. rewrite !derives_empty_spec.
  split; intros [c1 [c2 [H1 [H2 He]]]]; exists c1, c2; repeat split;
    try apply H; assumption.
Qed.

Lemma resolvent_of_same (W W' : list Clause.t) (c : Clause.t) :
  (forall c', In c' W <-> In c' W') -> (resolvent_of W c <-> resolvent_of W' c).
Proof.
  intros H. unfold resolvent_of.
  split; intros [c1 [c2 [H1 [H2 He]]]]; exists c1, c2; repeat split;
    try apply H; assumption.
Qed.

Section Saturation.

Variable set_iter : list Clause.t -> list Clause.t.
Hypothesis set_iter_perm : forall s, Permutation (set_iter s) s.

Lemma In_set_iter (W : list Clause.t) (c : Clause.t) :
  In c (set_iter W) <-> In c W.
Proof.
  split; apply Permutation_in;
    [apply set_iter_perm | apply Permutation_sym, set_iter_perm].
Qed.

Lemma Forall_set_iter (Q : Clause.t -> Prop) (W : list Clause.t) :
  Forall Q W -> Forall Q (set_iter W).
Proof. apply Permutation_Forall, Permutation_sym, set_iter_perm. Qed.

(** What a round computes, whatever the order of iteration: the flag
    says whether some pair derives the empty clause and, when none does,
    the new clauses are the resolvents of all the pairs. *)
Lemma round_flag (W : list Clause.t) :
  snd (KnowledgeBase.resolve_all (set_iter W) ([], false)) = derives_empty W.
Proof.
  rewrite resolve_all_flag. simpl. apply derives_empty_same, In_set_iter.
Qed.

Lemma round_good (L : list Literal.t) (W : list Clause.t) :
  Forall (good L) W ->
  Forall (good L) (fst (KnowledgeBase.resolve_all (set_iter W) ([], false))).
Proof.
  intros H. apply resolve_all_good; [now apply Forall_set_iter | constructor].
Qed.

Lemma round_new (L : list Literal.t) (W : list Clause.t) (c : Clause.t) :
  Forall (good L) W -> derives_empty W = false ->
  (In c (fst (KnowledgeBase.resolve_all (set_iter W) ([], false))) <->
   resolvent_of W c).
Proof.
  intros HW He.
  rewrite (@resolve_all_new L); [| now apply Forall_set_iter |].
  - rewrite all_resolvents_spec. apply resolvent_of_same, In_set_iter.
  - rewrite <- He. apply derives_empty_same, In_set_iter.
Qed.

(** Enough fuel: one round per clause of the universe not yet in the
    working set, and one more. *)
Lemma saturate_halts (L : list Literal.t) (fuel : nat) :
  forall (W : list Clause.t) (output : list (list Clause.t)),
    NoDup W -> Forall (good L) W ->
    List.length (universe L) < fuel + List.length W ->
    exists b trace,
      KnowledgeBase.saturate set_iter fuel W output false = Return (b, trace).
Proof.
  induction fuel as [| fuel IH]; intros W output Hnd HW Hlen.
  - pose proof (working_set_bounded Hnd HW). simpl in Hlen. lia.
  - simpl.
    pose proof (round_good HW) as Hnew.
    destruct (KnowledgeBase.resolve_all (set_iter W) ([], false))
      as [new_clauses unsat]. simpl in Hnew.
    destruct unsat; [eauto |].
    destruct (issubset Clause.eq new_clauses W) eqn:Esub; [eauto |].
    apply IH.
    + now apply (@NoDup_update_good L).
    + now apply Forall_update.
    + assert (List.length W < List.length (update Clause.eq W new_clauses)).
      { apply (@update_length_good L); trivial.
        intros Hincl. apply (issubset_incl_good Hnew HW) in Hincl. congruence. }
      lia.
Qed.

End Saturation.

(** ** The initial working set *)

Lemma unit_canonical (x : Literal.t) : Clause.canonical [x].
Proof. repeat constructor. Qed.

Lemma KnowledgeBase_parse_loop (premises : list string) (acc : KnowledgeBase.t) :
  forallb well_formed premises = true -> Forall Clause.canonical acc ->
  exists kb,
    for_each (fun (kb : KnowledgeBase.t) clause_str =>
                clause <- Clause.parse clause_str ;;
                Return (kb ++ [Clause.refactor clause])) premises acc = Return kb
    /\ Forall Clause.canonical kb.
Proof.
  revert acc. induction premises as [| p premises IH]; intros acc; simpl.
  - eauto.
  - rewrite andb_true_iff. intros [Hp Hrest] Hacc.
    destruct (@Clause_parse_well_formed p Hp) as [c Hc]. rewrite Hc. simpl.
    apply IH; [assumption |]. apply Forall_app. split; [assumption |].
    constructor; [apply refactor_canonical | constructor].
Qed.

Lemma KnowledgeBase_parse_well_formed (premises : list string) :
  forallb well_formed premises = true ->
  exists kb, KnowledgeBase.parse premises = Return kb /\ Forall Clause.canonical kb.
Proof. intros H. apply KnowledgeBase_parse_loop; [assumption | constructor]. Qed.

Lemma negated_query_loop (pieces : list string) (acc : list Clause.t) :
  forallb (fun piece => well_formed_literal (Str.strip piece)) pieces = true ->
  Forall Clause.canonical acc ->
  exists clauses,
    for_each (fun (clauses : list Clause.t) literal_str =>
                literal <- Literal.parse (Str.strip literal_str) ;;
                let clause : Clause.t := [Literal.negate literal] in
                Return (if negb (mem Clause.eq clause clauses)
                        then clauses ++ [clause] else clauses)) pieces acc
    = Return clauses
    /\ Forall Clause.canonical clauses.
Proof.
  revert acc. induction pieces as [| p pieces IH]; intros acc; simpl.
  - eauto.
  - rewrite andb_true_iff. intros [Hp Hrest] Hacc.
    apply Literal_parse_well_formed in Hp. destruct Hp as [l Hl].
    rewrite Hl. simpl. apply IH; [assumption |].
    destruct (negb (mem Clause.eq [Literal.negate l] acc)); [| assumption].
    apply Forall_app. split; [assumption |].
    constructor; [apply unit_canonical | constructor].
Qed.

Lemma negated_query_well_formed (self : KnowledgeBase.t) (alpha : string) :
  well_formed alpha = true -> Forall Clause.canonical self ->
  exists clauses,
    KnowledgeBase.negated_query self alpha = Return clauses
    /\ Forall Clause.canonical clauses.
Proof. intros H Hs. now apply negated_query_loop. Qed.

Lemma good_concat (cs : list Clause.t) :
  Forall Clause.canonical cs -> Forall (good (List.concat cs)) cs.
Proof.
  intros H. rewrite Forall_forall in *. intros c Hc. split; [now apply H |].
  intros x Hx. apply in_concat. eauto.
Qed.

Lemma pl_resolution_halts_canonical (set_iter : list Clause.t -> list Clause.t)
      (self : KnowledgeBase.t) (alpha : string) :
  (forall s, Permutation (set_iter s) s) ->
  Forall Clause.canonical self -> well_formed alpha = true ->
  exists fuel b trace,
    KnowledgeBase.pl_resolution set_iter fuel self alpha = Return (b, trace).
Proof.
  intros Hperm Hself Halpha.
  destruct (@negated_query_well_formed self alpha Halpha Hself) as [cs [Hcs Hcan]].
  pose (L := List.concat cs).
  pose proof (good_concat Hcan) as Hgood. fold L in Hgood.
  exists (S (List.length (universe L))).
  unfold KnowledgeBase.pl_resolution. rewrite Hcs. cbv beta iota delta [bind].
  apply saturate_halts with (L := L); [assumption | | |].
  - now apply (@NoDup_pyset_good L).
  - unfold pyset. apply Forall_update; [constructor | assumption].
  - lia.
Qed.

(** C1. On a knowledge base built from well-formed clause texts and a
    well-formed query, [pl_resolution] halts: with enough fuel the loop
    returns a verdict and a trace, whatever the order in which the working
    set is iterated. *)
Theorem pl_resolution_halts (set_iter : list Clause.t -> list Clause.t)
        (premises : list string) (alpha : string) :
  (forall s, Permutation (set_iter s) s) ->
  forallb well_formed premises = true -> well_formed alpha = true ->
  exists kb,
    KnowledgeBase.parse premises = Return kb /\
    exists fuel b trace,
      KnowledgeBase.pl_resolution set_iter fuel kb alpha = Return (b, trace).
Proof.
  intros Hperm Hprem Halpha.
  destruct (@KnowledgeBase_parse_well_formed premises Hprem) as [kb [Hkb Hcan]].
  exists kb. split; [assumption |].
  now apply pl_resolution_halts_canonical.
Qed.

Lemma pl_resolution_halts_witness :
  exists kb,
    KnowledgeBase.parse ["-A OR B"; "-B OR C"; "A"] = Return kb /\
    exists fuel b trace,
      KnowledgeBase.pl_resolution (fun s => s) fuel kb "C OR D" = Return (b, trace).
Proof.
  apply (@pl_resolution_halts (fun s => s) ["-A OR B"; "-B OR C"; "A"] "C OR D").
  - intros s. apply Permutation_refl.
  - reflexivity.
  - reflexivity.
Defined.

(** C5. A round that derives no empty clause and whose resolvents are all
    in the working set ends the loop: the verdict is false, and the trace
    gets a last, empty, entry.  The working set is one of canonical
    clauses, as in every round of a run on a parsed base: there the test
    of inclusion by [==] is the test of Python's sets, which ask the hash
    first ([issubset_same_canonical]). *)
Theorem saturation_reports_not_entailed
        (set_iter : list Clause.t -> list Clause.t) (fuel : nat)
        (clauses : list Clause.t) (output : list (list Clause.t)) :
  Forall Clause.canonical clauses ->
  snd (KnowledgeBase.resolve_all (set_iter clauses) ([], false)) = false ->
  issubset Clause.eq
           (fst (KnowledgeBase.resolve_all (set_iter clauses) ([], false)))
           clauses = true ->
  KnowledgeBase.saturate set_iter (S fuel) clauses output false
  = Return (false, output ++ [[]]).
Proof.
  intros _ Hflag Hsub. simpl.
  destruct (KnowledgeBase.resolve_all (set_iter clauses) ([], false))
    as [new_clauses unsat].
  simpl in Hflag, Hsub. subst unsat. rewrite Hsub.
  now rewrite (difference_subset _ _ _ Hsub).
Qed.

Lemma saturation_reports_not_entailed_witness :
  KnowledgeBase.saturate
    (fun s => s) 1
    [[Literal.mk "A" false; Literal.mk "B" false];
     [Literal.mk "A" true]; [Literal.mk "B" false]] [] false
  = Return (false, [[]]).
Proof.
  apply (@saturation_reports_not_entailed
           (fun s => s) 0
           [[Literal.mk "A" false; Literal.mk "B" false];
            [Literal.mk "A" true]; [Literal.mk "B" false]] []);
    [repeat constructor | reflexivity | reflexivity].
Defined.

(** ** The verdict does not depend on the order of iteration *)

Section OrderIrrelevant.

Variables set_iter1 set_iter2 : list Clause.t -> list Clause.t.
Hypothesis perm1 : forall s, Permutation (set_iter1 s) s.
Hypothesis perm2 : forall s, Permutation (set_iter2 s) s.
Variable L : list Literal.t.

Lemma saturate_order_irrelevant (fuel : nat) :
  forall (W1 W2 : list Clause.t) (out1 out2 : list (list Clause.t))
         (b : bool) (trace : list (list Clause.t)),
    Forall (good L) W1 -> Forall (good L) W2 ->
    (forall c, In c W1 <-> In c W2) ->
    KnowledgeBase.saturate set_iter1 fuel W1 out1 false = Return (b, trace) ->
    exists trace',
      KnowledgeBase.saturate set_iter2 fuel W2 out2 false = Return (b, trace').
Proof.
  induction fuel as [| fuel IH]; intros W1 W2 out1 out2 b trace H1 H2 Hsame;
    simpl; [discriminate |].
  pose proof (@round_flag _ perm1 W1) as Hf1.
  pose proof (@round_flag _ perm2 W2) as Hf2.
  pose proof (@round_good _ perm1 L W1 H1) as Hg1.
  pose proof (@round_good _ perm2 L W2 H2) as Hg2.
  pose proof (fun c => @round_new _ perm1 L W1 c H1) as Hn1.
  pose proof (fun c => @round_new _ perm2 L W2 c H2) as Hn2.
  destruct (KnowledgeBase.resolve_all (set_iter1 W1) ([], false)) as [new1 u1].
  destruct (KnowledgeBase.resolve_all (set_iter2 W2) ([], false)) as [new2 u2].
  simpl in *.
  rewrite (derives_empty_same _ _ Hsame) in Hf1. subst u1 u2.
  destruct (derives_empty W2) eqn:He.
  - intros H. injection H as <- _. eauto.
  - rewrite (derives_empty_same _ _ Hsame) in Hn1.
    assert (Hnew : forall c, In c new1 <-> In c new2).
    { intros c. rewrite (Hn1 c He), (Hn2 c Logic.eq_refl).
      now apply resolvent_of_same. }
    assert (Hsub : issubset Clause.eq new1 W1 = issubset Clause.eq new2 W2).
    { apply bool_eq_iff.
      rewrite (issubset_incl_good Hg1 H1), (issubset_incl_good Hg2 H2).
      unfold incl. split; intros H c Hc.
      - apply Hsame, H, Hnew, Hc.
      - apply Hsame, H, Hnew, Hc. }
    rewrite Hsub. destruct (issubset Clause.eq new2 W2).
    + intros H. injection H as <- _. eauto.
    + apply IH; try (apply Forall_update; assumption).
      intros c. rewrite !(@In_update_good L) by assumption.
      rewrite Hsame, Hnew. tauto.
Qed.

End OrderIrrelevant.

(** ** Scenario: modus ponens *)

(** C6. From the premises [A OR B] and [-A], the query [B] is entailed:
    [pl_resolution] answers true, whatever the order in which the working
    set is iterated. *)
Theorem modus_ponens_entailed (set_iter : list Clause.t -> list Clause.t) :
  (forall s, Permutation (set_iter s) s) ->
  exists kb,
    KnowledgeBase.parse ["A OR B"; "-A"] = Return kb /\
    exists fuel trace,
      KnowledgeBase.pl_resolution set_iter fuel kb "B" = Return (true, trace).
Proof.
  intros Hperm.
  exists [[Literal.mk "A" false; Literal.mk "B" false]; [Literal.mk "A" true]].
  split; [reflexivity |]. exists 2.
  unfold KnowledgeBase.pl_resolution.
  set (W := [[Literal.mk "A" false; Literal.mk "B" false];
             [Literal.mk "A" true]; [Literal.mk "B" true]]).
  change (exists trace,
             KnowledgeBase.saturate set_iter 2 W [] false = Return (true, trace)).
  assert (HW : Forall (good (List.concat W)) W).
  { apply good_concat. repeat constructor. }
  eapply (@saturate_order_irrelevant (fun s => s) set_iter
            (fun s => Permutation_refl s) Hperm (List.concat W) 2 W W [] []);
    [exact HW | exact HW | tauto |].
  vm_compute. reflexivity.
Qed.

Lemma modus_ponens_entailed_witness :
  exists kb,
    KnowledgeBase.parse ["A OR B"; "-A"] = Return kb /\
    exists fuel trace,
      KnowledgeBase.pl_resolution (@rev Clause.t) fuel kb "B" = Return (true, trace).
Proof.
  apply (@modus_ponens_entailed (@rev Clause.t)).
  intros s. apply Permutation_sym, Permutation_rev.
Defined.

(** ** What [pl_resolution] leaves untouched *)

Lemma extends_refl (st : Store.t) : extends st st.
Proof. repeat split; exists []; now rewrite app_nil_r. Qed.

Lemma upd_app_ge (A : Type) (f : A -> A) (a b : list A) (i : nat) :
  List.length a <= i -> Store.upd i f (a ++ b) = a ++ Store.upd (i - List.length a) f b.
Proof.
  revert i. induction a as [| x a IH]; intros i Hi; simpl.
  - now rewrite Nat.sub_0_r.
  - destruct i as [| i]; simpl in *; [lia |]. rewrite IH by lia. reflexivity.
Qed.

Section Frame.

Variable base : Store.t.

Lemma frame_ret (A : Type) (Q : A -> Prop) (a : A) :
  Q a -> frame base Q (Store.ret a).
Proof. intros HQ st a' st' Hext H. injection H as <- <-. auto. Qed.

Lemma frame_read (A : Type) (f : Store.t -> A) :
  frame base (fun _ => True) (Store.read f).
Proof. intros st a st' Hext H. injection H as _ <-. auto. Qed.

Lemma frame_raise (A : Type) (Q : A -> Prop) : frame base Q Store.raise.
Proof. intros st a st' _ H. discriminate. Qed.

Lemma frame_bind (A B : Type) (Q : A -> Prop) (R : B -> Prop)
      (m : Store.M A) (k : A -> Store.M B) :
  frame base Q m -> (forall a, Q a -> frame base R (k a)) ->
  frame base R (Store.bind m k).
Proof.
  intros Hm Hk st b st' Hext. unfold Store.bind.
  destruct (m st) as [[a st1] | |] eqn:E; try discriminate.
  destruct (Hm _ _ _ Hext E) as [Hext1 HQ].
  now apply Hk.
Qed.

Lemma frame_weaken (A : Type) (Q R : A -> Prop) (m : Store.M A) :
  frame base Q m -> (forall a, Q a -> R a) -> frame base R m.
Proof.
  intros Hm HQR st a st' Hext H. destruct (Hm _ _ _ Hext H). auto.
Qed.

Lemma frame_for_each (A S : Type) (I : S -> Prop) (f : S -> A -> Store.M S)
      (xs : list A) :
  (forall s x, I s -> frame base I (f s x)) ->
  forall s, I s -> frame base I (Store.for_each f xs s).
Proof.
  intros Hf. induction xs as [| x xs IH]; intros s Hs; simpl.
  - now apply frame_ret.
  - apply frame_bind with (Q := I); auto.
Qed.

(** *** Allocation: the new object is not one of [base] *)

Lemma frame_Literal_new (symbol : string) (negated : bool) :
  frame base (fresh_literal base) (LiteralObj.new symbol negated).
Proof.
  intros st a st' [[l Hl] [Hc Hk]] H. injection H as <- <-.
  unfold extends, fresh_literal. simpl. rewrite Hl. repeat split; trivial.
  - exists (l ++ [Literal.mk symbol negated]). now rewrite app_assoc.
  - rewrite length_app. lia.
Qed.

Lemma frame_Clause_new : frame base (fresh_clause base) ClauseObj.new.
Proof.
  intros st a st' [Hl [[l Hc] Hk]] H. injection H as <- <-.
  unfold extends, fresh_clause. simpl. rewrite Hc. repeat split; trivial.
  - exists (l ++ [[]]). now rewrite app_assoc.
  - rewrite length_app. lia.
Qed.

Lemma frame_list_copy (k : Store.ref) :
  frame base (fresh_list base) (KnowledgeBaseObj.list_copy k).
Proof.
  intros st a st' [Hl [Hc [l Hk]]] H. injection H as <- <-.
  unfold extends, fresh_list. simpl. repeat split; trivial.
  - exists (l ++ [Store.list_at st k]). rewrite Hk at 1. now rewrite app_assoc.
  - rewrite Hk, length_app. lia.
Qed.

(** *** Mutation: of objects that are not in [base] *)

Lemma frame_negate (r : Store.ref) :
  (fresh_literal base) r -> frame base (fun _ => True) (LiteralObj.negate r).
Proof.
  intros Hr st a st' [[l Hl] [Hc Hk]] H. injection H as _ <-.
  unfold extends. simpl. repeat split; trivial.
  rewrite Hl, upd_app_ge by exact Hr. eauto.
Qed.

Lemma frame_set_literals (c : Store.ref) (ls : list Store.ref) :
  (fresh_clause base) c -> frame base (fun _ => True) (ClauseObj.set_literals c ls).
Proof.
  intros Hr st a st' [Hl [[l Hc] Hk]] H. injection H as _ <-.
  unfold extends. simpl. repeat split; trivial.
  rewrite Hc, upd_app_ge by exact Hr. eauto.
Qed.

Lemma frame_add_literal (c literal : Store.ref) :
  (fresh_clause base) c -> frame base (fun _ => True) (ClauseObj.add_literal c literal).
Proof.
  intros Hr st a st' [Hl [[l Hc] Hk]] H. injection H as _ <-.
  unfold extends. simpl. repeat split; trivial.
  rewrite Hc, upd_app_ge by exact Hr. eauto.
Qed.

Lemma frame_list_append (k clause : Store.ref) :
  (fresh_list base) k -> frame base (fun _ => True) (KnowledgeBaseObj.list_append k clause).
Proof.
  intros Hr st a st' [Hl [Hc [l Hk]]] H. injection H as _ <-.
  unfold extends. simpl. repeat split; trivial.
  rewrite Hk, upd_app_ge by exact Hr. eauto.
Qed.

(** *** The methods *)

Lemma frame_char_at (s : string) (i : nat) :
  frame base (fun _ => True) (LiteralObj.char_at s i).
Proof.
  unfold LiteralObj.char_at. destruct (String.get i s).
  - now apply frame_ret.
  - apply frame_raise.
Qed.

Lemma frame_Literal_parse (s : string) :
  frame base (fresh_literal base) (LiteralObj.parse s).
Proof.
  unfold LiteralObj.parse. bind_with frame_bind frame_char_at.
  destruct (String.eqb a "-"); bind_with frame_bind frame_char_at;
    apply frame_Literal_new.
Qed.

Lemma frame_refactor (c : Store.ref) :
  (fresh_clause base) c -> frame base (fun _ => True) (ClauseObj.refactor c).
Proof.
  intros Hc. unfold ClauseObj.refactor. bind_with frame_bind frame_read.
  now apply frame_set_literals.
Qed.

Lemma frame_merge (a b : Store.ref) :
  frame base (fresh_clause base) (ClauseObj.merge a b).
Proof.
  unfold ClauseObj.merge. bind_with frame_bind frame_Clause_new.
  bind_with frame_bind frame_read.
  eapply frame_bind; [now apply frame_set_literals | intros _ _].
  eapply frame_bind; [now apply frame_refactor | intros _ _].
  now apply frame_ret.
Qed.

Lemma frame_clone_without (c literal : Store.ref) :
  frame base (fresh_clause base) (ClauseObj.clone_without c literal).
Proof.
  unfold ClauseObj.clone_without. bind_with frame_bind frame_Clause_new.
  bind_with frame_bind frame_read.
  eapply frame_bind with (Q := fun _ => True).
  - apply frame_for_each; [| exact I]. intros _ l _.
    bind_with frame_bind frame_read.
    destruct (negb a1); [now apply frame_add_literal | now apply frame_ret].
  - intros _ _. eapply frame_bind; [now apply frame_refactor | intros _ _].
    now apply frame_ret.
Qed.

Lemma frame_Clause_parse (s : string) :
  frame base (fresh_clause base) (ClauseObj.parse s).
Proof.
  unfold ClauseObj.parse. bind_with frame_bind frame_Clause_new.
  eapply frame_bind with (Q := fun _ => True).
  - apply frame_for_each; [| exact I]. intros _ piece _.
    bind_with frame_bind frame_Literal_parse. now apply frame_add_literal.
  - intros _ _. eapply frame_bind; [now apply frame_refactor | intros _ _].
    now apply frame_ret.
Qed.

Lemma frame_resolve_pair (self other : Store.ref) (acc : list Store.ref * bool)
      (l1 l2 : Store.ref) :
  frame base (fun _ => True) (ClauseObj.resolve_pair self other acc l1 l2).
Proof.
  unfold ClauseObj.resolve_pair. bind_with frame_bind frame_read.
  destruct a; [| now apply frame_ret].
  bind_with frame_bind frame_clone_without.
  bind_with frame_bind frame_clone_without.
  bind_with frame_bind frame_merge.
  bind_with frame_bind frame_read.
  destruct a2; [now apply frame_ret |].
  bind_with frame_bind frame_read. bind_with frame_bind frame_read.
  now apply frame_ret.
Qed.

Lemma frame_pl_resolve (self other : Store.ref) :
  frame base (fun _ => True) (ClauseObj.pl_resolve self other).
Proof.
  unfold ClauseObj.pl_resolve.
  bind_with frame_bind frame_read. bind_with frame_bind frame_read.
  apply frame_for_each; [| exact I]. intros acc l1 _.
  apply frame_for_each; [| exact I]. intros acc' l2 _.
  apply frame_resolve_pair.
Qed.

Lemma frame_resolve_with (clause1 : Store.ref) (clauses : list Store.ref) :
  forall acc, frame base (fun _ => True)
                    (KnowledgeBaseObj.resolve_with clause1 clauses acc).
Proof.
  induction clauses as [| clause2 rest IH]; intros acc; simpl.
  - now apply frame_ret.
  - bind_with frame_bind frame_pl_resolve. bind_with frame_bind frame_read.
    destruct (snd a); [now apply frame_ret | apply IH].
Qed.

Lemma frame_resolve_all (clauses : list Store.ref) (acc : list Store.ref * bool) :
  frame base (fun _ => True) (KnowledgeBaseObj.resolve_all clauses acc).
Proof.
  unfold KnowledgeBaseObj.resolve_all.
  apply frame_for_each; [| exact I]. intros acc' c1 _.
  apply frame_resolve_with.
Qed.

Lemma frame_saturate (set_iter : list Store.ref -> list Store.ref) (fuel : nat) :
  forall clauses output unsat,
    frame base (fun _ => True)
          (KnowledgeBaseObj.saturate set_iter fuel clauses output unsat).
Proof.
  induction fuel as [| fuel IH]; intros clauses output unsat; simpl.
  - intros st a st' _ H. discriminate.
  - bind_with frame_bind frame_resolve_all. bind_with frame_bind frame_read.
    destruct (snd a); [now apply frame_ret |].
    bind_with frame_bind frame_read.
    destruct a1; [now apply frame_ret |].
    bind_with frame_bind frame_read. apply IH.
Qed.

Lemma frame_negated_query (self : Store.ref) (alpha : string) :
  frame base (fresh_list base) (KnowledgeBaseObj.negated_query self alpha).
Proof.
  unfold KnowledgeBaseObj.negated_query. bind_with frame_bind frame_list_copy.
  eapply frame_bind with (Q := fun _ => True).
  - apply frame_for_each; [| exact I]. intros _ piece _.
    bind_with frame_bind frame_Literal_parse.
    eapply frame_bind; [now apply frame_negate | intros _ _].
    bind_with frame_bind frame_Clause_new.
    eapply frame_bind; [now apply frame_add_literal | intros _ _].
    bind_with frame_bind frame_read.
    destruct (negb a2); [now apply frame_list_append | now apply frame_ret].
  - intros _ _. now apply frame_ret.
Qed.

Lemma frame_pl_resolution (set_iter : list Store.ref -> list Store.ref)
      (fuel : nat) (self : Store.ref) (alpha : string) :
  frame base (fun _ => True)
        (KnowledgeBaseObj.pl_resolution set_iter fuel self alpha).
Proof.
  unfold KnowledgeBaseObj.pl_resolution.
  bind_with frame_bind frame_negated_query. bind_with frame_bind frame_read.
  apply frame_saturate.
Qed.

End Frame.

Lemma extends_list_at (base st : Store.t) (k : Store.ref) :
  extends base st -> k < List.length (Store.lists base) ->
  Store.list_at st k = Store.list_at base k.
Proof.
  intros [_ [_ [l Hl]]] Hk. unfold Store.list_at. rewrite Hl. now apply app_nth1.
Qed.

Lemma extends_clause_at (base st : Store.t) (c : Store.ref) :
  extends base st -> c < List.length (Store.clauses base) ->
  Store.clause_at st c = Store.clause_at base c.
Proof.
  intros [_ [[l Hl] _]] Hc. unfold Store.clause_at. rewrite Hl. now apply app_nth1.
Qed.

Lemma extends_literal_at (base st : Store.t) (r : Store.ref) :
  extends base st -> r < List.length (Store.literals base) ->
  Store.literal_at st r = Store.literal_at base r.
Proof.
  intros [[l Hl] _] Hr. unfold Store.literal_at. rewrite Hl. now apply app_nth1.
Qed.

Lemma extends_list_value (base st : Store.t) (self : Store.ref) :
  extends base st -> kb_in_store base self ->
  Store.list_value st self = Store.list_value base self.
Proof.
  intros Hext [Hself Hcs]. unfold Store.list_value.
  rewrite (extends_list_at Hext Hself). apply map_ext_in.
  intros c Hc. rewrite Forall_forall in Hcs. destruct (Hcs c Hc) as [Hlt Hls].
  unfold Store.clause_value. rewrite (extends_clause_at Hext Hlt).
  apply map_ext_in. intros r Hr. rewrite Forall_forall in Hls.
  apply (extends_literal_at Hext). now apply Hls.
Qed.

Lemma pl_resolution_frame_kb (set_iter : list Store.ref -> list Store.ref)
      (fuel : nat) (self : Store.ref) (alpha : string)
      (st st' : Store.t) (r : bool * list (list Store.ref)) :
  kb_in_store st self ->
  KnowledgeBaseObj.pl_resolution set_iter fuel self alpha st = Return (r, st') ->
  extends st st' /\
  Store.list_at st' self = Store.list_at st self /\
  Store.list_value st' self = Store.list_value st self.
Proof.
  intros Hkb Hrun.
  destruct (@frame_pl_resolution st set_iter fuel self alpha st r st'
              (extends_refl st) Hrun) as [Hext _].
  split; [assumption |]. split.
  - apply extends_list_at; [assumption | apply Hkb].
  - now apply extends_list_value.
Qed.

(** C9. [pl_resolution] does not mutate the knowledge base it is called
    on: when it returns, every object that was in the store is there
    unchanged; the list [self.clauses] holds the same clause objects, and
    they have the same literals. *)
Theorem pl_resolution_leaves_kb (set_iter : list Store.ref -> list Store.ref)
        (fuel : nat) (self : Store.ref) (alpha : string)
        (st st' : Store.t) (r : bool * list (list Store.ref)) :
  kb_in_store st self ->
  KnowledgeBaseObj.pl_resolution set_iter fuel self alpha st = Return (r, st') ->
  extends st st' /\
  Store.list_at st' self = Store.list_at st self /\
  Store.list_value st' self = Store.list_value st self.
Proof. apply pl_resolution_frame_kb. Qed.

Lemma pl_resolution_leaves_kb_witness :
  kb_in_store modus_ponens_store 0 /\
  extends modus_ponens_store modus_ponens_store_after /\
  Store.list_at modus_ponens_store_after 0 = [0; 1] /\
  Store.list_value modus_ponens_store_after 0
  = [[Literal.mk "A" false; Literal.mk "B" false]; [Literal.mk "A" true]].
Proof.
  assert (Hkb : kb_in_store modus_ponens_store 0).
  { split; [vm_compute; lia |].
    repeat constructor; vm_compute; lia. }
  split; [exact Hkb |].
  apply (@pl_resolution_leaves_kb (fun s => s) 2 0 "B" modus_ponens_store
           modus_ponens_store_after (true, [[5; 8]; [26]]) Hkb).
  vm_compute. reflexivity.
Defined.

(** ** The store reading computes what the value reading computes *)

Unset Implicit Arguments.

(** Sets and sorting of references, compared through the objects they
    designate, are sets and sorting of the objects. *)

Section MapFacts.

Variables A B : Type.
Variable f : A -> B.
Variable eqb : B -> B -> bool.
Variable eqb' : A -> A -> bool.
Hypothesis eqb'_spec : forall a b, eqb' a b = eqb (f a) (f b).

Lemma mem_map (x : A) (s : list A) : mem eqb' x s = mem eqb (f x) (map f s).
Proof.
  unfold mem. induction s as [| y s IH]; simpl; [reflexivity |].
  now rewrite IH, eqb'_spec.
Qed.

Lemma add_map (s : list A) (x : A) :
  map f (add eqb' s x) = add eqb (map f s) (f x).
Proof.
  unfold add. rewrite mem_map. destruct (mem eqb (f x) (map f s)); [reflexivity |].
  now rewrite map_app.
Qed.

Lemma update_map (xs s : list A) :
  map f (update eqb' s xs) = update eqb (map f s) (map f xs).
Proof.
  unfold update. revert s. induction xs as [| x xs IH]; intros s; simpl.
  - reflexivity.
  - now rewrite IH, add_map.
Qed.

Lemma pyset_map (xs : list A) : map f (pyset eqb' xs) = pyset eqb (map f xs).
Proof. unfold pyset. now rewrite update_map. Qed.

Lemma issubset_map (s u : list A) :
  issubset eqb' s u = issubset eqb (map f s) (map f u).
Proof.
  unfold issubset. induction s as [| x s IH]; simpl; [reflexivity |].
  now rewrite IH, mem_map.
Qed.

Lemma difference_map (s u : list A) :
  map f (difference eqb' s u) = difference eqb (map f s) (map f u).
Proof.
  unfold difference. induction s as [| x s IH]; simpl; [reflexivity |].
  rewrite mem_map. destruct (mem eqb (f x) (map f u)); simpl; now rewrite IH.
Qed.

Lemma set_eq_map (s u : list A) :
  set_eq eqb' s u = set_eq eqb (map f s) (map f u).
Proof. unfold set_eq. now rewrite issubset_map, !length_map. Qed.

Lemma filter_map_on (p : B -> bool) (p' : A -> bool) (l : list A) :
  (forall a, p' a = p (f a)) -> map f (filter p' l) = filter p (map f l).
Proof.
  intros Hp. induction l as [| x l IH]; simpl; [reflexivity |].
  rewrite Hp. destruct (p (f x)); simpl; now rewrite IH.
Qed.

Variable ltb : B -> B -> bool.
Variable ltb' : A -> A -> bool.
Hypothesis ltb'_spec : forall a b, ltb' a b = ltb (f a) (f b).

Lemma insert_map (x : A) (l : list A) :
  map f (insert ltb' x l) = insert ltb (f x) (map f l).
Proof.
  induction l as [| y l IH]; simpl; [reflexivity |].
  rewrite ltb'_spec. destruct (ltb (f y) (f x)); simpl; now rewrite ?IH.
Qed.

Lemma sorted_map (l : list A) : map f (sorted ltb' l) = sorted ltb (map f l).
Proof.
  induction l as [| x l IH]; simpl; [reflexivity |].
  now rewrite insert_map, IH.
Qed.

End MapFacts.

Lemma In_update_weak (A : Type) (eqb : A -> A -> bool) (xs s : list A) (y : A) :
  In y (update eqb s xs) -> In y s \/ In y xs.
Proof.
  unfold update. revert s. induction xs as [| x xs IH]; intros s; simpl; [auto |].
  intros H. apply IH in H. destruct H as [H | H]; [| auto].
  unfold add in H. destruct (mem eqb x s); [auto |].
  apply in_app_or in H. destruct H as [H | [-> | []]]; auto.
Qed.

Lemma refactor_refs_value (st : Store.t) (ls : list Store.ref) :
  map (Store.literal_at st) (refactor_refs st ls)
  = Clause.refactor (map (Store.literal_at st) ls).
Proof.
  unfold refactor_refs, Clause.refactor.
  rewrite sorted_map with (ltb := Literal.lt) by reflexivity.
  now rewrite pyset_map with (eqb := Literal.eq) by reflexivity.
Qed.

Lemma ClauseObj_eq_value (st : Store.t) (a b : Store.ref) :
  ClauseObj.eq st a b = Clause.eq (Store.clause_value st a) (Store.clause_value st b).
Proof.
  unfold ClauseObj.eq, Clause.eq, Store.clause_value.
  rewrite set_eq_map with (f := Store.literal_at st) (eqb := Literal.eq)
    by reflexivity.
  now rewrite !pyset_map with (eqb := Literal.eq) by reflexivity.
Qed.

Lemma is_always_true_value (st : Store.t) (c : Store.ref) :
  ClauseObj.is_always_true st c = Clause.is_always_true (Store.clause_value st c).
Proof.
  unfold ClauseObj.is_always_true, Store.clause_value.
  induction (Store.clause_at st c) as [| x ls IH]; [reflexivity |].
  destruct ls as [| y ls]; [reflexivity |].
  change (ClauseObj.scan_always_true st (x :: y :: ls))
    with (if LiteralObj.is_complement st x y then true
          else ClauseObj.scan_always_true st (y :: ls)).
  rewrite IH. reflexivity.
Qed.

Lemma is_empty_value (st : Store.t) (c : Store.ref) :
  ClauseObj.is_empty st c = Clause.is_empty (Store.clause_value st c).
Proof.
  unfold ClauseObj.is_empty, Clause.is_empty, Store.clause_value.
  now rewrite length_map.
Qed.

(** *** Stores that only grow by clause objects *)

Lemma grown_nil (st : Store.t) : grown st [] = st.
Proof. destruct st. unfold grown. simpl. now rewrite app_nil_r. Qed.

Lemma grown_grown (st : Store.t) (l l' : list (list Store.ref)) :
  grown (grown st l) l' = grown st (l ++ l').
Proof. unfold grown. simpl. now rewrite app_assoc. Qed.

Lemma clause_at_grown (st : Store.t) (l : list (list Store.ref)) (c : Store.ref) :
  c < List.length (Store.clauses st) ->
  Store.clause_at (grown st l) c = Store.clause_at st c.
Proof. intros H. unfold Store.clause_at. simpl. now apply app_nth1. Qed.

Lemma clause_at_new (st : Store.t) (l : list (list Store.ref)) (x : list Store.ref) :
  Store.clause_at (grown st (l ++ [x])) (List.length (Store.clauses st) + List.length l)
  = x.
Proof.
  unfold Store.clause_at. simpl. rewrite app_assoc, <- length_app.
  apply nth_middle.
Qed.

Lemma clause_value_grown (st : Store.t) (l : list (list Store.ref)) (c : Store.ref) :
  c < List.length (Store.clauses st) ->
  Store.clause_value (grown st l) c = Store.clause_value st c.
Proof.
  intros H. unfold Store.clause_value. now rewrite clause_at_grown.
Qed.

Lemma map_clause_value_grown (st : Store.t) (l : list (list Store.ref))
      (cs : list Store.ref) :
  Forall (fun c => c < List.length (Store.clauses st)) cs ->
  map (Store.clause_value (grown st l)) cs = map (Store.clause_value st) cs.
Proof.
  intros H. apply map_ext_in. intros c Hc. rewrite Forall_forall in H.
  now apply clause_value_grown, H.
Qed.

Lemma length_grown (st : Store.t) (l : list (list Store.ref)) :
  List.length (Store.clauses (grown st l))
  = List.length (Store.clauses st) + List.length l.
Proof. simpl. apply length_app. Qed.

(** *** The methods that build clauses *)

Lemma bind_run (A B : Type) (m : Store.M A) (k : A -> Store.M B)
      (st st' : Store.t) (a : A) :
  m st = Return (a, st') -> Store.bind m k st = k a st'.
Proof. intros H. unfold Store.bind. now rewrite H. Qed.

Lemma upd_last (A : Type) (g : A -> A) (l : list A) (x : A) :
  Store.upd (List.length l) g (l ++ [x]) = l ++ [g x].
Proof. rewrite upd_app_ge by lia. now rewrite Nat.sub_diag. Qed.

Lemma Clause_new_run (st : Store.t) :
  ClauseObj.new st = Return (List.length (Store.clauses st), grown st [[]]).
Proof. reflexivity. Qed.

Lemma add_literal_run (st : Store.t) (acc : list Store.ref) (x : Store.ref) :
  ClauseObj.add_literal (List.length (Store.clauses st)) x (grown st [acc])
  = Return (tt, grown st [acc ++ [x]]).
Proof. unfold ClauseObj.add_literal, grown. simpl. now rewrite upd_last. Qed.

Lemma set_literals_run (st : Store.t) (acc ls : list Store.ref) :
  ClauseObj.set_literals (List.length (Store.clauses st)) ls (grown st [acc])
  = Return (tt, grown st [ls]).
Proof. unfold ClauseObj.set_literals, grown. simpl. now rewrite upd_last. Qed.

Lemma clause_at_last (st : Store.t) (x : list Store.ref) :
  Store.clause_at (grown st [x]) (List.length (Store.clauses st)) = x.
Proof. unfold Store.clause_at. simpl. apply nth_middle. Qed.

Lemma refactor_run (st : Store.t) (acc : list Store.ref) :
  ClauseObj.refactor (List.length (Store.clauses st)) (grown st [acc])
  = Return (tt, grown st [refactor_refs st acc]).
Proof.
  unfold ClauseObj.refactor.
  rewrite bind_run with (a := refactor_refs st acc) (st' := grown st [acc]).
  - apply set_literals_run.
  - unfold Store.read. now rewrite clause_at_last.
Qed.

Lemma clone_loop_run (st : Store.t) (literal : Store.ref) (ls acc : list Store.ref) :
  Store.for_each
    (fun (_ : unit) l =>
       same <~ Store.read (fun st' => LiteralObj.eq st' l literal) ;;
       if negb same
       then ClauseObj.add_literal (List.length (Store.clauses st)) l
       else Store.ret tt)
    ls tt (grown st [acc])
  = Return (tt, grown st [acc ++ filter (fun l => negb (LiteralObj.eq st l literal)) ls]).
Proof.
  revert acc. induction ls as [| x ls IH]; intros acc; simpl.
  - now rewrite app_nil_r.
  - unfold Store.bind at 1. unfold Store.bind at 1. unfold Store.read at 1.
    change (LiteralObj.eq (grown st [acc]) x literal) with (LiteralObj.eq st x literal).
    destruct (LiteralObj.eq st x literal); simpl.
    + apply IH.
    + rewrite upd_last.
      replace (acc ++ x :: filter (fun l => negb (LiteralObj.eq st l literal)) ls)
        with ((acc ++ [x]) ++ filter (fun l => negb (LiteralObj.eq st l literal)) ls)
        by (now rewrite <- app_assoc).
      apply IH.
Qed.

Lemma clone_without_run (st : Store.t) (c literal : Store.ref) :
  c < List.length (Store.clauses st) ->
  ClauseObj.clone_without c literal st
  = Return (List.length (Store.clauses st),
            grown st [refactor_refs st
                        (filter (fun l => negb (LiteralObj.eq st l literal))
                                (Store.clause_at st c))]).
Proof.
  intros Hc. unfold ClauseObj.clone_without.
  rewrite bind_run with (1 := Clause_new_run st).
  unfold Store.bind at 1. unfold Store.read at 1.
  rewrite clause_at_grown by assumption.
  unfold Store.bind at 1. rewrite clone_loop_run. simpl app.
  unfold Store.bind at 1. rewrite refactor_run. reflexivity.
Qed.

Lemma merge_run (st : Store.t) (a b : Store.ref) :
  a < List.length (Store.clauses st) -> b < List.length (Store.clauses st) ->
  ClauseObj.merge a b st
  = Return (List.length (Store.clauses st),
            grown st [refactor_refs st (Store.clause_at st a ++ Store.clause_at st b)]).
Proof.
  intros Ha Hb. unfold ClauseObj.merge.
  rewrite bind_run with (1 := Clause_new_run st).
  unfold Store.bind at 1. unfold Store.read at 1.
  rewrite !clause_at_grown by assumption.
  unfold Store.bind at 1. rewrite set_literals_run.
  unfold Store.bind at 1. rewrite refactor_run. reflexivity.
Qed.

Lemma clone_without_value (st : Store.t) (c literal : Store.ref) :
  map (Store.literal_at st)
      (refactor_refs st (filter (fun l => negb (LiteralObj.eq st l literal))
                                (Store.clause_at st c)))
  = Clause.clone_without (Store.clause_value st c) (Store.literal_at st literal).
Proof.
  rewrite refactor_refs_value. unfold Clause.clone_without, Store.clause_value.
  f_equal. now apply filter_map_on.
Qed.

Lemma clause_at_grown_new (st : Store.t) (l : list (list Store.ref)) (i : nat) :
  Store.clause_at (grown st l) (List.length (Store.clauses st) + i) = nth i l [].
Proof. unfold Store.clause_at. simpl. apply app_nth2_plus. Qed.

Lemma resolvent_value (st : Store.t) (a b l1 l2 : Store.ref) :
  let ca := refactor_refs st (filter (fun l => negb (LiteralObj.eq st l l1))
                                     (Store.clause_at st a)) in
  let cb := refactor_refs st (filter (fun l => negb (LiteralObj.eq st l l2))
                                     (Store.clause_at st b)) in
  map (Store.literal_at st) (refactor_refs st (ca ++ cb))
  = Clause.merge
      (Clause.clone_without (Store.clause_value st a) (Store.literal_at st l1))
      (Clause.clone_without (Store.clause_value st b) (Store.literal_at st l2)).
Proof.
  intros ca cb. rewrite refactor_refs_value, map_app. unfold ca, cb.
  now rewrite !clone_without_value.
Qed.

Lemma resolve_pair_run (st : Store.t) (a b : Store.ref)
      (acc : list Store.ref * bool) (l1 l2 : Store.ref) :
  a < List.length (Store.clauses st) -> b < List.length (Store.clauses st) ->
  Forall (fun c => c < List.length (Store.clauses st)) (fst acc) ->
  exists l acc',
    ClauseObj.resolve_pair a b acc l1 l2 st = Return (acc', grown st l) /\
    Forall (fun c => c < List.length (Store.clauses st) + List.length l) (fst acc') /\
    (map (Store.clause_value (grown st l)) (fst acc'), snd acc')
    = Clause.resolve_pair (Store.clause_value st a) (Store.clause_value st b)
                          (map (Store.clause_value st) (fst acc), snd acc)
                          (Store.literal_at st l1) (Store.literal_at st l2).
Proof.
  intros Ha Hb Hacc. unfold ClauseObj.resolve_pair, Clause.resolve_pair.
  step_read.
  change (LiteralObj.is_complement st l1 l2)
    with (Literal.is_complement (Store.literal_at st l1) (Store.literal_at st l2)).
  destruct (Literal.is_complement (Store.literal_at st l1) (Store.literal_at st l2)).
  - set (n := List.length (Store.clauses st)) in *.
    set (ca := refactor_refs st (filter (fun l => negb (LiteralObj.eq st l l1))
                                        (Store.clause_at st a))).
    set (cb := refactor_refs st (filter (fun l => negb (LiteralObj.eq st l l2))
                                        (Store.clause_at st b))).
    set (r := refactor_refs st (ca ++ cb)).
    assert (Hrun : forall (B : Type) (k : Store.ref -> Store.M B),
               (clause1 <~ ClauseObj.clone_without a l1 ;;
                clause2 <~ ClauseObj.clone_without b l2 ;;
                resolvent <~ ClauseObj.merge clause1 clause2 ;;
                k resolvent) st
               = k (n + 2) (grown st [ca; cb; r])).
    { intros B k.
      rewrite bind_run with (1 := clone_without_run st a l1 Ha). fold n ca.
      assert (Hb' : b < List.length (Store.clauses (grown st [ca])))
        by (rewrite length_grown; lia).
      rewrite bind_run with (1 := clone_without_run _ b l2 Hb').
      rewrite (clause_at_grown st [ca] b Hb). rewrite grown_grown, length_grown.
      simpl app. simpl List.length.
      change (refactor_refs (grown st [ca])) with (refactor_refs st). fold cb.
      change (fun l => negb (LiteralObj.eq (grown st [ca]) l l2))
        with (fun l => negb (LiteralObj.eq st l l2)). fold cb.
      assert (H1 : n + 1 < List.length (Store.clauses (grown st [ca; cb])))
        by (rewrite length_grown; simpl; fold n; lia).
      assert (H0 : n < List.length (Store.clauses (grown st [ca; cb])))
        by (rewrite length_grown; simpl; fold n; lia).
      rewrite bind_run with (1 := merge_run _ _ _ H0 H1).
      rewrite grown_grown, length_grown. simpl app. simpl List.length. fold n.
      replace (Store.clause_at (grown st [ca; cb]) n) with ca
        by (symmetry; rewrite <- (Nat.add_0_r n);
            apply (clause_at_grown_new st [ca; cb] 0)).
      replace (Store.clause_at (grown st [ca; cb]) (n + 1)) with cb
        by (symmetry; apply (clause_at_grown_new st [ca; cb] 1)).
      reflexivity. }
    rewrite Hrun. clear Hrun.
    assert (Hv : Store.clause_value (grown st [ca; cb; r]) (n + 2)
                 = Clause.merge
                     (Clause.clone_without (Store.clause_value st a)
                                           (Store.literal_at st l1))
                     (Clause.clone_without (Store.clause_value st b)
                                           (Store.literal_at st l2))).
    { unfold Store.clause_value.
      replace (Store.clause_at (grown st [ca; cb; r]) (n + 2)) with r
        by (symmetry; apply (clause_at_grown_new st [ca; cb; r] 2)).
      exact (resolvent_value st a b l1 l2). }
    step_read. rewrite is_always_true_value, Hv.
    destruct (Clause.is_always_true _).
    + exists [ca; cb; r], acc. split; [reflexivity |]. split.
      * eapply Forall_impl; [| exact Hacc]. simpl. intros c Hc. fold n in Hc. lia.
      * now rewrite map_clause_value_grown.
    + step_read. step_read. rewrite is_empty_value, Hv.
      exists [ca; cb; r]. eexists. split; [reflexivity |]. simpl fst. simpl snd.
      split.
      * apply Forall_add; [| simpl; lia].
        eapply Forall_impl; [| exact Hacc]. simpl. intros c Hc. fold n in Hc. lia.
      * rewrite add_map with (eqb := Clause.eq)
          by (intros; apply ClauseObj_eq_value).
        rewrite Hv. now rewrite map_clause_value_grown.
  - exists [], acc. rewrite grown_nil, Nat.add_0_r. simpl. auto.
Qed.

Lemma valid_refs_grown (st : Store.t) (l : list (list Store.ref))
      (cs : list Store.ref) :
  valid_refs st cs -> valid_refs (grown st l) cs.
Proof.
  unfold valid_refs. intros H. eapply Forall_impl; [| exact H].
  intros c Hc. cbv beta in Hc. rewrite length_grown. lia.
Qed.

Lemma acc_value_grown (st : Store.t) (l : list (list Store.ref))
      (acc : list Store.ref * bool) :
  valid_refs st (fst acc) -> acc_value (grown st l) acc = acc_value st acc.
Proof.
  intros H. unfold acc_value. now rewrite map_clause_value_grown.
Qed.

Lemma resolve_pair_refines (st : Store.t) (a b : Store.ref)
      (acc : list Store.ref * bool) (l1 l2 : Store.ref) :
  a < List.length (Store.clauses st) -> b < List.length (Store.clauses st) ->
  valid_refs st (fst acc) ->
  exists l acc',
    ClauseObj.resolve_pair a b acc l1 l2 st = Return (acc', grown st l) /\
    valid_refs (grown st l) (fst acc') /\
    acc_value (grown st l) acc'
    = Clause.resolve_pair (Store.clause_value st a) (Store.clause_value st b)
                          (acc_value st acc)
                          (Store.literal_at st l1) (Store.literal_at st l2).
Proof.
  intros Ha Hb Hacc.
  destruct (resolve_pair_run st a b acc l1 l2 Ha Hb Hacc) as [l [acc' [H1 [H2 H3]]]].
  exists l, acc'. split; [assumption |]. split; [| assumption].
  unfold valid_refs. eapply Forall_impl; [| exact H2].
  intros c Hc. rewrite length_grown. exact Hc.
Qed.

(** *** Loops that only allocate clause objects *)

Section GrowLoop.

Variables S A S' A' : Type.
Variable f : S -> A -> Store.M S.
Variable g : S' -> A' -> S'.
Variable abs : Store.t -> S -> S'.
Variable elt : Store.t -> A -> A'.
Variable ok : Store.t -> S -> Prop.
Variable okx : Store.t -> A -> Prop.
Variable pre : Store.t -> Prop.

Hypothesis pre_grown : forall st l, pre st -> pre (grown st l).
Hypothesis okx_grown : forall st l x, okx st x -> okx (grown st l) x.
Hypothesis elt_grown : forall st l x, okx st x -> elt (grown st l) x = elt st x.
Hypothesis step :
  forall st s x, pre st -> ok st s -> okx st x ->
    exists l s',
      f s x st = Return (s', grown st l) /\ ok (grown st l) s' /\
      abs (grown st l) s' = g (abs st s) (elt st x).

Lemma for_each_refines (xs : list A) :
  forall st s, pre st -> ok st s -> Forall (okx st) xs ->
    exists l s',
      Store.for_each f xs s st = Return (s', grown st l) /\ ok (grown st l) s' /\
      abs (grown st l) s' = fold_left g (map (elt st) xs) (abs st s).
Proof.
  induction xs as [| x xs IH]; intros st s Hpre Hok Hxs; simpl.
  - exists [], s. now rewrite grown_nil.
  - apply Forall_cons_iff in Hxs. destruct Hxs as [Hx Hxs].
    destruct (step st s x Hpre Hok Hx) as [l [s1 [Hrun [Hok1 Habs1]]]].
    assert (Hxs1 : Forall (okx (grown st l)) xs).
    { eapply Forall_impl; [| exact Hxs]. intros y. apply okx_grown. }
    destruct (IH (grown st l) s1 (pre_grown st l Hpre) Hok1 Hxs1)
      as [l' [s2 [Hrun2 [Hok2 Habs2]]]].
    exists (l ++ l'), s2. rewrite <- grown_grown.
    split; [| split; [assumption |]].
    + rewrite bind_run with (1 := Hrun). exact Hrun2.
    + rewrite Habs2, Habs1. f_equal. apply map_ext_in.
      intros y Hy. apply elt_grown. rewrite Forall_forall in Hxs. now apply Hxs.
Qed.

End GrowLoop.

Lemma pl_resolve_refines (st : Store.t) (a b : Store.ref) :
  a < List.length (Store.clauses st) -> b < List.length (Store.clauses st) ->
  exists l rs,
    ClauseObj.pl_resolve a b st = Return (rs, grown st l) /\
    valid_refs (grown st l) (fst rs) /\
    acc_value (grown st l) rs
    = Clause.pl_resolve (Store.clause_value st a) (Store.clause_value st b).
Proof.
  intros Ha Hb. unfold ClauseObj.pl_resolve, Clause.pl_resolve.
  step_read. step_read.
  set (A0 := Store.clause_value st a). set (B0 := Store.clause_value st b).
  set (ls2 := Store.clause_at st b).
  pose (pre := fun st' : Store.t =>
                 a < List.length (Store.clauses st') /\
                 b < List.length (Store.clauses st') /\
                 Store.clause_value st' a = A0 /\ Store.clause_value st' b = B0 /\
                 Store.literals st' = Store.literals st).
  assert (pre_grown : forall st' l, pre st' -> pre (grown st' l)).
  { intros st' l [H1 [H2 [H3 [H4 H5]]]]. unfold pre.
    rewrite length_grown, !clause_value_grown by assumption.
    repeat split; trivial; lia. }
  assert (lit_pre : forall st' x, pre st' ->
                      Store.literal_at st' x = Store.literal_at st x).
  { intros st' x [_ [_ [_ [_ H]]]]. unfold Store.literal_at. now rewrite H. }
  assert (inner : forall l1 st' acc,
             pre st' -> valid_refs st' (fst acc) -> True ->
             exists l acc',
               Store.for_each
                 (fun acc' l2 => ClauseObj.resolve_pair a b acc' l1 l2) ls2 acc st'
               = Return (acc', grown st' l) /\
               valid_refs (grown st' l) (fst acc') /\
               acc_value (grown st' l) acc'
               = (fun s L1 =>
                    fold_left (fun s' L2 => Clause.resolve_pair A0 B0 s' L1 L2) B0 s)
                   (acc_value st' acc) (Store.literal_at st' l1)).
  { intros l1 st' acc Hpre Hacc _.
    destruct (for_each_refines
                _ _ _ _
                (fun acc' l2 => ClauseObj.resolve_pair a b acc' l1 l2)
                (fun s' L2 => Clause.resolve_pair A0 B0 s' (Store.literal_at st l1) L2)
                acc_value (fun _ x => Store.literal_at st x)
                (fun st'' acc' => valid_refs st'' (fst acc'))
                (fun _ _ => True) pre pre_grown
                (fun _ _ _ _ => I) (fun _ _ _ _ => Logic.eq_refl))
      with (xs := ls2) (st := st') (s := acc) as [l [acc' [H1 [H2 H3]]]]; trivial.
    - intros st'' s x Hpre' Hok _.
      destruct Hpre' as [Ha' [Hb' [HA [HB HL]]]].
      destruct (resolve_pair_refines st'' a b s l1 x Ha' Hb' Hok)
        as [l [s' [H1 [H2 H3]]]].
      exists l, s'. split; [assumption |]. split; [assumption |].
      rewrite H3, HA, HB. unfold Store.literal_at. now rewrite HL.
    - apply Forall_forall. trivial.
    - exists l, acc'. split; [assumption |]. split; [assumption |].
      rewrite H3. cbv beta. rewrite (lit_pre st' l1 Hpre). reflexivity. }
  destruct (for_each_refines
              _ _ _ _
              (fun acc l1 =>
                 Store.for_each
                   (fun acc' l2 => ClauseObj.resolve_pair a b acc' l1 l2) ls2 acc)
              (fun s L1 =>
                 fold_left (fun s' L2 => Clause.resolve_pair A0 B0 s' L1 L2) B0 s)
              acc_value (fun st' x => Store.literal_at st' x)
              (fun st'' acc' => valid_refs st'' (fst acc'))
              (fun _ _ => True) pre pre_grown
              (fun _ _ _ _ => I) (fun _ _ _ _ => Logic.eq_refl)
              (fun st' s x Hp Hok Hx => inner x st' s Hp Hok Hx))
    with (xs := Store.clause_at st a) (st := st) (s := (@nil Store.ref, false))
    as [l [rs [H1 [H2 H3]]]].
  - unfold pre. repeat split; trivial.
  - constructor.
  - apply Forall_forall. trivial.
  - exists l, rs. split; [assumption |]. split; [assumption |].
    rewrite H3. reflexivity.
Qed.

Lemma resolve_with_refines (cs : list Store.ref) :
  forall (st : Store.t) (acc : list Store.ref * bool) (c1 : Store.ref),
    c1 < List.length (Store.clauses st) -> valid_refs st cs ->
    valid_refs st (fst acc) ->
    exists l acc',
      KnowledgeBaseObj.resolve_with c1 cs acc st = Return (acc', grown st l) /\
      valid_refs (grown st l) (fst acc') /\
      acc_value (grown st l) acc'
      = KnowledgeBase.resolve_with (Store.clause_value st c1)
                                   (map (Store.clause_value st) cs)
                                   (acc_value st acc).
Proof.
  induction cs as [| c2 cs IH]; intros st acc c1 H1 Hcs Hacc; simpl.
  - exists [], acc. now rewrite grown_nil.
  - apply Forall_cons_iff in Hcs. destruct Hcs as [H2 Hcs].
    destruct (pl_resolve_refines st c1 c2 H1 H2) as [l [r [Hrun [Hr Hval]]]].
    rewrite bind_run with (1 := Hrun). step_read.
    rewrite <- Hval. unfold acc_value at 2. cbv beta iota. simpl fst. simpl snd.
    set (new := update (ClauseObj.eq (grown st l)) (fst acc) (fst r)).
    assert (Hnew : valid_refs (grown st l) new).
    { apply Forall_update; [now apply valid_refs_grown | assumption]. }
    assert (Hnewv : map (Store.clause_value (grown st l)) new
                    = update Clause.eq (map (Store.clause_value st) (fst acc))
                             (map (Store.clause_value (grown st l)) (fst r))).
    { unfold new.
      rewrite update_map with (eqb := Clause.eq)
        by (intros; apply ClauseObj_eq_value).
      now rewrite (map_clause_value_grown st l (fst acc)). }
    destruct (snd r).
    + exists l, (new, true). split; [reflexivity |]. split; [assumption |].
      unfold acc_value. simpl. now rewrite Hnewv.
    + assert (H1' : c1 < List.length (Store.clauses (grown st l)))
        by (rewrite length_grown; lia).
      destruct (IH (grown st l) (new, snd acc) c1 H1'
                   (valid_refs_grown st l cs Hcs) Hnew)
        as [l' [acc' [Hrun' [Hacc' Hval']]]].
      exists (l ++ l'), acc'. rewrite <- grown_grown.
      split; [assumption |]. split; [assumption |].
      rewrite Hval'. unfold acc_value at 1. simpl fst. simpl snd.
      rewrite Hnewv, clause_value_grown by assumption.
      now rewrite (map_clause_value_grown st l cs).
Qed.

Lemma resolve_all_refines (st : Store.t) (cs : list Store.ref)
      (acc : list Store.ref * bool) :
  valid_refs st cs -> valid_refs st (fst acc) ->
  exists l acc',
    KnowledgeBaseObj.resolve_all cs acc st = Return (acc', grown st l) /\
    valid_refs (grown st l) (fst acc') /\
    acc_value (grown st l) acc'
    = KnowledgeBase.resolve_all (map (Store.clause_value st) cs) (acc_value st acc).
Proof.
  intros Hcs Hacc. unfold KnowledgeBaseObj.resolve_all, KnowledgeBase.resolve_all.
  set (CS := map (Store.clause_value st) cs).
  pose (pre := fun st' : Store.t =>
                 valid_refs st' cs /\ map (Store.clause_value st') cs = CS).
  apply (for_each_refines
           _ _ _ _
           (fun acc' c1 => KnowledgeBaseObj.resolve_with c1 cs acc')
           (fun s C1 => KnowledgeBase.resolve_with C1 CS s)
           acc_value Store.clause_value
           (fun st' acc' => valid_refs st' (fst acc'))
           (fun st' c => c < List.length (Store.clauses st')) pre).
  - intros st' l [H1 H2]. split; [now apply valid_refs_grown |].
    now rewrite map_clause_value_grown.
  - intros st' l c Hc. rewrite length_grown. lia.
  - intros st' l c Hc. now apply clause_value_grown.
  - intros st' s c [H1 H2] Hok Hc.
    destruct (resolve_with_refines cs st' s c Hc H1 Hok) as [l [s' [Hr [Hv Ha]]]].
    exists l, s'. split; [assumption |]. split; [assumption |].
    now rewrite Ha, H2.
  - split; [assumption | reflexivity].
  - assumption.
  - assumption.
Qed.

Lemma saturate_step (iter : list Store.ref -> list Store.ref) (fuel : nat)
      (W : list Store.ref) (out : list (list Store.ref)) (u : bool)
      (st st1 : Store.t) (r : list Store.ref * bool) :
  KnowledgeBaseObj.resolve_all (iter W) ([], u) st = Return (r, st1) ->
  KnowledgeBaseObj.saturate iter (S fuel) W out u st
  = if snd r
    then Return ((true, out ++ [difference (ClauseObj.eq st1) (fst r) W]), st1)
    else if issubset (ClauseObj.eq st1) (fst r) W
         then Return ((false, out ++ [difference (ClauseObj.eq st1) (fst r) W]), st1)
         else KnowledgeBaseObj.saturate
                iter fuel (update (ClauseObj.eq st1) W (fst r))
                (out ++ [difference (ClauseObj.eq st1) (fst r) W]) false st1.
Proof.
  intros H. cbn [KnowledgeBaseObj.saturate].
  rewrite bind_run with (1 := H). step_read.
  destruct (snd r); [reflexivity |]. step_read.
  destruct (issubset (ClauseObj.eq st1) (fst r) W); reflexivity.
Qed.

Section SaturateRefines.

(** The order of iteration over the working set: the same on references
    and on values. *)
Variable iter_refs : list Store.ref -> list Store.ref.
Variable iter_values : list Clause.t -> list Clause.t.
Hypothesis iter_valid :
  forall st W, valid_refs st W -> valid_refs st (iter_refs W).
Hypothesis iter_natural :
  forall (h : Store.ref -> Clause.t) W, map h (iter_refs W) = iter_values (map h W).

Lemma trace_value_grown (st : Store.t) (l : list (list Store.ref))
      (out : list (list Store.ref)) :
  Forall (valid_refs st) out ->
  map (map (Store.clause_value (grown st l))) out
  = map (map (Store.clause_value st)) out.
Proof.
  intros H. apply map_ext_in. intros cs Hcs. rewrite Forall_forall in H.
  now apply map_clause_value_grown, H.
Qed.

Lemma saturate_refines (fuel : nat) :
  forall (st : Store.t) (W : list Store.ref) (out : list (list Store.ref))
         (u : bool),
    valid_refs st W -> Forall (valid_refs st) out ->
    (exists l b trace,
        KnowledgeBaseObj.saturate iter_refs fuel W out u st
        = Return ((b, trace), grown st l) /\
        Forall (valid_refs (grown st l)) trace /\
        KnowledgeBase.saturate iter_values fuel
                               (map (Store.clause_value st) W)
                               (map (map (Store.clause_value st)) out) u
        = Return (b, map (map (Store.clause_value (grown st l))) trace))
    \/ (KnowledgeBaseObj.saturate iter_refs fuel W out u st = OutOfFuel /\
        KnowledgeBase.saturate iter_values fuel
                               (map (Store.clause_value st) W)
                               (map (map (Store.clause_value st)) out) u
        = OutOfFuel).
Proof.
  induction fuel as [| fuel IH]; intros st W out u HW Hout.
  - right. split; reflexivity.
  - destruct (resolve_all_refines st (iter_refs W) ([], u)
                (iter_valid st W HW) (Forall_nil _))
      as [l [r [Hrun [Hr Hval]]]].
    rewrite (saturate_step iter_refs fuel W out u st _ r Hrun).
    cbn [KnowledgeBase.saturate].
    rewrite <- iter_natural. change (@nil Clause.t, u) with (acc_value st ([], u)).
    rewrite <- Hval. unfold acc_value.
    set (st1 := grown st l) in *.
    assert (HW1 : valid_refs st1 W) by now apply valid_refs_grown.
    assert (HWv : map (Store.clause_value st1) W = map (Store.clause_value st) W)
      by now apply map_clause_value_grown.
    set (diff := difference (ClauseObj.eq st1) (fst r) W).
    assert (Hdiff : valid_refs st1 diff).
    { apply Forall_forall. intros c Hc. apply filter_In in Hc.
      unfold valid_refs in Hr. rewrite Forall_forall in Hr. now apply Hr. }
    assert (Hdiffv : map (Store.clause_value st1) diff
                     = difference Clause.eq (map (Store.clause_value st1) (fst r))
                                  (map (Store.clause_value st) W)).
    { unfold diff. rewrite difference_map with (eqb := Clause.eq)
        by (intros; apply ClauseObj_eq_value).
      now rewrite HWv. }
    assert (Hout1 : Forall (valid_refs st1) (out ++ [diff])).
    { apply Forall_app. split; [| now constructor].
      eapply Forall_impl; [| exact Hout]. intros cs. apply valid_refs_grown. }
    assert (Houtv : map (map (Store.clause_value st1)) (out ++ [diff])
                    = map (map (Store.clause_value st)) out
                      ++ [difference Clause.eq (map (Store.clause_value st1) (fst r))
                                     (map (Store.clause_value st) W)]).
    { rewrite map_app. simpl. rewrite Hdiffv. f_equal.
      exact (trace_value_grown st l out Hout). }
    destruct (snd r) eqn:Esnd; cbv beta iota.
    + left. exists l, true, (out ++ [diff]). fold st1.
      split; [reflexivity |]. split; [assumption |]. now rewrite Houtv.
    + rewrite issubset_map with (f := Store.clause_value st1) (eqb := Clause.eq)
        by (intros; apply ClauseObj_eq_value).
      rewrite HWv.
      destruct (issubset Clause.eq _ _).
      * left. exists l, false, (out ++ [diff]). fold st1.
        split; [reflexivity |]. split; [assumption |]. now rewrite Houtv.
      * set (W' := update (ClauseObj.eq st1) W (fst r)).
        assert (HW' : valid_refs st1 W') by (apply Forall_update; assumption).
        assert (HWv' : map (Store.clause_value st1) W'
                       = update Clause.eq (map (Store.clause_value st) W)
                                (map (Store.clause_value st1) (fst r))).
        { unfold W'. rewrite update_map with (eqb := Clause.eq)
            by (intros; apply ClauseObj_eq_value).
          now rewrite HWv. }
        rewrite <- HWv', <- Houtv.
        destruct (IH st1 W' (out ++ [diff]) false HW' Hout1)
          as [[l' [b [trace [H1 [H2 H3]]]]] | [H1 H2]].
        -- left. exists (l ++ l'), b, trace. unfold st1 in *.
           rewrite <- grown_grown. auto.
        -- right. auto.
Qed.

End SaturateRefines.

(** *** Parsing into the store *)

Lemma char_at_run (s : string) (i : nat) (st : Store.t) :
  LiteralObj.char_at s i st
  = match Literal.char_at s i with
    | Return c => Return (c, st)
    | IndexError => IndexError
    | OutOfFuel => OutOfFuel
    end.
Proof.
  unfold LiteralObj.char_at, Literal.char_at. now destruct (String.get i s).
Qed.

Lemma Literal_parse_run (s : string) (st : Store.t) :
  LiteralObj.parse s st
  = match Literal.parse s with
    | Return l =>
        Return (List.length (Store.literals st),
                Store.mk (Store.literals st ++ [l]) (Store.clauses st) (Store.lists st))
    | IndexError => IndexError
    | OutOfFuel => OutOfFuel
    end.
Proof.
  unfold LiteralObj.parse, Literal.parse, Store.bind, bind.
  rewrite char_at_run.
  destruct (Literal.char_at s 0) as [c0 | |] eqn:E0; try reflexivity.
  destruct (String.eqb c0 "-").
  - rewrite char_at_run. now destruct (Literal.char_at s 1).
  - rewrite char_at_run, E0. reflexivity.
Qed.

Lemma map_literal_at_app (X Y : list Literal.t) (C K : list (list Store.ref))
      (C' K' : list (list Store.ref)) (acc : list Store.ref) :
  Forall (fun r => r < List.length X) acc ->
  map (Store.literal_at (Store.mk (X ++ Y) C K)) acc
  = map (Store.literal_at (Store.mk X C' K')) acc.
Proof.
  intros H. apply map_ext_in. intros r Hr. rewrite Forall_forall in H.
  unfold Store.literal_at. simpl. apply app_nth1. now apply H.
Qed.

Lemma Literal_parse_no_timeout (s : string) : Literal.parse s <> OutOfFuel.
Proof.
  destruct s as [| c rest]; [discriminate |]. rewrite Literal_parse_cases.
  destruct (Ascii.eqb c "-"); [destruct rest |]; discriminate.
Qed.

Lemma bind_raise (A B : Type) (m : Store.M A) (k : A -> Store.M B) (st : Store.t) :
  m st = IndexError -> Store.bind m k st = IndexError.
Proof. intros H. unfold Store.bind. now rewrite H. Qed.

Lemma parse_step_run (X : list Literal.t) (C K : list (list Store.ref))
      (acc : list Store.ref) (p : string) :
  (l <~ LiteralObj.parse (Str.strip p) ;; ClauseObj.add_literal (List.length C) l)
    (Store.mk X (C ++ [acc]) K)
  = match Literal.parse (Str.strip p) with
    | Return l =>
        Return (tt, Store.mk (X ++ [l]) (C ++ [acc ++ [List.length X]]) K)
    | IndexError => IndexError
    | OutOfFuel => OutOfFuel
    end.
Proof.
  unfold Store.bind. rewrite Literal_parse_run.
  destruct (Literal.parse (Str.strip p)); try reflexivity.
  unfold ClauseObj.add_literal. cbn [Store.literals Store.clauses Store.lists].
  now rewrite upd_last.
Qed.

Lemma parse_step_value (X : list Literal.t) (C K : list (list Store.ref))
      (acc : list Store.ref) (l : Literal.t) :
  Forall (fun r => r < List.length X) acc ->
  map (Store.literal_at (Store.mk (X ++ [l]) (C ++ [acc ++ [List.length X]]) K))
      (acc ++ [List.length X])
  = map (Store.literal_at (Store.mk X (C ++ [acc]) K)) acc ++ [l]
  /\ Forall (fun r => r < List.length (X ++ [l])) (acc ++ [List.length X]).
Proof.
  intros Hacc. split.
  - rewrite map_app. f_equal.
    + now apply map_literal_at_app.
    + simpl. unfold Store.literal_at. simpl. now rewrite nth_middle.
  - apply Forall_app. split.
    + eapply Forall_impl; [| exact Hacc]. intros r Hr. cbv beta in Hr.
      rewrite length_app. simpl. lia.
    + constructor; [| constructor]. rewrite length_app. simpl. lia.
Qed.

Lemma parse_loop_returns (C K : list (list Store.ref)) (pieces : list string) :
  forall (X : list Literal.t) (acc : list Store.ref) (cv : Clause.t),
    Forall (fun r => r < List.length X) acc ->
    for_each (fun (clause : Clause.t) literal_str =>
                l <- Literal.parse (Str.strip literal_str) ;;
                Return (clause ++ [l]))
             pieces (map (Store.literal_at (Store.mk X (C ++ [acc]) K)) acc)
    = Return cv ->
    exists ls acc',
      Store.for_each
        (fun (_ : unit) literal_str =>
           l <~ LiteralObj.parse (Str.strip literal_str) ;;
           ClauseObj.add_literal (List.length C) l)
        pieces tt (Store.mk X (C ++ [acc]) K)
      = Return (tt, Store.mk (X ++ ls) (C ++ [acc']) K) /\
      map (Store.literal_at (Store.mk (X ++ ls) (C ++ [acc']) K)) acc' = cv /\
      Forall (fun r => r < List.length (X ++ ls)) acc'.
Proof.
  induction pieces as [| p pieces IH]; intros X acc cv Hacc.
  - simpl. intros H. injection H as <-. exists [], acc. rewrite app_nil_r. auto.
  - cbn [for_each Store.for_each]. unfold Store.bind at 1.
    rewrite parse_step_run.
    destruct (Literal.parse (Str.strip p)) as [l | |]; cbn [bind];
      try discriminate.
    destruct (parse_step_value X C K acc l Hacc) as [Hv Hacc'].
    rewrite <- Hv. intros H.
    destruct (IH (X ++ [l]) (acc ++ [List.length X]) cv Hacc' H)
      as [ls [acc' [H1 [H2 H3]]]].
    exists ([l] ++ ls), acc'. rewrite app_assoc. auto.
Qed.

Lemma parse_loop_raises (C K : list (list Store.ref)) (pieces : list string) :
  forall (X : list Literal.t) (acc : list Store.ref),
    Forall (fun r => r < List.length X) acc ->
    for_each (fun (clause : Clause.t) literal_str =>
                l <- Literal.parse (Str.strip literal_str) ;;
                Return (clause ++ [l]))
             pieces (map (Store.literal_at (Store.mk X (C ++ [acc]) K)) acc)
    = IndexError ->
    Store.for_each
      (fun (_ : unit) literal_str =>
         l <~ LiteralObj.parse (Str.strip literal_str) ;;
         ClauseObj.add_literal (List.length C) l)
      pieces tt (Store.mk X (C ++ [acc]) K)
    = IndexError.
Proof.
  induction pieces as [| p pieces IH]; intros X acc Hacc.
  - simpl. discriminate.
  - cbn [for_each Store.for_each]. unfold Store.bind at 1.
    rewrite parse_step_run.
    pose proof (Literal_parse_no_timeout (Str.strip p)) as Hno.
    destruct (Literal.parse (Str.strip p)) as [l | |]; cbn [bind];
      try reflexivity; try contradiction.
    destruct (parse_step_value X C K acc l Hacc) as [Hv Hacc'].
    rewrite <- Hv. intros H.
    exact (IH (X ++ [l]) (acc ++ [List.length X]) Hacc' H).
Qed.

Lemma parse_loop_no_timeout (pieces : list string) (acc : Clause.t) :
  for_each (fun (clause : Clause.t) literal_str =>
              l <- Literal.parse (Str.strip literal_str) ;;
              Return (clause ++ [l])) pieces acc <> OutOfFuel.
Proof.
  revert acc. induction pieces as [| p pieces IH]; intros acc; simpl.
  - discriminate.
  - pose proof (Literal_parse_no_timeout (Str.strip p)) as Hno.
    destruct (Literal.parse (Str.strip p)); simpl; try discriminate;
      try contradiction. apply IH.
Qed.

Lemma In_refactor_refs (st : Store.t) (ls : list Store.ref) (r : Store.ref) :
  In r (refactor_refs st ls) -> In r ls.
Proof.
  unfold refactor_refs. rewrite In_sorted. unfold pyset. intros H.
  apply In_update_weak in H. destruct H as [[] | H]. exact H.
Qed.

Lemma Clause_parse_returns (st : Store.t) (s : string) (c : Clause.t) :
  Clause.parse s = Return c ->
  exists ls x,
    ClauseObj.parse s st
    = Return (List.length (Store.clauses st),
              Store.mk (Store.literals st ++ ls) (Store.clauses st ++ [x])
                       (Store.lists st)) /\
    map (Store.literal_at
           (Store.mk (Store.literals st ++ ls) (Store.clauses st ++ [x])
                     (Store.lists st))) x = c /\
    Forall (fun r => r < List.length (Store.literals st ++ ls)) x.
Proof.
  unfold Clause.parse, ClauseObj.parse. destruct st as [L C K].
  cbn [Store.literals Store.clauses Store.lists].
  destruct (for_each _ _ _) as [cv | |] eqn:E; cbn [bind]; try discriminate.
  intros H. injection H as <-.
  destruct (parse_loop_returns C K (Str.split " OR " s) L [] cv (Forall_nil _) E)
    as [ls [acc [Hrun [Hv Hacc]]]].
  rewrite bind_run with (1 := Clause_new_run (Store.mk L C K)).
  unfold grown. cbn [Store.literals Store.clauses Store.lists].
  rewrite bind_run with (1 := Hrun).
  change (Store.mk (L ++ ls) (C ++ [acc]) K)
    with (grown (Store.mk (L ++ ls) C K) [acc]).
  change (List.length C) with (List.length (Store.clauses (Store.mk (L ++ ls) C K))).
  rewrite bind_run with (1 := refactor_run (Store.mk (L ++ ls) C K) acc).
  exists ls, (refactor_refs (Store.mk (L ++ ls) C K) acc).
  split; [reflexivity |]. split.
  - rewrite <- Hv. exact (refactor_refs_value (Store.mk (L ++ ls) C K) acc).
  - apply Forall_forall. intros r Hr. apply In_refactor_refs in Hr.
    rewrite Forall_forall in Hacc. now apply Hacc.
Qed.

Lemma Clause_parse_raises (st : Store.t) (s : string) :
  Clause.parse s = IndexError -> ClauseObj.parse s st = IndexError.
Proof.
  unfold Clause.parse, ClauseObj.parse. destruct st as [L C K].
  destruct (for_each _ _ _) as [cv | |] eqn:E; cbn [bind]; try discriminate.
  intros _.
  rewrite bind_run with (1 := Clause_new_run (Store.mk L C K)).
  unfold grown. cbn [Store.literals Store.clauses Store.lists].
  apply bind_raise.
  exact (parse_loop_raises C K (Str.split " OR " s) L [] (Forall_nil _) E).
Qed.

Lemma Clause_parse_no_timeout (s : string) : Clause.parse s <> OutOfFuel.
Proof.
  unfold Clause.parse.
  pose proof (parse_loop_no_timeout (Str.split " OR " s) []) as H.
  destruct (for_each _ _ _); simpl; try discriminate. contradiction.
Qed.

(** *** Lists of clauses in the store *)

Lemma length_upd (A : Type) (g : A -> A) (l : list A) (i : nat) :
  List.length (Store.upd i g l) = List.length l.
Proof.
  revert i. induction l as [| x l IH]; intros i; destruct i; simpl;
    try reflexivity. now rewrite IH.
Qed.

Lemma nth_upd_same (A : Type) (g : A -> A) (l : list A) (i : nat) (d : A) :
  i < List.length l -> nth i (Store.upd i g l) d = g (nth i l d).
Proof.
  revert i. induction l as [| x l IH]; intros i Hi; simpl in Hi; [lia |].
  destruct i; simpl; [reflexivity | apply IH; lia].
Qed.

Lemma clause_in_store_keeps (base st : Store.t) (c : Store.ref) :
  keeps_objects base st -> clause_in_store base c ->
  clause_in_store st c /\ Store.clause_value st c = Store.clause_value base c.
Proof.
  intros [[ls Hl] [cl Hc]] [Hlt Hrefs].
  assert (Hat : Store.clause_at st c = Store.clause_at base c).
  { unfold Store.clause_at. rewrite Hc. now apply app_nth1. }
  split.
  - split.
    + rewrite Hc, length_app. lia.
    + rewrite Hat. eapply Forall_impl; [| exact Hrefs].
      intros r Hr. cbv beta in Hr. rewrite Hl, length_app. lia.
  - unfold Store.clause_value. rewrite Hat. apply map_ext_in.
    intros r Hr. rewrite Forall_forall in Hrefs.
    unfold Store.literal_at. rewrite Hl. apply app_nth1. now apply Hrefs.
Qed.

Lemma kb_kept (st st' : Store.t) (k : Store.ref) :
  kb_in_store st k -> keeps_objects st st' ->
  List.length (Store.lists st') = List.length (Store.lists st) ->
  Store.list_at st' k = Store.list_at st k ->
  kb_in_store st' k /\ Store.list_value st' k = Store.list_value st k.
Proof.
  intros [Hk Hcs] Hkeep Hlen Hat. split.
  - split; [lia |]. rewrite Hat. eapply Forall_impl; [| exact Hcs].
    intros c Hc. now apply (clause_in_store_keeps st st' c Hkeep).
  - unfold Store.list_value. rewrite Hat. apply map_ext_in.
    intros c Hc. rewrite Forall_forall in Hcs.
    now apply (clause_in_store_keeps st st' c Hkeep), Hcs.
Qed.

Lemma kb_appended (st st' : Store.t) (k c : Store.ref) :
  kb_in_store st k -> keeps_objects st st' ->
  List.length (Store.lists st') = List.length (Store.lists st) ->
  Store.list_at st' k = Store.list_at st k ++ [c] ->
  clause_in_store st' c ->
  kb_in_store st' k /\
  Store.list_value st' k = Store.list_value st k ++ [Store.clause_value st' c].
Proof.
  intros [Hk Hcs] Hkeep Hlen Hat Hc. split.
  - split; [lia |]. rewrite Hat. apply Forall_app. split; [| now constructor].
    eapply Forall_impl; [| exact Hcs].
    intros c' Hc'. now apply (clause_in_store_keeps st st' c' Hkeep).
  - unfold Store.list_value. rewrite Hat, map_app. f_equal.
    apply map_ext_in. intros c' Hc'. rewrite Forall_forall in Hcs.
    now apply (clause_in_store_keeps st st' c' Hkeep), Hcs.
Qed.

Section ListLoop.

Variable body : string -> Store.M unit.
Variable vbody : list Clause.t -> string -> outcome (list Clause.t).
Variable k : Store.ref.

Hypothesis body_returns :
  forall st p accv,
    kb_in_store st k -> vbody (Store.list_value st k) p = Return accv ->
    exists st', body p st = Return (tt, st') /\ kb_in_store st' k /\
                Store.list_value st' k = accv.
Hypothesis body_raises :
  forall st p,
    kb_in_store st k -> vbody (Store.list_value st k) p = IndexError ->
    body p st = IndexError.
Hypothesis body_no_timeout : forall accv p, vbody accv p <> OutOfFuel.

Lemma list_loop_returns (ps : list string) :
  forall st kbv,
    kb_in_store st k ->
    for_each vbody ps (Store.list_value st k) = Return kbv ->
    exists st',
      Store.for_each (fun (_ : unit) p => body p) ps tt st = Return (tt, st') /\
      kb_in_store st' k /\ Store.list_value st' k = kbv.
Proof.
  induction ps as [| p ps IH]; intros st kbv Hkb; simpl.
  - intros H. injection H as <-. exists st. repeat split; trivial; apply Hkb.
  - destruct (vbody (Store.list_value st k) p) as [accv | |] eqn:E; simpl;
      try discriminate.
    destruct (body_returns st p accv Hkb E) as [st1 [Hrun [Hkb1 Hv1]]].
    rewrite <- Hv1. intros H.
    destruct (IH st1 kbv Hkb1 H) as [st' [Hrun' [Hkb' Hv']]].
    exists st'. rewrite bind_run with (1 := Hrun). auto.
Qed.

Lemma list_loop_raises (ps : list string) :
  forall st,
    kb_in_store st k ->
    for_each vbody ps (Store.list_value st k) = IndexError ->
    Store.for_each (fun (_ : unit) p => body p) ps tt st = IndexError.
Proof.
  induction ps as [| p ps IH]; intros st Hkb; simpl.
  - discriminate.
  - pose proof (body_no_timeout (Store.list_value st k) p) as Hno.
    destruct (vbody (Store.list_value st k) p) as [accv | |] eqn:E; simpl;
      try contradiction.
    + destruct (body_returns st p accv Hkb E) as [st1 [Hrun [Hkb1 Hv1]]].
      rewrite <- Hv1. intros H.
      rewrite bind_run with (1 := Hrun). now apply IH.
    + intros _. apply bind_raise. now apply body_raises.
Qed.

Lemma list_loop_no_timeout (ps : list string) :
  forall accv, for_each vbody ps accv <> OutOfFuel.
Proof.
  induction ps as [| p ps IH]; intros accv; simpl; [discriminate |].
  pose proof (body_no_timeout accv p) as Hno.
  destruct (vbody accv p); simpl; try discriminate; try contradiction. apply IH.
Qed.

End ListLoop.

Lemma list_append_run (L : list Literal.t) (C K : list (list Store.ref))
      (k c : Store.ref) :
  KnowledgeBaseObj.list_append k c (Store.mk L C K)
  = Return (tt, Store.mk L C (Store.upd k (fun cs => cs ++ [c]) K)).
Proof. reflexivity. Qed.

Lemma list_at_appended (L : list Literal.t) (C K : list (list Store.ref))
      (L' : list Literal.t) (C' : list (list Store.ref)) (k c : Store.ref) :
  k < List.length K ->
  Store.list_at (Store.mk L' C' (Store.upd k (fun cs => cs ++ [c]) K)) k
  = Store.list_at (Store.mk L C K) k ++ [c].
Proof.
  intros Hk. unfold Store.list_at. simpl. now rewrite nth_upd_same.
Qed.

Lemma parse_body_returns (kb : Store.ref) (st : Store.t) (p : string)
      (accv : list Clause.t) :
  kb_in_store st kb ->
  (clause <- Clause.parse p ;;
   Return (Store.list_value st kb ++ [Clause.refactor clause])) = Return accv ->
  exists st',
    (clause <~ ClauseObj.parse p ;;
     _ <~ ClauseObj.refactor clause ;;
     KnowledgeBaseObj.list_append kb clause) st = Return (tt, st') /\
    kb_in_store st' kb /\ Store.list_value st' kb = accv.
Proof.
  intros Hkb. destruct (Clause.parse p) as [c | |] eqn:Ec; simpl; try discriminate.
  intros H. injection H as <-.
  destruct (Clause_parse_returns st p c Ec) as [ls [x [Hrun [Hv Hx]]]].
  destruct st as [L C K]. cbn [Store.literals Store.clauses Store.lists] in *.
  set (st0 := Store.mk (L ++ ls) C K).
  set (x' := refactor_refs st0 x).
  set (st3 := Store.mk (L ++ ls) (C ++ [x'])
                       (Store.upd kb (fun cs => cs ++ [List.length C]) K)).
  assert (Hrun3 : (clause <~ ClauseObj.parse p ;;
                   _ <~ ClauseObj.refactor clause ;;
                   KnowledgeBaseObj.list_append kb clause) (Store.mk L C K)
                  = Return (tt, st3)).
  { rewrite bind_run with (1 := Hrun).
    change (Store.mk (L ++ ls) (C ++ [x]) K) with (grown st0 [x]).
    change (List.length C) with (List.length (Store.clauses st0)).
    rewrite bind_run with (1 := refactor_run st0 x). reflexivity. }
  assert (Hc : clause_in_store st3 (List.length C)).
  { split.
    - simpl. rewrite length_app. simpl. lia.
    - unfold Store.clause_at. simpl. rewrite nth_middle.
      apply Forall_forall. intros r Hr. apply In_refactor_refs in Hr.
      rewrite Forall_forall in Hx. now apply Hx. }
  assert (Hcv : Store.clause_value st3 (List.length C) = Clause.refactor c).
  { unfold Store.clause_value, Store.clause_at. simpl. rewrite nth_middle.
    rewrite <- Hv. exact (refactor_refs_value st0 x). }
  destruct (kb_appended (Store.mk L C K) st3 kb (List.length C) Hkb) as [H1 H2].
  - split; [exists ls | exists [x']]; reflexivity.
  - simpl. apply length_upd.
  - apply list_at_appended. apply Hkb.
  - exact Hc.
  - exists st3. split; [exact Hrun3 |]. split; [exact H1 |].
    now rewrite H2, Hcv.
Qed.

Lemma parse_body_raises (kb : Store.ref) (st : Store.t) (p : string) :
  (clause <- Clause.parse p ;;
   Return (Store.list_value st kb ++ [Clause.refactor clause])) = IndexError ->
  (clause <~ ClauseObj.parse p ;;
   _ <~ ClauseObj.refactor clause ;;
   KnowledgeBaseObj.list_append kb clause) st = IndexError.
Proof.
  destruct (Clause.parse p) as [c | |] eqn:Ec; simpl; try discriminate.
  intros _. apply bind_raise. now apply Clause_parse_raises.
Qed.

Lemma KnowledgeBase_parse_returns (st : Store.t) (premises : list string)
      (kbv : KnowledgeBase.t) :
  KnowledgeBase.parse premises = Return kbv ->
  exists st',
    KnowledgeBaseObj.parse premises st
    = Return (List.length (Store.lists st), st') /\
    kb_in_store st' (List.length (Store.lists st)) /\
    Store.list_value st' (List.length (Store.lists st)) = kbv.
Proof.
  intros H. unfold KnowledgeBase.parse in H. unfold KnowledgeBaseObj.parse.
  destruct st as [L C K]. cbn [Store.lists].
  set (k := List.length K).
  set (st1 := Store.mk L C (K ++ [[]])).
  assert (Hkb1 : kb_in_store st1 k).
  { split.
    - simpl. rewrite length_app. simpl. lia.
    - unfold Store.list_at. simpl. unfold k. rewrite nth_middle. constructor. }
  assert (Hv1 : Store.list_value st1 k = []).
  { unfold Store.list_value, Store.list_at. simpl. unfold k.
    now rewrite nth_middle. }
  assert (H' : for_each (fun accv p => clause <- Clause.parse p ;;
                                      Return (accv ++ [Clause.refactor clause]))
                        premises (Store.list_value st1 k) = Return kbv)
    by (rewrite Hv1; exact H).
  clear H. rename H' into H.
  destruct (list_loop_returns
              (fun p => clause <~ ClauseObj.parse p ;;
                        _ <~ ClauseObj.refactor clause ;;
                        KnowledgeBaseObj.list_append k clause)
              (fun accv p => clause <- Clause.parse p ;;
                             Return (accv ++ [Clause.refactor clause]))
              k (fun st p accv => parse_body_returns k st p accv)
              premises st1 kbv Hkb1 H)
    as [st' [Hrun [Hkb Hv]]].
  exists st'. split; [| split; assumption].
  unfold Store.bind at 1. unfold KnowledgeBaseObj.new at 1.
  cbn [Store.literals Store.clauses Store.lists]. fold k st1.
  rewrite bind_run with (1 := Hrun). reflexivity.
Qed.

Lemma KnowledgeBase_parse_raises (st : Store.t) (premises : list string) :
  KnowledgeBase.parse premises = IndexError ->
  KnowledgeBaseObj.parse premises st = IndexError.
Proof.
  intros H. unfold KnowledgeBase.parse in H. unfold KnowledgeBaseObj.parse.
  destruct st as [L C K].
  set (k := List.length K).
  set (st1 := Store.mk L C (K ++ [[]])).
  assert (Hkb1 : kb_in_store st1 k).
  { split.
    - simpl. rewrite length_app. simpl. lia.
    - unfold Store.list_at. simpl. unfold k. rewrite nth_middle. constructor. }
  assert (Hv1 : Store.list_value st1 k = []).
  { unfold Store.list_value, Store.list_at. simpl. unfold k.
    now rewrite nth_middle. }
  assert (H' : for_each (fun accv p => clause <- Clause.parse p ;;
                                      Return (accv ++ [Clause.refactor clause]))
                        premises (Store.list_value st1 k) = IndexError)
    by (rewrite Hv1; exact H).
  clear H. rename H' into H.
  unfold Store.bind at 1. unfold KnowledgeBaseObj.new at 1.
  cbn [Store.literals Store.clauses Store.lists]. fold k st1.
  apply bind_raise.
  apply (list_loop_raises
           (fun p => clause <~ ClauseObj.parse p ;;
                     _ <~ ClauseObj.refactor clause ;;
                     KnowledgeBaseObj.list_append k clause)
           (fun accv p => clause <- Clause.parse p ;;
                          Return (accv ++ [Clause.refactor clause]))
           k (fun st p accv => parse_body_returns k st p accv)
           (fun st p _ => parse_body_raises k st p)); trivial.
  intros accv p. pose proof (Clause_parse_no_timeout p).
  destruct (Clause.parse p); simpl; try discriminate. contradiction.
Qed.

Lemma KnowledgeBase_parse_no_timeout (premises : list string) :
  KnowledgeBase.parse premises <> OutOfFuel.
Proof.
  unfold KnowledgeBase.parse. apply list_loop_no_timeout.
  intros accv p. pose proof (Clause_parse_no_timeout p).
  destruct (Clause.parse p); simpl; try discriminate. contradiction.
Qed.

(** *** The query *)

Lemma negate_body_returns (k : Store.ref) (st : Store.t) (p : string)
      (accv : list Clause.t) :
  kb_in_store st k ->
  (literal <- Literal.parse (Str.strip p) ;;
   let clause : Clause.t := [Literal.negate literal] in
   Return (if negb (mem Clause.eq clause (Store.list_value st k))
           then Store.list_value st k ++ [clause]
           else Store.list_value st k)) = Return accv ->
  exists st',
    (literal <~ LiteralObj.parse (Str.strip p) ;;
     _ <~ LiteralObj.negate literal ;;
     clause <~ ClauseObj.new ;;
     _ <~ ClauseObj.add_literal clause literal ;;
     present <~ Store.read (fun st' => mem (ClauseObj.eq st') clause
                                           (Store.list_at st' k)) ;;
     if negb present then KnowledgeBaseObj.list_append k clause else Store.ret tt) st
    = Return (tt, st') /\
    kb_in_store st' k /\ Store.list_value st' k = accv.
Proof.
  intros Hkb.
  destruct (Literal.parse (Str.strip p)) as [l | |] eqn:El; simpl; try discriminate.
  intros H. injection H as <-.
  destruct st as [L C K].
  set (st4 := Store.mk (L ++ [Literal.negate l]) (C ++ [[List.length L]]) K).
  assert (Hkeep : forall K', keeps_objects
                    (Store.mk L C K)
                    (Store.mk (L ++ [Literal.negate l]) (C ++ [[List.length L]]) K')).
  { intros K'. split; eexists; reflexivity. }
  destruct (kb_kept (Store.mk L C K) st4 k Hkb (Hkeep K) Logic.eq_refl Logic.eq_refl)
    as [Hkb4 Hv4].
  assert (Hc : forall K', clause_in_store
                 (Store.mk (L ++ [Literal.negate l]) (C ++ [[List.length L]]) K')
                 (List.length C)).
  { intros K'. split.
    - simpl. rewrite length_app. simpl. lia.
    - unfold Store.clause_at. simpl. rewrite nth_middle.
      constructor; [| constructor]. rewrite length_app. simpl. lia. }
  assert (Hcv : forall K', Store.clause_value
                  (Store.mk (L ++ [Literal.negate l]) (C ++ [[List.length L]]) K')
                  (List.length C) = [Literal.negate l]).
  { intros K'. unfold Store.clause_value, Store.clause_at, Store.literal_at.
    simpl. rewrite nth_middle. simpl. now rewrite nth_middle. }
  assert (Hmem : mem (ClauseObj.eq st4) (List.length C) (Store.list_at st4 k)
                 = mem Clause.eq [Literal.negate l]
                       (Store.list_value (Store.mk L C K) k)).
  { rewrite mem_map with (f := Store.clause_value st4) (eqb := Clause.eq)
      by (intros; apply ClauseObj_eq_value).
    unfold st4 at 1. rewrite Hcv. fold (Store.list_value st4 k). now rewrite Hv4. }
  assert (Hstep : forall (B : Type) (cont : Store.ref -> Store.M B),
             (literal <~ LiteralObj.parse (Str.strip p) ;;
              _ <~ LiteralObj.negate literal ;;
              clause <~ ClauseObj.new ;;
              _ <~ ClauseObj.add_literal clause literal ;;
              cont clause) (Store.mk L C K)
             = cont (List.length C) st4).
  { intros B cont. unfold Store.bind at 1. rewrite Literal_parse_run, El.
    cbn [Store.literals Store.clauses Store.lists].
    unfold Store.bind at 1. unfold LiteralObj.negate at 1.
    cbn [Store.literals Store.clauses Store.lists]. rewrite upd_last.
    unfold Store.bind at 1. unfold ClauseObj.new at 1.
    cbn [Store.literals Store.clauses Store.lists].
    unfold Store.bind at 1. unfold ClauseObj.add_literal at 1.
    cbn [Store.literals Store.clauses Store.lists]. rewrite upd_last.
    reflexivity. }
  rewrite Hstep. step_read. rewrite Hmem.
  destruct (mem Clause.eq [Literal.negate l] (Store.list_value (Store.mk L C K) k));
    cbn [negb].
  - exists st4. split; [reflexivity |]. split; assumption.
  - unfold st4. rewrite list_append_run.
    set (st5 := Store.mk (L ++ [Literal.negate l]) (C ++ [[List.length L]])
                         (Store.upd k (fun cs => cs ++ [List.length C]) K)).
    destruct (kb_appended (Store.mk L C K) st5 k (List.length C) Hkb) as [H1 H2].
    + apply Hkeep.
    + simpl. apply length_upd.
    + apply list_at_appended. apply Hkb.
    + apply Hc.
    + exists st5. split; [reflexivity |]. split; [exact H1 |].
      rewrite H2. unfold st5. now rewrite Hcv.
Qed.

Lemma negate_body_raises (k : Store.ref) (st : Store.t) (p : string) :
  (literal <- Literal.parse (Str.strip p) ;;
   let clause : Clause.t := [Literal.negate literal] in
   Return (if negb (mem Clause.eq clause (Store.list_value st k))
           then Store.list_value st k ++ [clause]
           else Store.list_value st k)) = IndexError ->
  (literal <~ LiteralObj.parse (Str.strip p) ;;
   _ <~ LiteralObj.negate literal ;;
   clause <~ ClauseObj.new ;;
   _ <~ ClauseObj.add_literal clause literal ;;
   present <~ Store.read (fun st' => mem (ClauseObj.eq st') clause
                                         (Store.list_at st' k)) ;;
   if negb present then KnowledgeBaseObj.list_append k clause else Store.ret tt) st
  = IndexError.
Proof.
  destruct (Literal.parse (Str.strip p)) as [l | |] eqn:El; simpl; try discriminate.
  intros _. apply bind_raise. now rewrite Literal_parse_run, El.
Qed.

Lemma negate_body_no_timeout (accv : list Clause.t) (p : string) :
  (literal <- Literal.parse (Str.strip p) ;;
   let clause : Clause.t := [Literal.negate literal] in
   Return (if negb (mem Clause.eq clause accv) then accv ++ [clause] else accv))
  <> OutOfFuel.
Proof.
  pose proof (Literal_parse_no_timeout (Str.strip p)).
  destruct (Literal.parse (Str.strip p)); simpl; try discriminate. contradiction.
Qed.

Lemma negated_query_start (st : Store.t) (self : Store.ref) :
  kb_in_store st self ->
  let st1 := Store.mk (Store.literals st) (Store.clauses st)
                      (Store.lists st ++ [Store.list_at st self]) in
  kb_in_store st1 (List.length (Store.lists st)) /\
  Store.list_value st1 (List.length (Store.lists st)) = Store.list_value st self.
Proof.
  intros [Hself Hcs] st1.
  assert (Hat : Store.list_at st1 (List.length (Store.lists st))
                = Store.list_at st self).
  { unfold Store.list_at at 1. simpl. now rewrite nth_middle. }
  split.
  - split.
    + simpl. rewrite length_app. simpl. lia.
    + rewrite Hat. exact Hcs.
  - unfold Store.list_value. rewrite Hat. reflexivity.
Qed.

Lemma negated_query_returns (st : Store.t) (self : Store.ref) (alpha : string)
      (csv : list Clause.t) :
  kb_in_store st self ->
  KnowledgeBase.negated_query (Store.list_value st self) alpha = Return csv ->
  exists st',
    KnowledgeBaseObj.negated_query self alpha st
    = Return (List.length (Store.lists st), st') /\
    kb_in_store st' (List.length (Store.lists st)) /\
    Store.list_value st' (List.length (Store.lists st)) = csv.
Proof.
  intros Hkb H. unfold KnowledgeBase.negated_query in H.
  destruct (negated_query_start st self Hkb) as [Hkb1 Hv1].
  set (k := List.length (Store.lists st)) in *.
  set (st1 := Store.mk (Store.literals st) (Store.clauses st)
                       (Store.lists st ++ [Store.list_at st self])) in *.
  rewrite <- Hv1 in H.
  destruct (list_loop_returns _ _ k
              (fun st p accv => negate_body_returns k st p accv)
              (Str.split " OR " alpha) st1 csv Hkb1 H)
    as [st' [Hrun [Hkb' Hv']]].
  exists st'. split; [| split; assumption].
  unfold KnowledgeBaseObj.negated_query.
  unfold Store.bind at 1. unfold KnowledgeBaseObj.list_copy at 1.
  fold k st1. rewrite bind_run with (1 := Hrun). reflexivity.
Qed.

Lemma negated_query_raises (st : Store.t) (self : Store.ref) (alpha : string) :
  kb_in_store st self ->
  KnowledgeBase.negated_query (Store.list_value st self) alpha = IndexError ->
  KnowledgeBaseObj.negated_query self alpha st = IndexError.
Proof.
  intros Hkb H. unfold KnowledgeBase.negated_query in H.
  destruct (negated_query_start st self Hkb) as [Hkb1 Hv1].
  set (k := List.length (Store.lists st)) in *.
  set (st1 := Store.mk (Store.literals st) (Store.clauses st)
                       (Store.lists st ++ [Store.list_at st self])) in *.
  rewrite <- Hv1 in H.
  unfold KnowledgeBaseObj.negated_query.
  unfold Store.bind at 1. unfold KnowledgeBaseObj.list_copy at 1.
  fold k st1. apply bind_raise.
  exact (list_loop_raises _ _ k
           (fun st p accv => negate_body_returns k st p accv)
           (fun st p _ => negate_body_raises k st p)
           negate_body_no_timeout (Str.split " OR " alpha) st1 Hkb1 H).
Qed.

Section Refinement.

Variable iter_refs : list Store.ref -> list Store.ref.
Variable iter_values : list Clause.t -> list Clause.t.
Hypothesis iter_valid :
  forall st W, valid_refs st W -> valid_refs st (iter_refs W).
Hypothesis iter_natural :
  forall (h : Store.ref -> Clause.t) W, map h (iter_refs W) = iter_values (map h W).

(** [pl_resolution] on the store shows what [pl_resolution] on the values
    of the knowledge base returns: same verdict, same trace, same failure. *)
Lemma pl_resolution_refines (fuel : nat) (st : Store.t) (self : Store.ref)
      (alpha : string) :
  kb_in_store st self ->
  observe (KnowledgeBaseObj.pl_resolution iter_refs fuel self alpha st)
  = KnowledgeBase.pl_resolution iter_values fuel (Store.list_value st self) alpha.
Proof.
  intros Hkb. unfold KnowledgeBaseObj.pl_resolution, KnowledgeBase.pl_resolution.
  pose proof (list_loop_no_timeout _ negate_body_no_timeout
                (Str.split " OR " alpha) (Store.list_value st self)) as Hno.
  fold (KnowledgeBase.negated_query (Store.list_value st self) alpha) in Hno.
  destruct (KnowledgeBase.negated_query (Store.list_value st self) alpha)
    as [csv | |] eqn:Eq; cbn [bind]; try contradiction.
  - destruct (negated_query_returns st self alpha csv Hkb Eq)
      as [st2 [Hrun [Hkb2 Hv2]]].
    rewrite bind_run with (1 := Hrun). step_read.
    set (k := List.length (Store.lists st)) in *.
    set (W := pyset (ClauseObj.eq st2) (Store.list_at st2 k)).
    assert (HW : valid_refs st2 W).
    { unfold W, pyset. apply Forall_update; [constructor |].
      destruct Hkb2 as [_ Hcs]. eapply Forall_impl; [| exact Hcs].
      intros c Hc. apply Hc. }
    assert (HWv : map (Store.clause_value st2) W = pyset Clause.eq csv).
    { unfold W. rewrite pyset_map with (eqb := Clause.eq)
        by (intros; apply ClauseObj_eq_value).
      now rewrite <- Hv2. }
    destruct (saturate_refines iter_refs iter_values iter_valid iter_natural
                fuel st2 W [] false HW (Forall_nil _))
      as [[l [b [trace [H1 [H2 H3]]]]] | [H1 H2]].
    + rewrite H1. cbn [observe]. rewrite <- H3, HWv. reflexivity.
    + rewrite H1. cbn [observe]. rewrite <- H2, HWv. reflexivity.
  - rewrite bind_raise; [reflexivity |].
    now apply negated_query_raises.
Qed.

End Refinement.

(** X1. Sharing and mutation do not change what the engine computes: on
    every input, parsing the premises and running the query on a store of
    objects, where literals and clauses are shared by reference and
    mutated in place by [negate], [add_literal] and [refactor], shows the
    verdict and the trace of the run on values, or fails as it does. *)
Theorem run_objects_refines (premises : list string) (alpha : string) (fuel : nat) :
  run_objects premises alpha fuel = run_values premises alpha fuel.
Proof.
  unfold run_objects, run_values.
  pose proof (KnowledgeBase_parse_no_timeout premises) as Hno.
  destruct (KnowledgeBase.parse premises) as [kbv | |] eqn:E; cbn [bind];
    try contradiction.
  - destruct (KnowledgeBase_parse_returns Store.empty premises kbv E)
      as [st [Hrun [Hkb Hv]]].
    rewrite bind_run with (1 := Hrun). rewrite <- Hv.
    apply pl_resolution_refines; trivial.
  - rewrite bind_raise; [reflexivity |].
    now apply KnowledgeBase_parse_raises.
Qed.

(** The knowledge base is reusable: a second query, run on the store the
    first one left, shows what it shows on the values the base had. *)
Lemma kb_in_store_extends (st st' : Store.t) (self : Store.ref) :
  extends st st' -> kb_in_store st self -> kb_in_store st' self.
Proof.
  intros Hext Hkb.
  assert (Hkeep : keeps_objects st st') by (split; apply Hext).
  destruct Hkb as [Hself Hcs]. split.
  - destruct Hext as [_ [_ [l Hl]]]. rewrite Hl, length_app. lia.
  - rewrite (@extends_list_at st st' self Hext Hself).
    eapply Forall_impl; [| exact Hcs].
    intros c Hc. now apply (clause_in_store_keeps st st' c Hkeep).
Qed.

Lemma modus_ponens_kb_in_store : kb_in_store modus_ponens_store 0.
Proof.
  split; [vm_compute; lia |].
  repeat constructor; vm_compute; lia.
Qed.

(** X2. A knowledge base can be queried again: a second call of
    [pl_resolution], run on the store that a first call left, shows the
    verdict and the trace that the query has on the clauses the base held
    before the first call. *)
Lemma second_query_refines
      (iter_refs : list Store.ref -> list Store.ref)
      (iter_values : list Clause.t -> list Clause.t)
      (fuel fuel' : nat) (self : Store.ref) (alpha beta : string)
      (st st' : Store.t) (r : bool * list (list Store.ref)) :
  (forall st W, valid_refs st W -> valid_refs st (iter_refs W)) ->
  (forall (h : Store.ref -> Clause.t) W,
      map h (iter_refs W) = iter_values (map h W)) ->
  kb_in_store st self ->
  KnowledgeBaseObj.pl_resolution iter_refs fuel self alpha st = Return (r, st') ->
  observe (KnowledgeBaseObj.pl_resolution iter_refs fuel' self beta st')
  = KnowledgeBase.pl_resolution iter_values fuel' (Store.list_value st self) beta.
Proof.
  intros Hvalid Hnat Hkb Hrun.
  destruct (@frame_pl_resolution st iter_refs fuel self alpha st r st'
              (extends_refl st) Hrun) as [Hext _].
  rewrite <- (@extends_list_value st st' self Hext Hkb).
  apply pl_resolution_refines; trivial.
  now apply (kb_in_store_extends st st').
Qed.

Lemma second_query_refines_witness :
  observe (KnowledgeBaseObj.pl_resolution (fun s => s) 3 0 "A"
                                          modus_ponens_store_after)
  = KnowledgeBase.pl_resolution (fun s => s) 3
                                (Store.list_value modus_ponens_store 0) "A".
Proof.
  apply (second_query_refines (fun s => s) (fun s => s) 2 3 0 "B" "A"
           modus_ponens_store modus_ponens_store_after (true, [[5; 8]; [26]])).
  - intros st W H. exact H.
  - intros h W. reflexivity.
  - exact modus_ponens_kb_in_store.
  - vm_compute. reflexivity.
Defined.

(** The agreement, run on the scenarios. *)
Example agree_modus_ponens :
  run_objects ["A OR B"; "-A"] "B" 5 = run_values ["A OR B"; "-A"] "B" 5.
Proof. vm_compute. reflexivity. Qed.

Example agree_not_entailed :
  run_objects ["A OR B"] "A" 5 = run_values ["A OR B"] "A" 5.
Proof. vm_compute. reflexivity. Qed.

Example agree_chain :
  run_objects ["-A OR B"; "-B OR C"; "A"; "-C OR D OR E"; "-E OR F"; "-F"] "D" 8
  = run_values ["-A OR B"; "-B OR C"; "A"; "-C OR D OR E"; "-E OR F"; "-F"] "D" 8.
Proof. vm_compute. reflexivity. Qed.

Example agree_malformed :
  run_objects ["A OR B"; EmptyString] "A" 5
  = run_values ["A OR B"; EmptyString] "A" 5.
Proof. vm_compute. reflexivity. Qed.

(** X3. On a knowledge base of canonical clauses and a well-formed query,
    the call of [pl_resolution] on the store does return, with enough
    rounds allowed, and leaves every object the store held as it was: the
    list of the base holds the same clauses, with the same literals. *)
Lemma pl_resolution_returns_and_leaves_kb
      (iter_refs : list Store.ref -> list Store.ref)
      (iter_values : list Clause.t -> list Clause.t)
      (self : Store.ref) (alpha : string) (st : Store.t) :
  (forall st W, valid_refs st W -> valid_refs st (iter_refs W)) ->
  (forall (h : Store.ref -> Clause.t) W,
      map h (iter_refs W) = iter_values (map h W)) ->
  (forall s, Permutation (iter_values s) s) ->
  kb_in_store st self ->
  Forall Clause.canonical (Store.list_value st self) ->
  well_formed alpha = true ->
  exists fuel r st',
    KnowledgeBaseObj.pl_resolution iter_refs fuel self alpha st = Return (r, st') /\
    extends st st' /\
    Store.list_value st' self = Store.list_value st self.
Proof.
  intros Hvalid Hnat Hperm Hkb Hcan Halpha.
  destruct (@pl_resolution_halts_canonical iter_values (Store.list_value st self)
              alpha Hperm Hcan Halpha) as [fuel [b [trace Hv]]].
  pose proof (pl_resolution_refines iter_refs iter_values Hvalid Hnat
                fuel st self alpha Hkb) as Href.
  rewrite Hv in Href.
  destruct (KnowledgeBaseObj.pl_resolution iter_refs fuel self alpha st)
    as [[r st'] | |] eqn:Erun; try discriminate.
  exists fuel, r, st'. split; [exact Erun |].
  destruct (@pl_resolution_frame_kb iter_refs fuel self alpha st st' r Hkb Erun)
    as [H1 [_ H2]].
  split; assumption.
Qed.

Lemma pl_resolution_returns_and_leaves_kb_witness :
  exists fuel r st',
    KnowledgeBaseObj.pl_resolution (fun s => s) fuel 0 "B" modus_ponens_store
    = Return (r, st') /\
    extends modus_ponens_store st' /\
    Store.list_value st' 0 = Store.list_value modus_ponens_store 0.
Proof.
  apply (pl_resolution_returns_and_leaves_kb (fun s => s) (fun s => s) 0 "B"
           modus_ponens_store).
  - intros st W H. exact H.
  - intros h W. reflexivity.
  - intros s. apply Permutation_refl.
  - exact modus_ponens_kb_in_store.
  - assert (E : Store.list_value modus_ponens_store 0
                = [[Literal.mk "A" false; Literal.mk "B" false];
                   [Literal.mk "A" true]])
      by (vm_compute; reflexivity).
    rewrite E. repeat constructor.
  - reflexivity.
Defined.

(** * Further properties of the classes *)

(** ** Literals: order, complement, printing *)

(** X4. [Literal.__lt__] is a strict total order that agrees with
    [Literal.__eq__]: no literal is below itself, the order is transitive,
    two literals of which neither is below the other are [==], and a
    symbol comes before its negation. *)
Theorem Literal_lt_strict_total_order :
  (forall a, Literal.lt a a = false) /\
  (forall a b c,
      Literal.lt a b = true -> Literal.lt b c = true -> Literal.lt a c = true) /\
  (forall a b,
      Literal.lt a b = false -> Literal.lt b a = false -> Literal.eq a b = true) /\
  (forall a b, Literal.eq a b = true -> Literal.lt a b = false) /\
  (forall s, Literal.lt (Literal.mk s false) (Literal.mk s true) = true).
Proof.
  split; [exact Literal_lt_irrefl |].
  split; [exact Literal_lt_trans |].
  split; [| split].
  - intros a b H1 H2. apply Literal_eq_spec. now apply Literal_lt_total.
  - intros a b H. apply Literal_eq_spec in H. subst b. apply Literal_lt_irrefl.
  - intros s. unfold Literal.lt. simpl. now rewrite String.eqb_refl.
Qed.

Lemma is_complement_negate (a b : Literal.t) :
  Literal.is_complement a b = true <-> b = Literal.negate a.
Proof.
  rewrite is_complement_spec. destruct a as [sa na], b as [sb nb].
  unfold Literal.negate. simpl. split.
  - intros [-> ->]. now rewrite negb_involutive.
  - intros H. injection H as -> ->. now rewrite negb_involutive.
Qed.

Lemma is_complement_sym (a b : Literal.t) :
  Literal.is_complement a b = Literal.is_complement b a.
Proof.
  unfold Literal.is_complement.
  rewrite (String.eqb_sym (Literal.symbol a)).
  now destruct (Literal.negated a), (Literal.negated b).
Qed.

(** X5. [is_complement] holds exactly between a literal and what [negate]
    makes of it; it is symmetric, no literal is its own complement, and
    negating twice gives the literal back. *)
Theorem is_complement_iff_negate (a b : Literal.t) :
  (Literal.is_complement a b = true <-> b = Literal.negate a) /\
  Literal.is_complement a b = Literal.is_complement b a /\
  Literal.is_complement a a = false /\
  Literal.negate (Literal.negate a) = a.
Proof.
  split; [apply is_complement_negate |].
  split; [apply is_complement_sym |].
  split.
  - unfold Literal.is_complement. now rewrite Bool.eqb_reflx.
  - destruct a as [s n]. unfold Literal.negate. simpl.
    now rewrite negb_involutive.
Qed.

Lemma Literal_parse_readable (l : Literal.t) :
  readable l = true -> Literal.parse (Literal.repr l) = Return l.
Proof.
  destruct l as [s n]. unfold readable, Literal.repr. simpl.
  destruct s as [| c [| d s]]; try discriminate.
  destruct n; simpl.
  - intros _. reflexivity.
  - intros H. rewrite Literal_parse_cases.
    destruct (Ascii.eqb c "-"); [discriminate | reflexivity].
Qed.

(** X6. Round trip of a literal: parsing the representation of a literal
    whose symbol is one character gives the literal back (an unnegated
    literal on the symbol [-] apart, whose representation reads as the
    start of a negated one). *)
Theorem Literal_parse_repr (l : Literal.t) :
  readable l = true -> Literal.parse (Literal.repr l) = Return l.
Proof. apply Literal_parse_readable. Qed.

Lemma Literal_parse_repr_witness :
  Literal.parse (Literal.repr (Literal.mk "A" true)) = Return (Literal.mk "A" true).
Proof. apply (Literal_parse_repr (Literal.mk "A" true)). reflexivity. Defined.

(** ** Clauses: canonical form, equality, order *)

(** X7. [refactor] leaves the literals strictly increasing for
    [Literal.__lt__] (sorted, no literal twice), and they are exactly the
    literals the clause had: none is lost, none is added. *)
Theorem refactor_sorted_same_literals (c : Clause.t) :
  Clause.canonical (Clause.refactor c) /\
  NoDup (Clause.refactor c) /\
  (forall x, In x (Clause.refactor c) <-> In x c) /\
  List.length (Clause.refactor c) <= List.length c.
Proof.
  pose proof (refactor_canonical c) as Hc.
  split; [assumption |].
  split; [now apply canonical_NoDup |].
  split; [intros x; apply In_refactor |].
  apply NoDup_incl_length; [now apply canonical_NoDup |].
  intros x Hx. now apply In_refactor.
Qed.

Lemma Clause_eq_refactor (a b : Clause.t) :
  Clause.eq a b = true <-> Clause.refactor a = Clause.refactor b.
Proof.
  rewrite Clause_eq_same. split.
  - intros H. apply canonical_unique; try apply refactor_canonical.
    intros x. rewrite !In_refactor. apply H.
  - intros H x. rewrite <- (In_refactor a), <- (In_refactor b), H. tauto.
Qed.

(** X8. Two clauses are [==] exactly when they hold the same literals,
    in whatever order and however many times; that is, exactly when
    [refactor] gives them the same sequence of literals. *)
Theorem Clause_eq_iff_same_refactor (a b : Clause.t) :
  (Clause.eq a b = true <-> forall x, In x a <-> In x b) /\
  (Clause.eq a b = true <-> Clause.refactor a = Clause.refactor b).
Proof. split; [apply Clause_eq_same | apply Clause_eq_refactor]. Qed.

Lemma lt_scan_irrefl (a : Clause.t) : Clause.lt_scan a a = false.
Proof.
  induction a as [| x a IH]; simpl; [reflexivity |].
  now rewrite Literal_eq_refl.
Qed.

Lemma lt_scan_trans (a : Clause.t) :
  forall b c, List.length a = List.length b -> List.length b = List.length c ->
    Clause.lt_scan a b = true -> Clause.lt_scan b c = true ->
    Clause.lt_scan a c = true.
Proof.
  induction a as [| x a IH]; intros [| y b] [| z c]; simpl; try discriminate.
  intros Hab Hbc.
  destruct (Literal.eq x y) eqn:Exy; simpl.
  - apply Literal_eq_spec in Exy. subst y.
    destruct (Literal.eq x z) eqn:Exz; simpl; [| trivial].
    apply IH; congruence.
  - destruct (Literal.eq y z) eqn:Eyz; simpl.
    + apply Literal_eq_spec in Eyz. subst z. rewrite Exy. simpl. trivial.
    + intros H1 H2. pose proof (Literal_lt_trans _ _ _ H1 H2) as H3.
      destruct (Literal.eq x z) eqn:Exz; simpl; [| assumption].
      apply Literal_eq_spec in Exz. subst z.
      rewrite Literal_lt_irrefl in H3. discriminate.
Qed.

Lemma Literal_eq_sym_bool (a b : Literal.t) : Literal.eq a b = Literal.eq b a.
Proof.
  unfold Literal.eq.
  rewrite (String.eqb_sym (Literal.symbol a)).
  now destruct (Literal.negated a), (Literal.negated b).
Qed.

Lemma lt_scan_total (a : Clause.t) :
  forall b, List.length a = List.length b ->
    Clause.lt_scan a b = false -> Clause.lt_scan b a = false -> a = b.
Proof.
  induction a as [| x a IH]; intros [| y b]; simpl; try discriminate; trivial.
  intros Hlen. rewrite (Literal_eq_sym_bool y x).
  destruct (Literal.eq x y) eqn:Exy; simpl.
  - apply Literal_eq_spec in Exy. subst y. intros H1 H2.
    f_equal. apply IH; congruence.
  - intros H1 H2. pose proof (Literal_lt_total _ _ H1 H2) as E. subst y.
    rewrite Literal_eq_refl in Exy. discriminate.
Qed.

(** X9. [Clause.__lt__] is a strict total order on sequences of literals,
    shorter clauses first: no clause is below itself, the order is
    transitive, a clause with fewer literals is below one with more, and
    two clauses of which neither is below the other hold the same literals
    at the same places. *)
Theorem Clause_lt_strict_total_order :
  (forall a, Clause.lt a a = false) /\
  (forall a b c,
      Clause.lt a b = true -> Clause.lt b c = true -> Clause.lt a c = true) /\
  (forall a b, List.length a < List.length b -> Clause.lt a b = true) /\
  (forall a b, Clause.lt a b = false -> Clause.lt b a = false -> a = b).
Proof.
  split; [| split; [| split]].
  - intros a. unfold Clause.lt. rewrite Nat.eqb_refl. simpl. apply lt_scan_irrefl.
  - intros a b c. unfold Clause.lt.
    destruct (Nat.eqb_spec (List.length a) (List.length b)) as [Eab | Nab];
      destruct (Nat.eqb_spec (List.length b) (List.length c)) as [Ebc | Nbc];
      simpl; rewrite ?Nat.ltb_lt.
    + destruct (Nat.eqb_spec (List.length a) (List.length c)) as [Eac | Nac];
        simpl; [| congruence].
      now apply lt_scan_trans.
    + intros _ H.
      destruct (Nat.eqb_spec (List.length a) (List.length c)) as [Eac | Nac];
        simpl; [lia | apply Nat.ltb_lt; lia].
    + intros H _.
      destruct (Nat.eqb_spec (List.length a) (List.length c)) as [Eac | Nac];
        simpl; [lia | apply Nat.ltb_lt; lia].
    + intros H1 H2.
      destruct (Nat.eqb_spec (List.length a) (List.length c)) as [Eac | Nac];
        simpl; [lia | apply Nat.ltb_lt; lia].
  - intros a b H. unfold Clause.lt.
    destruct (Nat.eqb_spec (List.length a) (List.length b)) as [E | N];
      simpl; [lia | now apply Nat.ltb_lt].
  - intros a b. unfold Clause.lt. rewrite (Nat.eqb_sym (List.length b)).
    destruct (Nat.eqb_spec (List.length a) (List.length b)) as [E | N]; simpl.
    + now apply lt_scan_total.
    + rewrite !Nat.ltb_ge. lia.
Qed.

(** ** Clauses: union, removal, tautologies *)

Lemma In_merge (a b : Clause.t) (x : Literal.t) :
  In x (Clause.merge a b) <-> In x a \/ In x b.
Proof. unfold Clause.merge. now rewrite In_refactor, in_app_iff. Qed.

Lemma merge_canonical (a b : Clause.t) : Clause.canonical (Clause.merge a b).
Proof. apply refactor_canonical. Qed.

Lemma merge_comm (a b : Clause.t) : Clause.merge a b = Clause.merge b a.
Proof.
  apply canonical_unique; try apply merge_canonical.
  intros x. rewrite !In_merge. tauto.
Qed.

(** X10. [merge] is the union of two clauses in canonical form: the result
    is sorted without duplicates, holds exactly the literals of the two
    clauses, and does not depend on which clause is [self] nor on how
    three clauses are grouped; merging a clause with itself refactors
    it. *)
Theorem merge_is_union (a b : Clause.t) :
  Clause.canonical (Clause.merge a b) /\
  (forall x, In x (Clause.merge a b) <-> In x a \/ In x b) /\
  Clause.merge a b = Clause.merge b a /\
  (forall c, Clause.merge (Clause.merge a b) c = Clause.merge a (Clause.merge b c)) /\
  Clause.merge a a = Clause.refactor a.
Proof.
  split; [apply merge_canonical |].
  split; [intros x; apply In_merge |].
  split; [apply merge_comm |].
  split.
  - intros c. apply canonical_unique; try apply merge_canonical.
    intros x. rewrite !In_merge. tauto.
  - apply canonical_unique; [apply merge_canonical | apply refactor_canonical |].
    intros x. rewrite In_merge, In_refactor. tauto.
Qed.

Lemma In_clone_without (c : Clause.t) (l x : Literal.t) :
  In x (Clause.clone_without c l) <-> In x c /\ x <> l.
Proof.
  unfold Clause.clone_without.
  rewrite In_refactor, filter_In, negb_true_iff.
  assert (E : Literal.eq x l = false <-> x <> l).
  { rewrite <- Literal_eq_spec.
    destruct (Literal.eq x l); split; intros; congruence. }
  rewrite E. tauto.
Qed.

(** X11. [clone_without] gives the clause in canonical form whose literals
    are those of the clause other than the given one: every occurrence of
    the literal is left out, nothing else is, and a canonical clause that
    does not hold the literal is cloned as it is. *)
Theorem clone_without_spec (c : Clause.t) (l : Literal.t) :
  Clause.canonical (Clause.clone_without c l) /\
  (forall x, In x (Clause.clone_without c l) <-> In x c /\ x <> l) /\
  ~ In l (Clause.clone_without c l) /\
  (Clause.canonical c -> ~ In l c -> Clause.clone_without c l = c).
Proof.
  split; [apply refactor_canonical |].
  split; [intros x; apply In_clone_without |].
  split.
  - rewrite In_clone_without. tauto.
  - intros Hc Hl. apply canonical_unique; [apply refactor_canonical | assumption |].
    intros x. rewrite In_clone_without. split; [tauto |].
    intros Hx. split; [assumption |]. intros ->. contradiction.
Qed.

Lemma always_true_has_negation (c : Clause.t) :
  Clause.is_always_true c = true -> exists x, In x c /\ In (Literal.negate x) c.
Proof.
  intros H. destruct (always_true_has_complements c H) as [x [y [Hx [Hy Hxy]]]].
  apply is_complement_negate in Hxy. subst y. eauto.
Qed.

(** X12. On a canonical clause [is_always_true] is exact: it answers true
    if and only if the clause holds some literal together with its
    negation. *)
Theorem is_always_true_exact (c : Clause.t) :
  Clause.canonical c ->
  (Clause.is_always_true c = true <-> exists x, In x c /\ In (Literal.negate x) c).
Proof.
  intros Hc. split.
  - apply always_true_has_negation.
  - intros [x [Hx Hn]]. now apply canonical_complements_detected with (x := x).
Qed.

Lemma is_always_true_exact_witness :
  Clause.is_always_true [Literal.mk "A" false; Literal.mk "A" true; Literal.mk "B" false]
  = true <->
  exists x, In x [Literal.mk "A" false; Literal.mk "A" true; Literal.mk "B" false] /\
            In (Literal.negate x)
               [Literal.mk "A" false; Literal.mk "A" true; Literal.mk "B" false].
Proof.
  apply (is_always_true_exact
           [Literal.mk "A" false; Literal.mk "A" true; Literal.mk "B" false]).
  repeat constructor.
Defined.

(** ** The meaning of the operations on clauses *)

Lemma holds_In (v : valuation) (c : Clause.t) :
  holds v c = true <-> exists l, In l c /\ holds_literal v l = true.
Proof. unfold holds. apply existsb_exists. Qed.

Lemma holds_same (v : valuation) (a b : Clause.t) :
  (forall x, In x a <-> In x b) -> holds v a = holds v b.
Proof.
  intros H. apply bool_eq_iff. rewrite !holds_In.
  split; intros [l [Hl Hv]]; exists l; split; trivial; now apply H.
Qed.

Lemma holds_refactor (v : valuation) (c : Clause.t) :
  holds v (Clause.refactor c) = holds v c.
Proof. apply holds_same. intros x. apply In_refactor. Qed.

Lemma holds_negate (v : valuation) (l : Literal.t) :
  holds_literal v (Literal.negate l) = negb (holds_literal v l).
Proof.
  destruct l as [s n]. unfold holds_literal, Literal.negate. simpl.
  destruct n; simpl; [now rewrite negb_involutive | reflexivity].
Qed.

Lemma holds_complement (v : valuation) (x y : Literal.t) :
  Literal.is_complement x y = true -> holds_literal v y = negb (holds_literal v x).
Proof. intros H. apply is_complement_negate in H. subst y. apply holds_negate. Qed.

Lemma always_true_holds (v : valuation) (c : Clause.t) :
  Clause.is_always_true c = true -> holds v c = true.
Proof.
  intros H. destruct (always_true_has_negation c H) as [x [Hx Hn]].
  apply holds_In. destruct (holds_literal v x) eqn:E.
  - exists x. now split.
  - exists (Literal.negate x). split; [assumption |].
    now rewrite holds_negate, E.
Qed.

(** X13. A clause on which [is_always_true] answers true is a tautology:
    it holds under every valuation of the symbols, whether the clause is
    in canonical form or not. *)
Theorem is_always_true_tautology (v : valuation) (c : Clause.t) :
  Clause.is_always_true c = true -> holds v c = true.
Proof. apply always_true_holds. Qed.

Lemma is_always_true_tautology_witness :
  holds (fun _ => false) [Literal.mk "A" false; Literal.mk "A" true] = true.
Proof.
  apply (is_always_true_tautology (fun _ => false)
           [Literal.mk "A" false; Literal.mk "A" true]).
  reflexivity.
Defined.

(** ** [pl_resolve]: the resolvents, the flag *)

Lemma update_app (A : Type) (eqb : A -> A -> bool) (s xs ys : list A) :
  update eqb s (xs ++ ys) = update eqb (update eqb s xs) ys.
Proof. unfold update. apply fold_left_app. Qed.

Lemma resolve_pair_kept (a b : Clause.t) (st : list Clause.t * bool)
      (l1 l2 : Literal.t) :
  Clause.resolve_pair a b st l1 l2
  = (update Clause.eq (fst st) (kept_resolvent a b l1 l2),
     snd st || existsb Clause.is_empty (kept_resolvent a b l1 l2)).
Proof.
  unfold Clause.resolve_pair, kept_resolvent. destruct st as [s f]. simpl.
  destruct (Literal.is_complement l1 l2); simpl;
    [| now rewrite orb_false_r].
  destruct (Clause.is_always_true _); simpl; [now rewrite orb_false_r |].
  destruct (Clause.is_empty _); simpl;
    [now rewrite orb_true_r | now rewrite orb_false_r].
Qed.

Lemma resolve_inner_kept (a b : Clause.t) (l1 : Literal.t) (lb : list Literal.t) :
  forall st,
    fold_left (fun st' l2 => Clause.resolve_pair a b st' l1 l2) lb st
    = (update Clause.eq (fst st) (flat_map (kept_resolvent a b l1) lb),
       snd st || existsb Clause.is_empty (flat_map (kept_resolvent a b l1) lb)).
Proof.
  induction lb as [| l2 lb IH]; intros st; simpl.
  - destruct st. simpl. now rewrite orb_false_r.
  - rewrite IH, resolve_pair_kept. simpl.
    rewrite update_app, existsb_app, orb_assoc. reflexivity.
Qed.

Lemma resolve_outer_kept (a b : Clause.t) (la : list Literal.t) :
  forall st,
    fold_left (fun st l1 =>
                 fold_left (fun st' l2 => Clause.resolve_pair a b st' l1 l2) b st)
              la st
    = (update Clause.eq (fst st)
              (flat_map (fun l1 => flat_map (kept_resolvent a b l1) b) la),
       snd st || existsb Clause.is_empty
                         (flat_map (fun l1 => flat_map (kept_resolvent a b l1) b) la)).
Proof.
  induction la as [| l1 la IH]; intros st; simpl.
  - destruct st. simpl. now rewrite orb_false_r.
  - rewrite IH, resolve_inner_kept. simpl.
    rewrite update_app, existsb_app, orb_assoc. reflexivity.
Qed.

(** [pl_resolve] returns the set of the kept resolvents, and whether one
    of them is empty. *)
Lemma pl_resolve_kept (a b : Clause.t) :
  Clause.pl_resolve a b
  = (pyset Clause.eq (kept_resolvents a b),
     existsb Clause.is_empty (kept_resolvents a b)).
Proof. unfold Clause.pl_resolve. now rewrite resolve_outer_kept. Qed.

Lemma In_kept_resolvents (a b r : Clause.t) :
  In r (kept_resolvents a b) <->
  exists l1 l2,
    In l1 a /\ In l2 b /\ Literal.is_complement l1 l2 = true /\
    r = Clause.merge (Clause.clone_without a l1) (Clause.clone_without b l2) /\
    Clause.is_always_true r = false.
Proof.
  unfold kept_resolvents. rewrite in_flat_map. split.
  - intros [l1 [H1 H]]. apply in_flat_map in H. destruct H as [l2 [H2 H]].
    exists l1, l2. unfold kept_resolvent in H.
    destruct (Literal.is_complement l1 l2); [| contradiction].
    destruct (Clause.is_always_true _) eqn:Et; [contradiction |].
    destruct H as [<- | []]. auto.
  - intros [l1 [l2 [H1 [H2 [Hc [-> Ht]]]]]]. exists l1. split; [assumption |].
    apply in_flat_map. exists l2. split; [assumption |].
    unfold kept_resolvent. rewrite Hc, Ht. now left.
Qed.

Lemma kept_resolvents_canonical (a b : Clause.t) :
  Forall Clause.canonical (kept_resolvents a b).
Proof.
  apply Forall_forall. intros r Hr. apply In_kept_resolvents in Hr.
  destruct Hr as [l1 [l2 [_ [_ [_ [-> _]]]]]]. apply merge_canonical.
Qed.

(** Sets of canonical clauses, on which [Clause.__eq__] decides
    equality. *)
Lemma mem_In_canonical (x : Clause.t) (s : list Clause.t) :
  Clause.canonical x -> Forall Clause.canonical s ->
  (mem Clause.eq x s = true <-> In x s).
Proof. apply mem_In. apply Clause_eq_canonical. Qed.

Lemma In_update_canonical (xs s : list Clause.t) (y : Clause.t) :
  Forall Clause.canonical xs -> Forall Clause.canonical s ->
  (In y (update Clause.eq s xs) <-> In y s \/ In y xs).
Proof. apply In_update. apply Clause_eq_canonical. Qed.

Lemma NoDup_update_canonical (xs s : list Clause.t) :
  Forall Clause.canonical xs -> Forall Clause.canonical s -> NoDup s ->
  NoDup (update Clause.eq s xs).
Proof. apply NoDup_update. apply Clause_eq_canonical. Qed.

Lemma In_pyset_canonical (xs : list Clause.t) (y : Clause.t) :
  Forall Clause.canonical xs -> (In y (pyset Clause.eq xs) <-> In y xs).
Proof. apply In_pyset. apply Clause_eq_canonical. Qed.

Lemma NoDup_pyset_canonical (xs : list Clause.t) :
  Forall Clause.canonical xs -> NoDup (pyset Clause.eq xs).
Proof. apply NoDup_pyset. apply Clause_eq_canonical. Qed.

Lemma issubset_incl_canonical (s u : list Clause.t) :
  Forall Clause.canonical s -> Forall Clause.canonical u ->
  (issubset Clause.eq s u = true <-> incl s u).
Proof. apply issubset_incl. apply Clause_eq_canonical. Qed.

Lemma In_difference_canonical (s u : list Clause.t) (x : Clause.t) :
  Forall Clause.canonical s -> Forall Clause.canonical u ->
  (In x (difference Clause.eq s u) <-> In x s /\ ~ In x u).
Proof. apply In_difference. apply Clause_eq_canonical. Qed.

Lemma In_pl_resolve (a b r : Clause.t) :
  In r (fst (Clause.pl_resolve a b)) <->
  exists l1 l2,
    In l1 a /\ In l2 b /\ Literal.is_complement l1 l2 = true /\
    r = Clause.merge (Clause.clone_without a l1) (Clause.clone_without b l2) /\
    Clause.is_always_true r = false.
Proof.
  rewrite pl_resolve_kept. simpl.
  rewrite In_pyset_canonical by apply kept_resolvents_canonical.
  apply In_kept_resolvents.
Qed.

Lemma NoDup_pl_resolve (a b : Clause.t) : NoDup (fst (Clause.pl_resolve a b)).
Proof.
  rewrite pl_resolve_kept. simpl.
  apply NoDup_pyset_canonical, kept_resolvents_canonical.
Qed.

(** X14. [pl_resolve] returns exactly the resolvents of the two clauses
    that are not always true: a clause is in the returned set if and only
    if it is the merge of the two clauses, each without one literal of a
    complementary pair, and does not hold a literal and its negation.  No
    clause is in the set twice. *)
Theorem pl_resolve_resolvents (a b r : Clause.t) :
  (In r (fst (Clause.pl_resolve a b)) <->
   exists l1 l2,
     In l1 a /\ In l2 b /\ Literal.is_complement l1 l2 = true /\
     r = Clause.merge (Clause.clone_without a l1) (Clause.clone_without b l2) /\
     Clause.is_always_true r = false) /\
  NoDup (fst (Clause.pl_resolve a b)).
Proof. split; [apply In_pl_resolve | apply NoDup_pl_resolve]. Qed.

Lemma is_empty_nil (c : Clause.t) : Clause.is_empty c = true <-> c = [].
Proof.
  unfold Clause.is_empty. destruct c; simpl; split; intros; congruence.
Qed.

Lemma pl_resolve_flag_In (a b : Clause.t) :
  snd (Clause.pl_resolve a b) = true <-> In [] (fst (Clause.pl_resolve a b)).
Proof.
  rewrite pl_resolve_kept. simpl.
  rewrite In_pyset_canonical by apply kept_resolvents_canonical.
  rewrite existsb_exists. split.
  - intros [r [Hr He]]. apply is_empty_nil in He. now subst r.
  - intros H. exists []. now split.
Qed.

Lemma merge_clone_nil (a b : Clause.t) (l1 l2 : Literal.t) :
  Clause.merge (Clause.clone_without a l1) (Clause.clone_without b l2) = [] <->
  (forall x, In x a -> x = l1) /\ (forall y, In y b -> y = l2).
Proof.
  assert (D : forall x y : Literal.t, x = y \/ x <> y).
  { intros x y. destruct (Literal.eq x y) eqn:E.
    - left. now apply Literal_eq_spec.
    - right. intros H. apply Literal_eq_spec in H. congruence. }
  split.
  - intros H. split; intros x Hx.
    + destruct (D x l1) as [E | N]; [assumption | exfalso].
      assert (Hin : In x (Clause.merge (Clause.clone_without a l1)
                                       (Clause.clone_without b l2)))
        by (apply In_merge_clone; left; now split).
      rewrite H in Hin. contradiction.
    + destruct (D x l2) as [E | N]; [assumption | exfalso].
      assert (Hin : In x (Clause.merge (Clause.clone_without a l1)
                                       (Clause.clone_without b l2)))
        by (apply In_merge_clone; right; now split).
      rewrite H in Hin. contradiction.
  - intros [Ha Hb].
    destruct (Clause.merge _ _) as [| z r] eqn:E; [reflexivity | exfalso].
    assert (Hz : In z (Clause.merge (Clause.clone_without a l1)
                                    (Clause.clone_without b l2)))
      by (rewrite E; now left).
    apply In_merge_clone in Hz.
    destruct Hz as [[Hz N] | [Hz N]]; [apply N, Ha | apply N, Hb]; assumption.
Qed.

(** X15. The flag of [pl_resolve] says whether the empty clause is among
    the resolvents returned, which happens exactly when the two clauses
    are a literal and its negation: each holds one literal only (however
    many times), and the two literals are complementary. *)
Theorem pl_resolve_flag (a b : Clause.t) :
  (snd (Clause.pl_resolve a b) = true <-> In [] (fst (Clause.pl_resolve a b))) /\
  (snd (Clause.pl_resolve a b) = true <->
   exists l, a <> [] /\ b <> [] /\
             (forall x, In x a -> x = l) /\
             (forall y, In y b -> y = Literal.negate l)).
Proof.
  split; [apply pl_resolve_flag_In |].
  rewrite pl_resolve_flag_In, In_pl_resolve. split.
  - intros [l1 [l2 [H1 [H2 [Hc [Hr _]]]]]]. symmetry in Hr.
    apply merge_clone_nil in Hr. destruct Hr as [Ha Hb].
    apply is_complement_negate in Hc. subst l2.
    exists l1. repeat split; trivial.
    + intros ->. contradiction.
    + intros ->. contradiction.
  - intros [l [Ha [Hb [Hxa Hyb]]]].
    destruct a as [| x a]; [congruence |]. destruct b as [| y b]; [congruence |].
    exists l, (Literal.negate l).
    split; [left; apply Hxa; now left |].
    split; [left; apply Hyb; now left |].
    split; [now apply is_complement_negate |].
    assert (E : Clause.merge (Clause.clone_without (x :: a) l)
                             (Clause.clone_without (y :: b) (Literal.negate l)) = [])
      by now apply merge_clone_nil.
    rewrite E. now split.
Qed.

Lemma pl_resolve_swap (a b r : Clause.t) :
  In r (fst (Clause.pl_resolve a b)) -> In r (fst (Clause.pl_resolve b a)).
Proof.
  rewrite !In_pl_resolve. intros [l1 [l2 [H1 [H2 [Hc [Hr Ht]]]]]].
  exists l2, l1. rewrite is_complement_sym, merge_comm. auto.
Qed.

(** X16. [pl_resolve] does not depend on which clause is [self]: the two
    calls return the same resolvents and the same flag. *)
Theorem pl_resolve_symmetric (a b : Clause.t) :
  (forall r, In r (fst (Clause.pl_resolve a b)) <->
             In r (fst (Clause.pl_resolve b a))) /\
  snd (Clause.pl_resolve a b) = snd (Clause.pl_resolve b a).
Proof.
  split.
  - intros r. split; apply pl_resolve_swap.
  - apply bool_eq_iff. rewrite !pl_resolve_flag_In.
    split; apply pl_resolve_swap.
Qed.

Lemma resolvent_holds (v : valuation) (a b r : Clause.t) :
  holds v a = true -> holds v b = true ->
  In r (fst (Clause.pl_resolve a b)) -> holds v r = true.
Proof.
  intros Ha Hb Hr. apply In_pl_resolve in Hr.
  destruct Hr as [l1 [l2 [H1 [H2 [Hc [-> _]]]]]].
  apply holds_In in Ha. destruct Ha as [x [Hx Hvx]].
  apply holds_In in Hb. destruct Hb as [y [Hy Hvy]].
  apply holds_In.
  destruct (Literal.eq x l1) eqn:Ex.
  - apply Literal_eq_spec in Ex. subst x.
    exists y. split; [| assumption].
    apply In_merge_clone. right. split; [assumption |].
    intros ->. rewrite (holds_complement v l1 l2 Hc), Hvx in Hvy. discriminate.
  - exists x. split; [| assumption].
    apply In_merge_clone. left. split; [assumption |].
    intros ->. rewrite Literal_eq_refl in Ex. discriminate.
Qed.

Lemma flag_unsatisfiable (v : valuation) (a b : Clause.t) :
  holds v a = true -> holds v b = true -> snd (Clause.pl_resolve a b) = false.
Proof.
  intros Ha Hb. destruct (snd (Clause.pl_resolve a b)) eqn:E; [| reflexivity].
  apply pl_resolve_flag_In in E.
  pose proof (resolvent_holds v a b [] Ha Hb E) as H. discriminate.
Qed.

(** X17. Resolution is sound: under a valuation that makes the two
    clauses hold, every resolvent that [pl_resolve] returns holds, and the
    flag of the empty clause is not raised. *)
Theorem pl_resolve_sound (v : valuation) (a b : Clause.t) :
  holds v a = true -> holds v b = true ->
  Forall (fun r => holds v r = true) (fst (Clause.pl_resolve a b)) /\
  snd (Clause.pl_resolve a b) = false.
Proof.
  intros Ha Hb. split.
  - apply Forall_forall. intros r. now apply resolvent_holds.
  - now apply flag_unsatisfiable with (v := v).
Qed.

Lemma pl_resolve_sound_witness :
  Forall (fun r => holds (fun _ => true) r = true)
         (fst (Clause.pl_resolve [Literal.mk "A" false; Literal.mk "B" false]
                                 [Literal.mk "A" true; Literal.mk "C" false])) /\
  snd (Clause.pl_resolve [Literal.mk "A" false; Literal.mk "B" false]
                         [Literal.mk "A" true; Literal.mk "C" false]) = false.
Proof.
  apply (pl_resolve_sound (fun _ => true)
           [Literal.mk "A" false; Literal.mk "B" false]
           [Literal.mk "A" true; Literal.mk "C" false]); reflexivity.
Defined.

(** ** Rounds of resolution: invariants *)

Lemma In_update_keep (A : Type) (eqb : A -> A -> bool) (xs s : list A) (y : A) :
  In y s -> In y (update eqb s xs).
Proof.
  revert s. induction xs as [| x xs IH]; intros s H; simpl; [assumption |].
  apply IH. unfold add. destruct (mem eqb x s); [assumption |].
  apply in_or_app. now left.
Qed.

Lemma mem_incl (A : Type) (eqb : A -> A -> bool) (x : A) (s u : list A) :
  incl s u -> mem eqb x s = true -> mem eqb x u = true.
Proof.
  unfold mem. rewrite !existsb_exists. intros H [y [Hy E]]. exists y. auto.
Qed.

Lemma difference_issubset (A : Type) (eqb : A -> A -> bool) (s u : list A) :
  issubset eqb s u = true -> difference eqb s u = [].
Proof.
  unfold issubset, difference. induction s as [| x s IH]; simpl; [reflexivity |].
  rewrite andb_true_iff. intros [Hx Hs]. rewrite Hx. simpl. now apply IH.
Qed.

(** An invariant of the set of new clauses, kept by the resolvents of each
    pair, is kept by a round. *)
Lemma resolve_with_invariant (J : list Clause.t -> Prop) (c1 : Clause.t)
      (cs : list Clause.t) :
  (forall s c2, In c2 cs -> J s ->
                J (update Clause.eq s (fst (Clause.pl_resolve c1 c2)))) ->
  forall st, J (fst st) -> J (fst (KnowledgeBase.resolve_with c1 cs st)).
Proof.
  induction cs as [| c2 cs IH]; intros H st Hst; simpl; [assumption |].
  pose proof (H (fst st) c2 (or_introl Logic.eq_refl) Hst) as Hr.
  destruct (Clause.pl_resolve c1 c2) as [resolvents has_empty]. simpl in Hr.
  destruct has_empty; simpl; [assumption |].
  apply IH; [| assumption]. intros s c Hc. apply H. now right.
Qed.

Lemma resolve_all_invariant (J : list Clause.t -> Prop) (cs : list Clause.t) :
  (forall s c1 c2, In c1 cs -> In c2 cs -> J s ->
                   J (update Clause.eq s (fst (Clause.pl_resolve c1 c2)))) ->
  forall st, J (fst st) -> J (fst (KnowledgeBase.resolve_all cs st)).
Proof.
  intros H. unfold KnowledgeBase.resolve_all.
  assert (G : forall l st, incl l cs -> J (fst st) ->
            J (fst (fold_left
                      (fun st' clause1 => KnowledgeBase.resolve_with clause1 cs st')
                      l st))).
  { induction l as [| c1 l IH]; intros st Hl Hst; simpl; [assumption |].
    apply IH; [intros x Hx; apply Hl; now right |].
    apply resolve_with_invariant; [| assumption].
    intros s c2 H2. apply H; [apply Hl; now left | assumption]. }
  intros st. apply G. apply incl_refl.
Qed.

Lemma resolve_all_Forall (P : Clause.t -> Prop) (cs : list Clause.t) :
  (forall c1 c2, In c1 cs -> In c2 cs -> Forall P (fst (Clause.pl_resolve c1 c2))) ->
  forall st, Forall P (fst st) -> Forall P (fst (KnowledgeBase.resolve_all cs st)).
Proof.
  intros H. apply resolve_all_invariant.
  intros s c1 c2 H1 H2 Hs. apply Forall_update; auto.
Qed.

Lemma pl_resolve_canonical (a b : Clause.t) :
  Forall Clause.canonical (fst (Clause.pl_resolve a b)).
Proof.
  apply Forall_forall. intros r Hr. apply In_pl_resolve in Hr.
  destruct Hr as [l1 [l2 [_ [_ [_ [-> _]]]]]]. apply merge_canonical.
Qed.

(** The new clauses of a round are a set of canonical clauses. *)
Lemma resolve_all_set (cs : list Clause.t) :
  Forall Clause.canonical (fst (KnowledgeBase.resolve_all cs ([], false))) /\
  NoDup (fst (KnowledgeBase.resolve_all cs ([], false))).
Proof.
  apply (resolve_all_invariant (fun s => Forall Clause.canonical s /\ NoDup s)).
  - intros s c1 c2 _ _ [Hs Hnd]. split.
    + apply Forall_update; [assumption | apply pl_resolve_canonical].
    + apply NoDup_update_canonical; trivial. apply pl_resolve_canonical.
  - simpl. split; constructor.
Qed.

(** A round that raises the flag has the empty clause among its new
    clauses: the resolvents of the pair that raised it were added before
    the [break]. *)
Lemma resolve_with_empty (c1 : Clause.t) (cs : list Clause.t) :
  forall st,
    Forall Clause.canonical (fst st) ->
    (In [] (fst st) \/ existsb (fun c2 => snd (Clause.pl_resolve c1 c2)) cs = true) ->
    In [] (fst (KnowledgeBase.resolve_with c1 cs st)).
Proof.
  induction cs as [| c2 cs IH]; intros st Hst H; simpl.
  - destruct H as [H | H]; [assumption | discriminate].
  - pose proof (pl_resolve_canonical c1 c2) as Hc.
    pose proof (pl_resolve_flag_In c1 c2) as Hf.
    assert (H' : In [] (fst st) \/ snd (Clause.pl_resolve c1 c2) = true \/
                 existsb (fun c => snd (Clause.pl_resolve c1 c)) cs = true).
    { destruct H as [H | H]; [now left | right].
      simpl in H. now apply orb_true_iff in H. }
    clear H.
    destruct (Clause.pl_resolve c1 c2) as [resolvents has_empty].
    simpl in Hc, Hf, H'. destruct has_empty; simpl.
    + apply In_update_canonical; trivial. right. now apply Hf.
    + apply IH; simpl.
      * apply Forall_update; assumption.
      * destruct H' as [H | [H | H]];
          [left; now apply In_update_keep | discriminate | now right].
Qed.

Lemma resolve_with_keeps (c1 : Clause.t) (cs : list Clause.t) (c : Clause.t) :
  forall st, In c (fst st) -> In c (fst (KnowledgeBase.resolve_with c1 cs st)).
Proof.
  induction cs as [| c2 cs IH]; intros st H; simpl; [assumption |].
  destruct (Clause.pl_resolve c1 c2) as [resolvents has_empty].
  destruct has_empty; simpl; [now apply In_update_keep |].
  apply IH. simpl. now apply In_update_keep.
Qed.

Lemma resolve_with_canonical (c1 : Clause.t) (cs : list Clause.t) :
  forall st, Forall Clause.canonical (fst st) ->
             Forall Clause.canonical (fst (KnowledgeBase.resolve_with c1 cs st)).
Proof.
  apply resolve_with_invariant. intros s c2 _ Hs.
  apply Forall_update; [assumption | apply pl_resolve_canonical].
Qed.

Lemma resolve_all_empty (cs : list Clause.t) :
  derives_empty cs = true ->
  In [] (fst (KnowledgeBase.resolve_all cs ([], false))).
Proof.
  unfold derives_empty, KnowledgeBase.resolve_all.
  assert (G : forall l st,
            Forall Clause.canonical (fst st) ->
            (In [] (fst st) \/
             existsb (fun c1 => existsb (fun c2 => snd (Clause.pl_resolve c1 c2)) cs) l
             = true) ->
            In [] (fst (fold_left
                          (fun st' clause1 => KnowledgeBase.resolve_with clause1 cs st')
                          l st))).
  { induction l as [| c1 l IH]; intros st Hst H; simpl.
    - destruct H as [H | H]; [assumption | discriminate].
    - apply IH; [now apply resolve_with_canonical |].
      destruct H as [H | H].
      + left. now apply resolve_with_keeps.
      + simpl in H. apply orb_true_iff in H. destruct H as [H | H].
        * left. apply resolve_with_empty; auto.
        * now right. }
  intros H. apply G; [constructor | now right].
Qed.

Section Rounds.

Variable set_iter : list Clause.t -> list Clause.t.

(** The run of the loop that returns: it went through working sets that
    keep an invariant [I] of the rounds, and ended on one of them. *)
Lemma saturate_final (I : list Clause.t -> Prop) :
  (forall W, I W ->
             snd (KnowledgeBase.resolve_all (set_iter W) ([], false)) = false ->
             I (update Clause.eq W
                       (fst (KnowledgeBase.resolve_all (set_iter W) ([], false))))) ->
  forall (fuel : nat) (W : list Clause.t) (out : list (list Clause.t))
         (b : bool) (trace : list (list Clause.t)),
    I W ->
    KnowledgeBase.saturate set_iter fuel W out false = Return (b, trace) ->
    exists W' mid,
      I W' /\
      b = snd (KnowledgeBase.resolve_all (set_iter W') ([], false)) /\
      trace = out ++ mid ++
              [difference Clause.eq
                          (fst (KnowledgeBase.resolve_all (set_iter W') ([], false)))
                          W'] /\
      (b = false ->
       issubset Clause.eq
                (fst (KnowledgeBase.resolve_all (set_iter W') ([], false))) W'
       = true) /\
      List.length mid < fuel.
Proof.
  intros Hstep. induction fuel as [| fuel IH]; intros W out b trace HW; simpl;
    [discriminate |].
  pose proof (Hstep W HW) as HW'.
  destruct (KnowledgeBase.resolve_all (set_iter W) ([], false))
    as [new unsat] eqn:E. simpl in HW'.
  destruct unsat.
  - intros H. injection H as <- <-. exists W, []. rewrite E. simpl.
    repeat split; trivial; [discriminate | lia].
  - destruct (issubset Clause.eq new W) eqn:Es.
    + intros H. injection H as <- <-. exists W, []. rewrite E. simpl.
      repeat split; trivial. lia.
    + intros H. apply IH in H; [| now apply HW'].
      destruct H as [W' [mid [H1 [H2 [H3 [H4 H5]]]]]].
      exists W', (difference Clause.eq new W :: mid).
      repeat split; trivial.
      * rewrite H3, <- app_assoc. reflexivity.
      * simpl. lia.
Qed.

Hypothesis set_iter_perm : forall s, Permutation (set_iter s) s.

(** A valuation under which the working set holds keeps it so, round
    after round, and the loop does not answer true. *)
Lemma saturate_sound (v : valuation) (fuel : nat) (W : list Clause.t)
      (out trace : list (list Clause.t)) :
  Forall (fun c => holds v c = true) W ->
  KnowledgeBase.saturate set_iter fuel W out false <> Return (true, trace).
Proof.
  intros HW H.
  apply (saturate_final (Forall (fun c => holds v c = true))) in H; trivial.
  - destruct H as [W' [mid [H1 [H2 _]]]].
    rewrite (@round_flag set_iter set_iter_perm W') in H2. symmetry in H2.
    apply derives_empty_spec in H2. destruct H2 as [c1 [c2 [Hc1 [Hc2 Hf]]]].
    rewrite Forall_forall in H1.
    rewrite (flag_unsatisfiable v c1 c2) in Hf; auto. discriminate.
  - intros W0 HW0 _. apply Forall_update; [assumption |].
    apply resolve_all_Forall; [| constructor].
    intros c1 c2 H1 H2. apply Forall_forall. intros r.
    rewrite Forall_forall in HW0.
    apply resolvent_holds; apply HW0;
      now apply (@In_set_iter set_iter set_iter_perm).
Qed.

End Rounds.

(** ** The query and its negation *)

(** Step 1 of [pl_resolution] reads the literals that [Clause.parse]
    reads: the initial clauses are those of the base and the negations of
    these literals, as unit clauses. *)
Lemma negated_query_literals (pieces : list string) :
  forall (acc cs : list Clause.t) (lacc : Clause.t),
    for_each (fun (clauses : list Clause.t) literal_str =>
                literal <- Literal.parse (Str.strip literal_str) ;;
                let clause : Clause.t := [Literal.negate literal] in
                Return (if negb (mem Clause.eq clause clauses)
                        then clauses ++ [clause] else clauses)) pieces acc
    = Return cs ->
    exists ls,
      for_each (fun (clause : Clause.t) literal_str =>
                  l <- Literal.parse (Str.strip literal_str) ;;
                  Return (clause ++ [l])) pieces lacc
      = Return (lacc ++ ls) /\
      incl acc cs /\
      (forall c, In c cs -> In c acc \/ exists l, In l ls /\ c = [Literal.negate l]) /\
      (forall l, In l ls -> mem Clause.eq [Literal.negate l] cs = true).
Proof.
  induction pieces as [| p pieces IH]; intros acc cs lacc; simpl.
  - intros H. injection H as <-. exists []. rewrite app_nil_r.
    repeat split; auto using incl_refl.
  - destruct (Literal.parse (Str.strip p)) as [l | |]; simpl; try discriminate.
    intros H.
    destruct (IH _ cs (lacc ++ [l]) H) as [ls [H1 [H2 [H3 H4]]]].
    exists (l :: ls).
    split; [rewrite H1, <- app_assoc; reflexivity |].
    assert (Hacc : incl acc cs).
    { intros c Hc. apply H2.
      destruct (negb (mem Clause.eq [Literal.negate l] acc)); [| assumption].
      apply in_or_app. now left. }
    split; [assumption |]. split.
    + intros c Hc. destruct (H3 c Hc) as [Hin | [l' [Hl' ->]]].
      * destruct (negb (mem Clause.eq [Literal.negate l] acc)); [| now left].
        apply in_app_or in Hin. destruct Hin as [Hin | [<- | []]]; [now left |].
        right. exists l. split; [now left | reflexivity].
      * right. exists l'. split; [now right | reflexivity].
    + intros l' [<- | Hl']; [| now apply H4].
      destruct (mem Clause.eq [Literal.negate l] acc) eqn:Em; simpl in H2.
      * now apply mem_incl with (s := acc).
      * apply mem_incl with (s := acc ++ [[Literal.negate l]]); [assumption |].
        unfold mem. rewrite existsb_app. simpl.
        assert (E : Clause.eq [Literal.negate l] [Literal.negate l] = true)
          by (apply Clause_eq_same; tauto).
        rewrite E. now rewrite orb_true_r.
Qed.

Lemma negated_query_parse (kb cs : list Clause.t) (alpha : string) :
  KnowledgeBase.negated_query kb alpha = Return cs ->
  exists ls,
    Clause.parse alpha = Return (Clause.refactor ls) /\
    incl kb cs /\
    (forall c, In c cs -> In c kb \/ exists l, In l ls /\ c = [Literal.negate l]) /\
    (forall l, In l ls -> mem Clause.eq [Literal.negate l] cs = true).
Proof.
  intros H. unfold KnowledgeBase.negated_query in H.
  destruct (negated_query_literals _ _ _ [] H) as [ls [H1 H2]].
  exists ls. split; [| assumption].
  unfold Clause.parse. rewrite H1. reflexivity.
Qed.

Lemma In_pyset_weak (A : Type) (eqb : A -> A -> bool) (xs : list A) (y : A) :
  In y (pyset eqb xs) -> In y xs.
Proof.
  unfold pyset. intros H. apply In_update_weak in H. destruct H as [[] | H].
  assumption.
Qed.

(** ** [pl_resolution] answers true only on what is entailed *)

Lemma pl_resolution_true_entails
      (set_iter : list Clause.t -> list Clause.t)
      (kb : KnowledgeBase.t) (alpha : string) (fuel : nat)
      (trace : list (list Clause.t)) :
  (forall s, Permutation (set_iter s) s) ->
  KnowledgeBase.pl_resolution set_iter fuel kb alpha = Return (true, trace) ->
  exists q,
    Clause.parse alpha = Return q /\
    forall v, models v kb = true -> holds v q = true.
Proof.
  intros Hperm H. unfold KnowledgeBase.pl_resolution in H.
  destruct (KnowledgeBase.negated_query kb alpha) as [cs | |] eqn:Ecs;
    cbn [bind] in H; try discriminate.
  destruct (negated_query_parse kb cs alpha Ecs) as [ls [Hq [_ [Hcs _]]]].
  exists (Clause.refactor ls). split; [assumption |].
  intros v Hkb. rewrite holds_refactor.
  destruct (holds v ls) eqn:Els; [reflexivity | exfalso].
  apply (saturate_sound set_iter Hperm v fuel (pyset Clause.eq cs) [] trace);
    [| assumption].
  apply Forall_forall. intros c Hc. apply In_pyset_weak in Hc.
  destruct (Hcs c Hc) as [Hin | [l [Hl ->]]].
  - unfold models in Hkb. rewrite forallb_forall in Hkb. now apply Hkb.
  - unfold holds. simpl. rewrite holds_negate, orb_false_r.
    destruct (holds_literal v l) eqn:El; [| reflexivity].
    assert (Ht : holds v ls = true) by (apply holds_In; eauto).
    congruence.
Qed.

(** X18. [pl_resolution] is sound: when it answers true, the query is
    entailed by the knowledge base.  The text of the query parses as a
    clause, and every valuation under which all the clauses of the base
    hold makes that clause hold, whatever the clauses of the base and the
    order in which the working set is iterated. *)
Theorem pl_resolution_sound
        (set_iter : list Clause.t -> list Clause.t)
        (kb : KnowledgeBase.t) (alpha : string) (fuel : nat)
        (trace : list (list Clause.t)) :
  (forall s, Permutation (set_iter s) s) ->
  KnowledgeBase.pl_resolution set_iter fuel kb alpha = Return (true, trace) ->
  exists q,
    Clause.parse alpha = Return q /\
    forall v, models v kb = true -> holds v q = true.
Proof. apply pl_resolution_true_entails. Qed.

Lemma pl_resolution_sound_witness :
  exists q,
    Clause.parse "B" = Return q /\
    forall v,
      models v [[Literal.mk "A" false; Literal.mk "B" false]; [Literal.mk "A" true]]
      = true ->
      holds v q = true.
Proof.
  apply (pl_resolution_sound
           (fun s => s)
           [[Literal.mk "A" false; Literal.mk "B" false]; [Literal.mk "A" true]]
           "B" 2
           [[[Literal.mk "B" false]; [Literal.mk "A" false]]; [[]]]).
  - intros s. apply Permutation_refl.
  - vm_compute. reflexivity.
Defined.

(** ** A set of clauses closed under resolution has a model *)

Lemma In_symbols (s : string) (D : list string) :
  existsb (String.eqb s) D = true <-> In s D.
Proof.
  rewrite existsb_exists. split.
  - intros [x [Hx E]]. apply String.eqb_eq in E. now subst x.
  - intros H. exists s. split; [assumption | apply String.eqb_refl].
Qed.

Lemma falsified_spec (D trues : list string) (c : Clause.t) :
  falsified D trues c = true <->
  forall l, In l c ->
            In (Literal.symbol l) D /\ holds_literal (assign trues) l = false.
Proof.
  unfold falsified. rewrite forallb_forall.
  split; intros H l Hl; specialize (H l Hl).
  - apply andb_true_iff in H. destruct H as [H1 H2].
    apply In_symbols in H1. apply negb_true_iff in H2. now split.
  - destruct H as [H1 H2]. apply andb_true_iff. split.
    + now apply In_symbols.
    + now apply negb_true_iff.
Qed.

Lemma existsb_false (A : Type) (f : A -> bool) (l : list A) :
  existsb f l = false -> forall x, In x l -> f x = false.
Proof.
  intros H x Hx. destruct (f x) eqn:E; [| reflexivity].
  assert (Ht : existsb f l = true) by (apply existsb_exists; eauto).
  congruence.
Qed.

Lemma In_literal_dec (l : Literal.t) (c : Clause.t) : In l c \/ ~ In l c.
Proof.
  induction c as [| x c IH]; [right; intros [] |].
  destruct (Literal.eq x l) eqn:E.
  - apply Literal_eq_spec in E. left. now left.
  - destruct IH as [IH | IH]; [left; now right | right].
    intros [H | H]; [| contradiction].
    subst x. rewrite Literal_eq_refl in E. discriminate.
Qed.

Section Model.

Variable W : list Clause.t.
Hypothesis closed :
  forall c1 c2 r, In c1 W -> In c2 W -> In r (fst (Clause.pl_resolve c1 c2)) -> In r W.

(** Deciding one more symbol: when leaving it false falsifies a clause,
    making it true falsifies none; the resolvent of two clauses falsified
    either way would be falsified already. *)
Lemma model_step (p : string) (D trues : list string) :
  incl trues D ->
  (forall c, In c W -> falsified D trues c = false) ->
  existsb (falsified (p :: D) trues) W = true ->
  forall c, In c W -> falsified (p :: D) (p :: trues) c = false.
Proof.
  intros Hinc Hinv Hex b Hb.
  destruct (falsified (p :: D) (p :: trues) b) eqn:Eb; [exfalso | reflexivity].
  apply existsb_exists in Hex. destruct Hex as [a [Ha Ea]].
  rewrite falsified_spec in Ea, Eb.
  assert (HpD : ~ In p D).
  { intros HpD. assert (H : falsified D trues a = true).
    { apply falsified_spec. intros l Hl. destruct (Ea l Hl) as [[E | Hin] Hf].
      - split; [rewrite <- E; exact HpD | exact Hf].
      - now split. }
    rewrite (Hinv a Ha) in H. discriminate. }
  assert (Hpt : assign trues p = false).
  { destruct (assign trues p) eqn:E; [| reflexivity].
    apply In_symbols in E. apply Hinc in E. contradiction. }
  assert (Hext : forall l, Literal.symbol l <> p ->
                           holds_literal (assign (p :: trues)) l
                           = holds_literal (assign trues) l).
  { intros l Hl. unfold holds_literal, assign. simpl.
    apply String.eqb_neq in Hl. now rewrite Hl. }
  assert (Ha_lits : forall x, In x a ->
            x = Literal.mk p false \/
            (In (Literal.symbol x) D /\ Literal.symbol x <> p /\
             holds_literal (assign trues) x = false)).
  { intros x Hx. destruct (Ea x Hx) as [Hs Hf].
    destruct (String.eqb_spec (Literal.symbol x) p) as [E | N].
    - left. destruct x as [s n]. simpl in E. subst s.
      unfold holds_literal in Hf. simpl in Hf. rewrite Hpt in Hf.
      destruct n; [discriminate | reflexivity].
    - right. destruct Hs as [E | Hin]; [congruence | auto]. }
  assert (Hb_lits : forall y, In y b ->
            y = Literal.mk p true \/
            (In (Literal.symbol y) D /\ Literal.symbol y <> p /\
             holds_literal (assign trues) y = false)).
  { intros y Hy. destruct (Eb y Hy) as [Hs Hf].
    destruct (String.eqb_spec (Literal.symbol y) p) as [E | N].
    - left. destruct y as [s n]. simpl in E. subst s.
      unfold holds_literal, assign in Hf. simpl in Hf.
      rewrite String.eqb_refl in Hf. simpl in Hf.
      destruct n; [reflexivity | discriminate].
    - right. rewrite (Hext y N) in Hf.
      destruct Hs as [E | Hin]; [congruence | auto]. }
  assert (Hlp : In (Literal.mk p false) a).
  { destruct (In_literal_dec (Literal.mk p false) a) as [H | H]; [assumption |].
    exfalso. assert (Hf : falsified D trues a = true).
    { apply falsified_spec. intros l Hl.
      destruct (Ha_lits l Hl) as [-> | [H1 [_ H2]]]; [contradiction | now split]. }
    rewrite (Hinv a Ha) in Hf. discriminate. }
  assert (Hln : In (Literal.mk p true) b).
  { destruct (In_literal_dec (Literal.mk p true) b) as [H | H]; [assumption |].
    exfalso. assert (Hf : falsified D trues b = true).
    { apply falsified_spec. intros l Hl.
      destruct (Hb_lits l Hl) as [-> | [H1 [_ H2]]]; [contradiction | now split]. }
    rewrite (Hinv b Hb) in Hf. discriminate. }
  set (r := Clause.merge (Clause.clone_without a (Literal.mk p false))
                         (Clause.clone_without b (Literal.mk p true))).
  assert (Hr : falsified D trues r = true).
  { apply falsified_spec. intros x Hx. apply In_merge_clone in Hx.
    destruct Hx as [[Hx N] | [Hx N]].
    - destruct (Ha_lits x Hx) as [-> | [H1 [_ H2]]]; [congruence | now split].
    - destruct (Hb_lits x Hx) as [-> | [H1 [_ H2]]]; [congruence | now split]. }
  assert (HrW : In r W).
  { apply (closed a b r Ha Hb). apply In_pl_resolve.
    exists (Literal.mk p false), (Literal.mk p true).
    split; [assumption |]. split; [assumption |].
    split; [unfold Literal.is_complement; simpl; now rewrite String.eqb_refl |].
    split; [reflexivity |].
    destruct (Clause.is_always_true r) eqn:Et; [exfalso | reflexivity].
    apply (always_true_holds (assign trues)) in Et.
    apply holds_In in Et. destruct Et as [l [Hl Hv]].
    rewrite falsified_spec in Hr. destruct (Hr l Hl) as [_ Hf]. congruence. }
  rewrite (Hinv r HrW) in Hr. discriminate.
Qed.

Lemma build_model_invariant (atoms : list string) :
  forall D trues,
    incl trues D ->
    (forall c, In c W -> falsified D trues c = false) ->
    forall c, In c W ->
              falsified (rev atoms ++ D) (build_model W atoms D trues) c = false.
Proof.
  induction atoms as [| p rest IH]; intros D trues Hinc Hinv; simpl.
  - assumption.
  - rewrite <- app_assoc. simpl.
    destruct (existsb (falsified (p :: D) trues) W) eqn:E.
    + apply IH.
      * intros s [<- | Hs]; [now left | right; now apply Hinc].
      * now apply model_step.
    + apply IH.
      * intros s Hs. right. now apply Hinc.
      * now apply existsb_false.
Qed.

Hypothesis no_empty : ~ In [] W.

Lemma saturated_model :
  models (assign (build_model W (symbols_of W) [] [])) W = true.
Proof.
  unfold models. apply forallb_forall. intros c Hc.
  assert (H0 : forall c', In c' W -> falsified [] [] c' = false).
  { intros [| x c'] Hc'; [contradiction | reflexivity]. }
  pose proof (build_model_invariant (symbols_of W) [] [] (incl_refl _) H0 c Hc) as Hf.
  destruct (holds (assign (build_model W (symbols_of W) [] [])) c) eqn:Eh;
    [reflexivity | exfalso].
  assert (Ht : falsified (rev (symbols_of W) ++ [])
                         (build_model W (symbols_of W) [] []) c = true).
  { apply falsified_spec. intros l Hl. split.
    - apply in_or_app. left. apply in_rev. rewrite rev_involutive.
      unfold symbols_of. apply in_map. apply in_concat. eauto.
    - unfold holds in Eh. exact (existsb_false _ _ _ Eh l Hl). }
  congruence.
Qed.

End Model.

Section Refutation.

Variable set_iter : list Clause.t -> list Clause.t.
Hypothesis set_iter_perm : forall s, Permutation (set_iter s) s.

(** A round that raises no flag adds canonical clauses over the same
    literals, none of them empty. *)
Lemma round_keeps_nonempty (L : list Literal.t) (W : list Clause.t) :
  Forall (good L) W -> ~ In [] W ->
  snd (KnowledgeBase.resolve_all (set_iter W) ([], false)) = false ->
  Forall (good L)
         (update Clause.eq W
                 (fst (KnowledgeBase.resolve_all (set_iter W) ([], false)))) /\
  ~ In [] (update Clause.eq W
                  (fst (KnowledgeBase.resolve_all (set_iter W) ([], false)))).
Proof.
  intros Hg Hne Hflag.
  pose proof (@round_good set_iter set_iter_perm L W Hg) as Hnew.
  rewrite (@round_flag set_iter set_iter_perm W) in Hflag.
  split; [now apply Forall_update |].
  intros Hin. apply (@In_update_good L _ _ [] Hnew Hg) in Hin.
  destruct Hin as [Hin | Hin]; [contradiction |].
  apply (@round_new set_iter set_iter_perm L W [] Hg Hflag) in Hin.
  destruct Hin as [c1 [c2 [H1 [H2 Hr]]]].
  apply pl_resolve_flag_In in Hr.
  assert (Ht : derives_empty W = true)
    by (apply derives_empty_spec; exists c1, c2; auto).
  congruence.
Qed.

(** When the loop answers false, the working set it stopped on is closed
    under resolution and does not hold the empty clause: it has a model,
    and so has the initial set. *)
Lemma saturate_false_model (L : list Literal.t) (fuel : nat) (W : list Clause.t)
      (out trace : list (list Clause.t)) :
  Forall (good L) W -> ~ In [] W ->
  KnowledgeBase.saturate set_iter fuel W out false = Return (false, trace) ->
  exists v, models v W = true.
Proof.
  intros HW Hne H.
  apply (saturate_final set_iter
           (fun W' => Forall (good L) W' /\ ~ In [] W' /\ incl W W')) in H.
  - destruct H as [W' [mid [[Hg [Hne' Hinc]] [Hb [_ [Hsub _]]]]]].
    rewrite (@round_flag set_iter set_iter_perm W') in Hb. symmetry in Hb.
    specialize (Hsub Logic.eq_refl).
    apply (issubset_incl_good (@round_good set_iter set_iter_perm L W' Hg) Hg)
      in Hsub.
    assert (Hclosed : forall c1 c2 r, In c1 W' -> In c2 W' ->
                        In r (fst (Clause.pl_resolve c1 c2)) -> In r W').
    { intros c1 c2 r H1 H2 Hr. apply Hsub.
      apply (@round_new set_iter set_iter_perm L W' r Hg Hb).
      exists c1, c2. auto. }
    exists (assign (build_model W' (symbols_of W') [] [])).
    pose proof (saturated_model W' Hclosed Hne') as Hm.
    unfold models in *. rewrite forallb_forall in *.
    intros c Hc. apply Hm, Hinc, Hc.
  - intros W1 [Hg [Hne1 Hinc]] Hflag.
    destruct (round_keeps_nonempty L W1 Hg Hne1 Hflag) as [Hg' Hne'].
    split; [assumption |]. split; [assumption |].
    intros c Hc. apply In_update_keep. now apply Hinc.
  - split; [assumption |]. split; [assumption | apply incl_refl].
Qed.

(** How the trace ends: on the empty clause when the answer is true, on
    an empty entry when it is false. *)
Lemma saturate_trace_end (L : list Literal.t) (fuel : nat) (W : list Clause.t)
      (out trace : list (list Clause.t)) (b : bool) :
  Forall (good L) W -> ~ In [] W ->
  KnowledgeBase.saturate set_iter fuel W out false = Return (b, trace) ->
  trace <> [] /\
  if b then In [] (last trace []) else last trace [] = [].
Proof.
  intros HW Hne H.
  apply (saturate_final set_iter
           (fun W' => Forall (good L) W' /\ ~ In [] W')) in H.
  - destruct H as [W' [mid [[Hg Hne'] [Hb [Ht [Hsub _]]]]]].
    split; [rewrite Ht; intros E; apply app_eq_nil in E; destruct E as [_ E];
            apply app_eq_nil in E; destruct E as [_ E]; discriminate |].
    rewrite Ht, app_assoc, last_last.
    destruct b.
    + apply In_difference_canonical.
      * apply resolve_all_set.
      * eapply Forall_impl; [| exact Hg]. intros c Hc. apply Hc.
      * split; [| assumption]. apply resolve_all_empty.
        rewrite (@round_flag set_iter set_iter_perm W') in Hb.
        transitivity (derives_empty W'); [| now symmetry].
        apply derives_empty_same, (@In_set_iter set_iter set_iter_perm).
    + apply difference_issubset. now apply Hsub.
  - intros W1 [Hg Hne1] Hflag. now apply round_keeps_nonempty.
  - now split.
Qed.

(** The clauses of the trace: canonical, not always true, none of the
    working set, and none listed twice. *)
Lemma saturate_trace_new (L : list Literal.t) (fuel : nat) :
  forall (W : list Clause.t) (out trace : list (list Clause.t)) (b : bool),
    Forall (good L) W ->
    KnowledgeBase.saturate set_iter fuel W out false = Return (b, trace) ->
    exists rest,
      trace = out ++ rest /\
      NoDup (List.concat rest) /\
      forall c, In c (List.concat rest) ->
                ~ In c W /\ Clause.canonical c /\ Clause.is_always_true c = false.
Proof.
  induction fuel as [| fuel IH]; intros W out trace b HW; simpl; [discriminate |].
  pose proof (@round_good set_iter set_iter_perm L W HW) as Hnew.
  pose proof (resolve_all_set (set_iter W)) as [Hcan Hnd].
  assert (Htaut : Forall (fun c => Clause.is_always_true c = false)
                         (fst (KnowledgeBase.resolve_all (set_iter W) ([], false)))).
  { apply resolve_all_Forall; [| constructor].
    intros c1 c2 _ _. apply pl_resolve_Forall. intros l1 l2 _ _ _ r Hr. exact Hr. }
  destruct (KnowledgeBase.resolve_all (set_iter W) ([], false)) as [new unsat].
  simpl in Hnew, Hcan, Hnd, Htaut.
  assert (HWcan : Forall Clause.canonical W).
  { eapply Forall_impl; [| exact HW]. intros c Hc. apply Hc. }
  assert (Hd : NoDup (difference Clause.eq new W) /\
               forall c, In c (difference Clause.eq new W) ->
                         In c new /\ ~ In c W /\ Clause.canonical c /\
                         Clause.is_always_true c = false).
  { split; [unfold difference; now apply NoDup_filter |].
    intros c Hc. apply In_difference_canonical in Hc; trivial.
    destruct Hc as [Hc1 Hc2]. rewrite Forall_forall in Hcan, Htaut. auto. }
  destruct Hd as [Hd1 Hd2].
  assert (Hone : forall tr, tr = out ++ [difference Clause.eq new W] ->
            exists rest,
              tr = out ++ rest /\ NoDup (List.concat rest) /\
              forall c, In c (List.concat rest) ->
                        ~ In c W /\ Clause.canonical c /\
                        Clause.is_always_true c = false).
  { intros tr ->. exists [difference Clause.eq new W]. simpl. rewrite app_nil_r.
    split; [reflexivity |]. split; [assumption |].
    intros c Hc. now apply Hd2. }
  destruct unsat; [intros H; injection H as _ <-; now apply Hone |].
  destruct (issubset Clause.eq new W);
    [intros H; injection H as _ <-; now apply Hone |].
  intros H. apply IH in H; [| now apply Forall_update].
  destruct H as [rest [-> [Hnd' Hrest]]].
  exists (difference Clause.eq new W :: rest).
  split; [now rewrite <- app_assoc |]. simpl. split.
  - apply NoDup_app; [assumption | assumption |].
    intros c Hc Hc'. destruct (Hrest c Hc') as [Hn _]. apply Hn.
    apply (@In_update_good L _ _ c Hnew HW). right. now apply Hd2.
  - intros c Hc. apply in_app_or in Hc. destruct Hc as [Hc | Hc].
    + now apply Hd2.
    + destruct (Hrest c Hc) as [Hn Hp]. split; [| assumption].
      intros HcW. apply Hn. now apply In_update_keep.
Qed.

(** The number of rounds: each round that does not return adds a clause
    of the universe to the working set. *)
Lemma saturate_trace_length (L : list Literal.t) (fuel : nat) :
  forall (W : list Clause.t) (out trace : list (list Clause.t)) (b : bool),
    NoDup W -> Forall (good L) W ->
    KnowledgeBase.saturate set_iter fuel W out false = Return (b, trace) ->
    List.length out < List.length trace /\
    List.length trace + List.length W
    <= List.length out + List.length (universe L) + 1.
Proof.
  induction fuel as [| fuel IH]; intros W out trace b Hnd HW; simpl;
    [discriminate |].
  pose proof (@round_good set_iter set_iter_perm L W HW) as Hnew.
  pose proof (working_set_bounded Hnd HW) as Hbound.
  destruct (KnowledgeBase.resolve_all (set_iter W) ([], false)) as [new unsat].
  simpl in Hnew.
  destruct unsat;
    [intros H; injection H as _ <-; rewrite length_app; simpl; lia |].
  destruct (issubset Clause.eq new W) eqn:Es;
    [intros H; injection H as _ <-; rewrite length_app; simpl; lia |].
  intros H. apply IH in H.
  - rewrite length_app in H. simpl in H.
    assert (Hlt : List.length W < List.length (update Clause.eq W new)).
    { apply (@update_length_good L); trivial.
      intros Hincl. apply (issubset_incl_good Hnew HW) in Hincl. congruence. }
    lia.
  - now apply (@NoDup_update_good L).
  - now apply Forall_update.
Qed.

End Refutation.

(** ** The clauses of a parsed knowledge base *)

Lemma Clause_parse_nonempty (s : string) (c : Clause.t) :
  Clause.parse s = Return c -> c <> [].
Proof.
  unfold Clause.parse.
  destruct (for_each _ _ _) as [c' | |] eqn:E; simpl; try discriminate.
  intros H. injection H as <-.
  apply parse_loop_length in E. simpl in E.
  destruct c' as [| x c'].
  - exfalso. simpl in E.
    destruct (Str.split " OR " s) eqn:Es; [| discriminate].
    now apply split_from_nonempty in Es.
  - intros Hnil.
    assert (Hx : In x (Clause.refactor (x :: c'))) by (apply In_refactor; now left).
    rewrite Hnil in Hx. contradiction.
Qed.

Lemma KnowledgeBase_parse_loop_clauses (premises : list string) :
  forall acc kb,
    for_each (fun (kb : KnowledgeBase.t) clause_str =>
                clause <- Clause.parse clause_str ;;
                Return (kb ++ [Clause.refactor clause])) premises acc = Return kb <->
    exists cs, kb = acc ++ cs /\
               Forall2 (fun s c => Clause.parse s = Return c) premises cs.
Proof.
  induction premises as [| p premises IH]; intros acc kb; simpl.
  - split.
    + intros H. injection H as <-. exists []. rewrite app_nil_r. auto.
    + intros [cs [-> H]]. inversion H. now rewrite app_nil_r.
  - split.
    + destruct (Clause.parse p) as [c | |] eqn:Ep; simpl; try discriminate.
      intros H. apply IH in H. destruct H as [cs [-> H]].
      exists (c :: cs). split.
      * rewrite (refactor_fixed (Clause_parse_canonical _ Ep)), <- app_assoc.
        reflexivity.
      * now constructor.
    + intros [cs [-> H]]. inversion H as [| p' c premises' cs' Hp Hrest]; subst.
      rewrite Hp. simpl. apply IH. exists cs'. split; [| assumption].
      rewrite (refactor_fixed (Clause_parse_canonical _ Hp)), <- app_assoc.
      reflexivity.
Qed.

Lemma KnowledgeBase_parse_clauses (premises : list string) (kb : KnowledgeBase.t) :
  KnowledgeBase.parse premises = Return kb <->
  Forall2 (fun s c => Clause.parse s = Return c) premises kb.
Proof.
  unfold KnowledgeBase.parse. rewrite KnowledgeBase_parse_loop_clauses. simpl.
  split; [intros [cs [-> H]]; assumption | intros H; eauto].
Qed.

Lemma parsed_canonical_nonempty (premises : list string) (kb : KnowledgeBase.t) :
  KnowledgeBase.parse premises = Return kb ->
  Forall Clause.canonical kb /\ ~ In [] kb.
Proof.
  intros H. apply KnowledgeBase_parse_clauses in H.
  induction H as [| s c premises kb Hc _ [IH1 IH2]]; [split; [constructor | intros []] |].
  split.
  - constructor; [now apply Clause_parse_canonical with (s := s) | assumption].
  - intros [E | Hin]; [| contradiction].
    subst c. now apply Clause_parse_nonempty in Hc.
Qed.

(** ** [pl_resolution] answers false only on what is not entailed *)

Lemma pl_resolution_false_countermodel
      (set_iter : list Clause.t -> list Clause.t)
      (kb : KnowledgeBase.t) (alpha : string) (fuel : nat)
      (trace : list (list Clause.t)) :
  (forall s, Permutation (set_iter s) s) ->
  Forall Clause.canonical kb -> ~ In [] kb ->
  KnowledgeBase.pl_resolution set_iter fuel kb alpha = Return (false, trace) ->
  exists q v,
    Clause.parse alpha = Return q /\ models v kb = true /\ holds v q = false.
Proof.
  intros Hperm Hcan Hne H. unfold KnowledgeBase.pl_resolution in H.
  destruct (KnowledgeBase.negated_query kb alpha) as [cs | |] eqn:Ecs;
    cbn [bind] in H; try discriminate.
  destruct (negated_query_parse kb cs alpha Ecs) as [ls [Hq [Hinc [Hcs Hls]]]].
  assert (Hcs_can : Forall Clause.canonical cs).
  { apply Forall_forall. intros c Hc.
    destruct (Hcs c Hc) as [Hin | [l [_ ->]]]; [| apply unit_canonical].
    rewrite Forall_forall in Hcan. now apply Hcan. }
  assert (Hcs_ne : ~ In [] cs).
  { intros Hin. destruct (Hcs [] Hin) as [Hk | [l [_ E]]];
      [contradiction | discriminate]. }
  pose proof (good_concat Hcs_can) as Hgood.
  assert (HW : Forall (good (List.concat cs)) (pyset Clause.eq cs))
    by (unfold pyset; apply Forall_update; [constructor | assumption]).
  assert (HWne : ~ In [] (pyset Clause.eq cs)).
  { intros Hin. apply In_pyset_weak in Hin. contradiction. }
  destruct (saturate_false_model set_iter Hperm _ fuel _ [] trace HW HWne H)
    as [v Hv].
  unfold models in Hv. rewrite forallb_forall in Hv.
  exists (Clause.refactor ls), v. split; [assumption |]. split.
  - unfold models. apply forallb_forall. intros c Hc.
    apply Hv. apply In_pyset_canonical; [assumption |]. now apply Hinc.
  - rewrite holds_refactor.
    destruct (holds v ls) eqn:Els; [exfalso | reflexivity].
    apply holds_In in Els. destruct Els as [l [Hl Hvl]].
    pose proof (Hls l Hl) as Hm.
    apply mem_In_canonical in Hm; [| apply unit_canonical | assumption].
    assert (Hu : holds v [Literal.negate l] = true).
    { apply Hv. now apply In_pyset_canonical. }
    unfold holds in Hu. simpl in Hu.
    rewrite holds_negate, Hvl in Hu. discriminate.
Qed.

(** X19. [pl_resolution] is complete: when it answers false on a knowledge
    base built by [KnowledgeBase.parse], the query is not entailed.  Some
    valuation makes all the clauses of the base hold and the clause of the
    query fail, whatever the order in which the working set is
    iterated. *)
Theorem pl_resolution_complete
        (set_iter : list Clause.t -> list Clause.t)
        (premises : list string) (kb : KnowledgeBase.t) (alpha : string)
        (fuel : nat) (trace : list (list Clause.t)) :
  (forall s, Permutation (set_iter s) s) ->
  KnowledgeBase.parse premises = Return kb ->
  KnowledgeBase.pl_resolution set_iter fuel kb alpha = Return (false, trace) ->
  exists q v,
    Clause.parse alpha = Return q /\ models v kb = true /\ holds v q = false.
Proof.
  intros Hperm Hkb H.
  destruct (parsed_canonical_nonempty premises kb Hkb) as [Hcan Hne].
  now apply (pl_resolution_false_countermodel set_iter kb alpha fuel trace).
Qed.

Lemma pl_resolution_complete_witness :
  exists q v,
    Clause.parse "A" = Return q /\
    models v [[Literal.mk "A" false; Literal.mk "B" false]] = true /\
    holds v q = false.
Proof.
  apply (pl_resolution_complete (fun s => s) ["A OR B"]
           [[Literal.mk "A" false; Literal.mk "B" false]] "A" 2
           [[[Literal.mk "B" false]]; []]).
  - intros s. apply Permutation_refl.
  - vm_compute. reflexivity.
  - vm_compute. reflexivity.
Defined.

(** ** The trace of [pl_resolution] *)

(** The initial working set, on a base of canonical clauses. *)
Lemma initial_set (kb cs : list Clause.t) (alpha : string) :
  Forall Clause.canonical kb ->
  KnowledgeBase.negated_query kb alpha = Return cs ->
  Forall Clause.canonical cs /\
  Forall (good (List.concat cs)) (pyset Clause.eq cs) /\
  NoDup (pyset Clause.eq cs) /\
  (forall c, In c (pyset Clause.eq cs) <-> In c cs).
Proof.
  intros Hcan Ecs.
  destruct (negated_query_parse kb cs alpha Ecs) as [ls [_ [_ [Hcs _]]]].
  assert (Hcs_can : Forall Clause.canonical cs).
  { apply Forall_forall. intros c Hc.
    destruct (Hcs c Hc) as [Hin | [l [_ ->]]]; [| apply unit_canonical].
    rewrite Forall_forall in Hcan. now apply Hcan. }
  split; [assumption |]. split; [| split].
  - unfold pyset. apply Forall_update; [constructor | now apply good_concat].
  - now apply NoDup_pyset_canonical.
  - intros c. now apply In_pyset_canonical.
Qed.

Lemma initial_set_nonempty (kb cs : list Clause.t) (alpha : string) :
  ~ In [] kb -> KnowledgeBase.negated_query kb alpha = Return cs ->
  ~ In [] (pyset Clause.eq cs).
Proof.
  intros Hne Ecs Hin. apply In_pyset_weak in Hin.
  destruct (negated_query_parse kb cs alpha Ecs) as [ls [_ [_ [Hcs _]]]].
  destruct (Hcs [] Hin) as [Hk | [l [_ E]]]; [contradiction | discriminate].
Qed.

(** X20. How the trace ends, on a knowledge base built by
    [KnowledgeBase.parse]: the trace has an entry for each round, at least
    one; when the answer is true its last entry lists the empty clause,
    and when the answer is false its last entry is empty. *)
Theorem pl_resolution_trace_end
        (set_iter : list Clause.t -> list Clause.t)
        (premises : list string) (kb : KnowledgeBase.t) (alpha : string)
        (fuel : nat) (b : bool) (trace : list (list Clause.t)) :
  (forall s, Permutation (set_iter s) s) ->
  KnowledgeBase.parse premises = Return kb ->
  KnowledgeBase.pl_resolution set_iter fuel kb alpha = Return (b, trace) ->
  trace <> [] /\
  if b then In [] (last trace []) else last trace [] = [].
Proof.
  intros Hperm Hkb H.
  destruct (parsed_canonical_nonempty premises kb Hkb) as [Hcan Hne].
  unfold KnowledgeBase.pl_resolution in H.
  destruct (KnowledgeBase.negated_query kb alpha) as [cs | |] eqn:Ecs;
    cbn [bind] in H; try discriminate.
  destruct (initial_set kb cs alpha Hcan Ecs) as [_ [HW _]].
  pose proof (initial_set_nonempty kb cs alpha Hne Ecs) as HWne.
  exact (saturate_trace_end set_iter Hperm _ fuel _ [] trace b HW HWne H).
Qed.

Lemma pl_resolution_trace_end_witness :
  [[[Literal.mk "B" false]; [Literal.mk "A" false]]; [[]]] <> [] /\
  In [] (last [[[Literal.mk "B" false]; [Literal.mk "A" false]]; [[]]] []).
Proof.
  apply (pl_resolution_trace_end (fun s => s) ["A OR B"; "-A"]
           [[Literal.mk "A" false; Literal.mk "B" false]; [Literal.mk "A" true]]
           "B" 2 true
           [[[Literal.mk "B" false]; [Literal.mk "A" false]]; [[]]]).
  - intros s. apply Permutation_refl.
  - vm_compute. reflexivity.
  - vm_compute. reflexivity.
Defined.

(** X21. What the trace lists, on a base of canonical clauses: every
    clause of the trace is canonical, is not always true and is not a
    clause of the base, and no clause is listed twice, neither in one
    entry nor in two. *)
Theorem pl_resolution_trace_new
        (set_iter : list Clause.t -> list Clause.t)
        (kb : KnowledgeBase.t) (alpha : string)
        (fuel : nat) (b : bool) (trace : list (list Clause.t)) :
  (forall s, Permutation (set_iter s) s) ->
  Forall Clause.canonical kb ->
  KnowledgeBase.pl_resolution set_iter fuel kb alpha = Return (b, trace) ->
  NoDup (List.concat trace) /\
  forall c, In c (List.concat trace) ->
            ~ In c kb /\ Clause.canonical c /\ Clause.is_always_true c = false.
Proof.
  intros Hperm Hcan H. unfold KnowledgeBase.pl_resolution in H.
  destruct (KnowledgeBase.negated_query kb alpha) as [cs | |] eqn:Ecs;
    cbn [bind] in H; try discriminate.
  destruct (initial_set kb cs alpha Hcan Ecs) as [Hcs [HW [_ HIn]]].
  destruct (negated_query_parse kb cs alpha Ecs) as [_ [_ [Hinc _]]].
  destruct (saturate_trace_new set_iter Hperm _ fuel _ [] trace b HW H)
    as [rest [-> [Hnd Hrest]]].
  simpl. split; [assumption |].
  intros c Hc. destruct (Hrest c Hc) as [Hn Hp]. split; [| assumption].
  intros Hk. apply Hn, HIn, Hinc, Hk.
Qed.

Lemma pl_resolution_trace_new_witness :
  NoDup (List.concat [[[Literal.mk "B" false]; [Literal.mk "A" false]]; [[]]]) /\
  forall c,
    In c (List.concat [[[Literal.mk "B" false]; [Literal.mk "A" false]]; [[]]]) ->
    ~ In c [[Literal.mk "A" false; Literal.mk "B" false]; [Literal.mk "A" true]] /\
    Clause.canonical c /\ Clause.is_always_true c = false.
Proof.
  apply (pl_resolution_trace_new (fun s => s)
           [[Literal.mk "A" false; Literal.mk "B" false]; [Literal.mk "A" true]]
           "B" 2 true).
  - intros s. apply Permutation_refl.
  - repeat constructor.
  - vm_compute. reflexivity.
Defined.

Lemma pyset_nonempty (A : Type) (eqb : A -> A -> bool) (xs : list A) :
  xs <> [] -> pyset eqb xs <> [].
Proof.
  destruct xs as [| x xs]; [congruence |]. intros _ E.
  assert (H : In x (pyset eqb (x :: xs))).
  { unfold pyset. simpl. apply In_update_keep. now left. }
  rewrite E in H. contradiction.
Qed.

(** The size of the initial working set and of the universe of its
    clauses, by the literals of the base and of the query. *)
Lemma initial_set_size (kb cs : list Clause.t) (alpha : string) :
  KnowledgeBase.negated_query kb alpha = Return cs ->
  exists ls,
    Clause.parse alpha = Return (Clause.refactor ls) /\
    1 <= List.length (pyset Clause.eq cs) /\
    List.length (universe (List.concat cs))
    <= 2 ^ (List.length (List.concat kb) + List.length (Clause.refactor ls)).
Proof.
  intros Ecs.
  destruct (negated_query_parse kb cs alpha Ecs) as [ls [Hq [Hinc [Hfrom Hls]]]].
  exists ls. split; [assumption |].
  assert (Hls_ne : ls <> []).
  { intros ->. now apply Clause_parse_nonempty in Hq. }
  assert (Hcs_ne : cs <> []).
  { destruct ls as [| l ls]; [congruence |].
    pose proof (Hls l (or_introl Logic.eq_refl)) as Hm.
    intros ->. discriminate. }
  split.
  - pose proof (pyset_nonempty _ Clause.eq cs Hcs_ne).
    destruct (pyset Clause.eq cs); [congruence | simpl; lia].
  - assert (Hn : List.length (Clause.refactor (List.concat cs))
                 <= List.length (List.concat kb) + List.length (Clause.refactor ls)).
    { rewrite <- (length_map Literal.negate (Clause.refactor ls)), <- length_app.
      apply NoDup_incl_length; [apply canonical_NoDup, refactor_canonical |].
      intros x Hx. rewrite In_refactor in Hx. apply in_concat in Hx.
      destruct Hx as [c [Hc Hxc]]. apply in_or_app.
      destruct (Hfrom c Hc) as [Hk | [l [Hl ->]]].
      - left. apply in_concat. eauto.
      - right. destruct Hxc as [<- | []]. apply in_map. now apply In_refactor. }
    assert (Hu : List.length (universe (List.concat cs))
                 = 2 ^ List.length (Clause.refactor (List.concat cs)))
      by apply length_sublists.
    rewrite Hu. now apply Nat.pow_le_mono_r.
Qed.

(** X22. The number of rounds is bounded: on a base of canonical clauses,
    the trace has at least one entry and at most [2 ^ n], where [n] counts
    the literals of the clauses of the base and of the clause of the
    query. *)
Theorem pl_resolution_trace_bound
        (set_iter : list Clause.t -> list Clause.t)
        (kb : KnowledgeBase.t) (alpha : string)
        (fuel : nat) (b : bool) (trace : list (list Clause.t)) :
  (forall s, Permutation (set_iter s) s) ->
  Forall Clause.canonical kb ->
  KnowledgeBase.pl_resolution set_iter fuel kb alpha = Return (b, trace) ->
  exists q,
    Clause.parse alpha = Return q /\
    1 <= List.length trace <= 2 ^ (List.length (List.concat kb) + List.length q).
Proof.
  intros Hperm Hcan H. unfold KnowledgeBase.pl_resolution in H.
  destruct (KnowledgeBase.negated_query kb alpha) as [cs | |] eqn:Ecs;
    cbn [bind] in H; try discriminate.
  destruct (initial_set kb cs alpha Hcan Ecs) as [Hcs [HW [Hnd HIn]]].
  destruct (initial_set_size kb cs alpha Ecs) as [ls [Hq [H0 Hu]]].
  exists (Clause.refactor ls). split; [assumption |].
  destruct (saturate_trace_length set_iter Hperm _ fuel _ [] trace b Hnd HW H)
    as [H1 H2].
  simpl in H1, H2. lia.
Qed.

Lemma pl_resolution_trace_bound_witness :
  exists q,
    Clause.parse "B" = Return q /\
    1 <= List.length [[[Literal.mk "B" false]; [Literal.mk "A" false]]; [[]]]
      <= 2 ^ (List.length
                (List.concat [[Literal.mk "A" false; Literal.mk "B" false];
                              [Literal.mk "A" true]])
              + List.length q).
Proof.
  apply (pl_resolution_trace_bound (fun s => s)
           [[Literal.mk "A" false; Literal.mk "B" false]; [Literal.mk "A" true]]
           "B" 2 true).
  - intros s. apply Permutation_refl.
  - repeat constructor.
  - vm_compute. reflexivity.
Defined.

(** X23. The answer does not depend on the order in which Python iterates
    over the working set: on a base of canonical clauses, a run that
    returns under one order returns the same answer under any other, with
    the same number of rounds allowed. *)
Theorem pl_resolution_order_irrelevant
        (set_iter1 set_iter2 : list Clause.t -> list Clause.t)
        (kb : KnowledgeBase.t) (alpha : string)
        (fuel : nat) (b : bool) (trace : list (list Clause.t)) :
  (forall s, Permutation (set_iter1 s) s) ->
  (forall s, Permutation (set_iter2 s) s) ->
  Forall Clause.canonical kb ->
  KnowledgeBase.pl_resolution set_iter1 fuel kb alpha = Return (b, trace) ->
  exists trace',
    KnowledgeBase.pl_resolution set_iter2 fuel kb alpha = Return (b, trace').
Proof.
  intros Hperm1 Hperm2 Hcan H. unfold KnowledgeBase.pl_resolution in *.
  destruct (KnowledgeBase.negated_query kb alpha) as [cs | |] eqn:Ecs;
    cbn [bind] in *; try discriminate.
  destruct (initial_set kb cs alpha Hcan Ecs) as [_ [HW _]].
  apply (@saturate_order_irrelevant set_iter1 set_iter2 Hperm1 Hperm2
           (List.concat cs) fuel _ _ [] [] b trace HW HW); [tauto | assumption].
Qed.

Lemma pl_resolution_order_irrelevant_witness :
  exists trace',
    KnowledgeBase.pl_resolution
      (@rev Clause.t) 2
      [[Literal.mk "A" false; Literal.mk "B" false]; [Literal.mk "A" true]] "B"
    = Return (true, trace').
Proof.
  apply (pl_resolution_order_irrelevant (fun s => s) (@rev Clause.t)
           [[Literal.mk "A" false; Literal.mk "B" false]; [Literal.mk "A" true]]
           "B" 2 true
           [[[Literal.mk "B" false]; [Literal.mk "A" false]]; [[]]]).
  - intros s. apply Permutation_refl.
  - intros s. apply Permutation_sym, Permutation_rev.
  - repeat constructor.
  - vm_compute. reflexivity.
Defined.

(** ** When parsing fails *)

Lemma forallb_false (A : Type) (f : A -> bool) (l : list A) :
  forallb f l = false <-> exists x, In x l /\ f x = false.
Proof.
  induction l as [| x l IH]; simpl.
  - split; [discriminate | intros [x [[] _]]].
  - rewrite andb_false_iff, IH. split.
    + intros [H | [y [Hy H]]]; eauto.
    + intros [y [[<- | Hy] H]]; eauto.
Qed.

Lemma well_formed_literal_false (s : string) :
  well_formed_literal s = false <-> s = EmptyString \/ s = "-".
Proof.
  destruct s as [| c rest]; simpl; [tauto |].
  destruct (Ascii.eqb_spec c "-") as [-> | N].
  - destruct rest; simpl; split; intros H; try discriminate; auto.
    destruct H as [H | H]; discriminate.
  - split; [discriminate |]. intros [H | H]; [discriminate |].
    injection H as H _. contradiction.
Qed.

Lemma Literal_parse_raises (s : string) :
  Literal.parse s = IndexError <-> well_formed_literal s = false.
Proof.
  pose proof (Literal_parse_well_formed s) as H.
  pose proof (Literal_parse_no_timeout s) as Hno.
  destruct (Literal.parse s) as [l | |]; [| | contradiction].
  - destruct (well_formed_literal s); split; try discriminate.
    intros _. assert (Hf : false = true) by (apply H; eauto). discriminate.
  - destruct (well_formed_literal s); split; trivial.
    intros _. assert (Ht : true = true) by reflexivity.
    apply H in Ht. destruct Ht as [l Hl]. discriminate.
Qed.

Lemma parse_loop_raises_iff (pieces : list string) :
  forall acc : Clause.t,
    for_each (fun (clause : Clause.t) literal_str =>
                l <- Literal.parse (Str.strip literal_str) ;;
                Return (clause ++ [l])) pieces acc = IndexError <->
    forallb (fun piece => well_formed_literal (Str.strip piece)) pieces = false.
Proof.
  induction pieces as [| p pieces IH]; intros acc; simpl.
  - split; discriminate.
  - pose proof (Literal_parse_raises (Str.strip p)) as Hp.
    pose proof (Literal_parse_no_timeout (Str.strip p)) as Hno.
    destruct (Literal.parse (Str.strip p)) as [l | |]; simpl; [| | contradiction].
    + rewrite IH. destruct (well_formed_literal (Str.strip p)); simpl; [tauto |].
      assert (Hf : Return l = IndexError) by now apply Hp. discriminate.
    + assert (Hf : well_formed_literal (Str.strip p) = false) by now apply Hp.
      rewrite Hf. simpl. tauto.
Qed.

Lemma Clause_parse_raises_well_formed (s : string) :
  Clause.parse s = IndexError <-> well_formed s = false.
Proof.
  unfold Clause.parse, well_formed.
  rewrite <- (parse_loop_raises_iff (Str.split " OR " s) []).
  destruct (for_each _ _ _); simpl; split; trivial; discriminate.
Qed.

(** X24. When [Clause.parse] fails: it raises [IndexError] exactly when
    one of the pieces of the text between the separators [ OR ] is, once
    stripped, empty or the single character [-]; on every other text it
    returns a clause, canonical and with at least one literal. *)
Theorem Clause_parse_raises_iff (s : string) :
  (Clause.parse s = IndexError <->
   exists piece,
     In piece (Str.split " OR " s) /\
     (Str.strip piece = EmptyString \/ Str.strip piece = "-")) /\
  (Clause.parse s = IndexError \/
   exists c, Clause.parse s = Return c /\ Clause.canonical c /\ c <> []).
Proof.
  split.
  - rewrite Clause_parse_raises_well_formed. unfold well_formed.
    rewrite forallb_false. split; intros [piece [Hin H]]; exists piece;
      (split; [assumption |]); now apply well_formed_literal_false.
  - pose proof (Clause_parse_no_timeout s) as Hno.
    destruct (Clause.parse s) as [c | |] eqn:E; [right | now left | contradiction].
    exists c. split; [reflexivity |]. split.
    + now apply Clause_parse_canonical with (s := s).
    + now apply Clause_parse_nonempty with (s := s).
Qed.

Lemma KnowledgeBase_parse_loop_raises (premises : list string) :
  forall acc : KnowledgeBase.t,
    for_each (fun (kb : KnowledgeBase.t) clause_str =>
                clause <- Clause.parse clause_str ;;
                Return (kb ++ [Clause.refactor clause])) premises acc = IndexError <->
    exists s, In s premises /\ Clause.parse s = IndexError.
Proof.
  induction premises as [| p premises IH]; intros acc; simpl.
  - split; [discriminate | intros [s [[] _]]].
  - pose proof (Clause_parse_no_timeout p) as Hno.
    destruct (Clause.parse p) as [c | |] eqn:Ep; simpl; [| | contradiction].
    + rewrite IH. split.
      * intros [s [Hs H]]. eauto.
      * intros [s [[<- | Hs] H]]; [congruence | eauto].
    + split; [| trivial]. intros _. exists p. auto.
Qed.

(** X25. [KnowledgeBase.parse] keeps one clause for each text, in the
    order of the texts: it returns a base exactly when every text parses,
    and the clauses of the base are then the clauses parsed from the
    texts, duplicates included; it raises [IndexError] exactly when
    [Clause.parse] does on one of the texts. *)
Theorem KnowledgeBase_parse_spec (premises : list string) :
  (forall kb,
      KnowledgeBase.parse premises = Return kb <->
      Forall2 (fun s c => Clause.parse s = Return c) premises kb) /\
  (KnowledgeBase.parse premises = IndexError <->
   exists s, In s premises /\ Clause.parse s = IndexError).
Proof.
  split.
  - intros kb. apply KnowledgeBase_parse_clauses.
  - apply KnowledgeBase_parse_loop_raises.
Qed.

Lemma negated_query_loop_raises (pieces : list string) :
  forall acc : list Clause.t,
    for_each (fun (clauses : list Clause.t) literal_str =>
                literal <- Literal.parse (Str.strip literal_str) ;;
                let clause : Clause.t := [Literal.negate literal] in
                Return (if negb (mem Clause.eq clause clauses)
                        then clauses ++ [clause] else clauses)) pieces acc
    = IndexError <->
    forallb (fun piece => well_formed_literal (Str.strip piece)) pieces = false.
Proof.
  induction pieces as [| p pieces IH]; intros acc; simpl.
  - split; discriminate.
  - pose proof (Literal_parse_raises (Str.strip p)) as Hp.
    pose proof (Literal_parse_no_timeout (Str.strip p)) as Hno.
    destruct (Literal.parse (Str.strip p)) as [l | |]; simpl; [| | contradiction].
    + rewrite IH. destruct (well_formed_literal (Str.strip p)); simpl; [tauto |].
      assert (Hf : Return l = IndexError) by now apply Hp. discriminate.
    + assert (Hf : well_formed_literal (Str.strip p) = false) by now apply Hp.
      rewrite Hf. simpl. tauto.
Qed.

Lemma saturate_no_raise (set_iter : list Clause.t -> list Clause.t) (fuel : nat) :
  forall W out u, KnowledgeBase.saturate set_iter fuel W out u <> IndexError.
Proof.
  induction fuel as [| fuel IH]; intros W out u; simpl; [discriminate |].
  destruct (KnowledgeBase.resolve_all (set_iter W) ([], u)) as [new unsat].
  destruct unsat; [discriminate |].
  destruct (issubset Clause.eq new W); [discriminate | apply IH].
Qed.

(** X26. When [pl_resolution] fails: whatever the knowledge base, it
    raises [IndexError] exactly when the text of the query is not well
    formed, that is when [Clause.parse] raises it on that text; the rounds
    of resolution raise nothing. *)
Theorem pl_resolution_raises_iff
        (set_iter : list Clause.t -> list Clause.t) (fuel : nat)
        (kb : KnowledgeBase.t) (alpha : string) :
  KnowledgeBase.pl_resolution set_iter fuel kb alpha = IndexError <->
  Clause.parse alpha = IndexError.
Proof.
  rewrite Clause_parse_raises_well_formed. unfold well_formed.
  rewrite <- (negated_query_loop_raises (Str.split " OR " alpha) kb).
  unfold KnowledgeBase.pl_resolution.
  fold (KnowledgeBase.negated_query kb alpha).
  destruct (KnowledgeBase.negated_query kb alpha) as [cs | |]; cbn [bind].
  - split; [| discriminate]. intros H. now apply saturate_no_raise in H.
  - tauto.
  - split; discriminate.
Qed.

(** ** Printing a clause and parsing it back *)

Lemma append_nil_r (s : string) : (s ++ EmptyString)%string = s.
Proof. induction s as [| c s IH]; simpl; [reflexivity | now rewrite IH]. Qed.

Lemma append_assoc (a b c : string) :
  ((a ++ b) ++ c)%string = (a ++ (b ++ c))%string.
Proof. induction a as [| x a IH]; simpl; [reflexivity | now rewrite IH]. Qed.

Lemma prefix_no_space (c : ascii) (s : string) :
  Ascii.eqb c " " = false -> prefix " OR " (String c s) = false.
Proof.
  intros H.
  change (prefix " OR " (String c s))
    with (match ascii_dec " " c with
          | left _ => prefix "OR " s
          | right _ => false
          end).
  destruct (ascii_dec " " c) as [E | N]; [| reflexivity].
  subst c. discriminate.
Qed.

Lemma prefix_separator (s : string) : prefix " OR " (" OR " ++ s)%string = true.
Proof. destruct s; reflexivity. Qed.

Lemma split_from_step (sep cur : string) (c : ascii) (rest : string) :
  Str.split_from sep 0 cur (String c rest)
  = if prefix sep (String c rest)
    then cur :: Str.split_from sep (String.length sep - 1) EmptyString rest
    else Str.split_from sep 0 (cur ++ String c EmptyString)%string rest.
Proof. reflexivity. Qed.

(** A piece without a space holds no separator: the scan goes through
    it. *)
Lemma split_from_piece (p : string) :
  forall cur s,
    no_space p = true ->
    Str.split_from " OR " 0 cur (p ++ s)%string
    = Str.split_from " OR " 0 (cur ++ p)%string s.
Proof.
  induction p as [| c p IH]; intros cur s H.
  - simpl. now rewrite append_nil_r.
  - simpl in H. apply andb_true_iff in H. destruct H as [Hc Hp].
    apply negb_true_iff in Hc.
    change ((String c p ++ s)%string) with (String c (p ++ s)%string).
    rewrite split_from_step, (prefix_no_space c _ Hc).
    rewrite IH by assumption. rewrite append_assoc. reflexivity.
Qed.

Lemma split_from_last (p cur : string) :
  no_space p = true -> Str.split_from " OR " 0 cur p = [(cur ++ p)%string].
Proof.
  intros H. rewrite <- (append_nil_r p) at 1.
  rewrite split_from_piece by assumption. reflexivity.
Qed.

Lemma split_from_separator (cur s : string) :
  Str.split_from " OR " 0 cur (" OR " ++ s)%string
  = cur :: Str.split_from " OR " 0 EmptyString s.
Proof.
  pose proof (prefix_separator s) as H.
  change (" OR " ++ s)%string
    with (String " " (String "O" (String "R" (String " " s)))) in *.
  rewrite split_from_step, H. reflexivity.
Qed.

(** [split] undoes [join], on pieces without a space. *)
Lemma split_concat (pieces : list string) :
  forall cur p,
    forallb no_space (p :: pieces) = true ->
    Str.split_from " OR " 0 cur (String.concat " OR " (p :: pieces))
    = (cur ++ p)%string :: pieces.
Proof.
  induction pieces as [| q pieces IH]; intros cur p H.
  - simpl in H. rewrite andb_true_r in H. simpl. now apply split_from_last.
  - change (String.concat " OR " (p :: q :: pieces))
      with (p ++ (" OR " ++ String.concat " OR " (q :: pieces)))%string.
    simpl in H. apply andb_true_iff in H. destruct H as [Hp Hrest].
    rewrite split_from_piece by assumption.
    rewrite split_from_separator. rewrite IH by exact Hrest. reflexivity.
Qed.

Lemma printable_symbol (l : Literal.t) :
  printable l = true ->
  exists c, Literal.symbol l = String c EmptyString /\
            Str.is_space c = false /\ readable l = true.
Proof.
  unfold printable. destruct (Literal.symbol l) as [| c [| d s]] eqn:E;
    try discriminate.
  rewrite andb_true_iff, negb_true_iff. intros [H1 H2]. eauto.
Qed.

Lemma repr_no_space (l : Literal.t) :
  printable l = true -> no_space (Literal.repr l) = true.
Proof.
  intros H. destruct (printable_symbol l H) as [c [Es [Hc _]]].
  assert (Hsp : Ascii.eqb c " " = false).
  { destruct (Ascii.eqb_spec c " ") as [-> | N]; [discriminate | reflexivity]. }
  unfold Literal.repr. rewrite Es.
  destruct (Literal.negated l); simpl; now rewrite Hsp.
Qed.

Lemma strip_repr (l : Literal.t) :
  printable l = true -> Str.strip (Literal.repr l) = Literal.repr l.
Proof.
  intros H. destruct (printable_symbol l H) as [c [Es [Hc _]]].
  unfold Literal.repr. rewrite Es.
  assert (Hd : Str.is_space "-" = false) by reflexivity.
  destruct (Literal.negated l);
    unfold Str.strip, Str.rstrip, Str.rev; simpl;
    rewrite ?Hd, ?Hc; simpl; rewrite ?Hd, ?Hc; reflexivity.
Qed.

Lemma parse_loop_repr (c : Clause.t) :
  forall acc : Clause.t,
    forallb printable c = true ->
    for_each (fun (clause : Clause.t) literal_str =>
                l <- Literal.parse (Str.strip literal_str) ;;
                Return (clause ++ [l])) (map Literal.repr c) acc
    = Return (acc ++ c).
Proof.
  induction c as [| x c IH]; intros acc H; simpl.
  - now rewrite app_nil_r.
  - simpl in H. apply andb_true_iff in H. destruct H as [Hx Hc].
    rewrite (strip_repr x Hx).
    destruct (printable_symbol x Hx) as [_ [_ [_ Hr]]].
    rewrite (Literal_parse_readable x Hr). simpl.
    rewrite IH by assumption. now rewrite <- app_assoc.
Qed.

Lemma Clause_parse_printed (c : Clause.t) :
  c <> [] -> forallb printable c = true ->
  Clause.parse (Clause.repr c) = Return (Clause.refactor c).
Proof.
  intros Hne H. destruct c as [| x c]; [congruence |].
  unfold Clause.repr, Clause.parse, Str.split.
  change (negb (List.length (x :: c) =? 0)) with true. cbv iota.
  change (map Literal.repr (x :: c)) with (Literal.repr x :: map Literal.repr c).
  rewrite split_concat.
  - change ((EmptyString ++ Literal.repr x)%string :: map Literal.repr c)
      with (map Literal.repr (x :: c)).
    rewrite parse_loop_repr by assumption. reflexivity.
  - change (Literal.repr x :: map Literal.repr c)
      with (map Literal.repr (x :: c)).
    rewrite forallb_forall. intros p Hp. apply in_map_iff in Hp.
    destruct Hp as [l [<- Hl]]. apply repr_no_space.
    rewrite forallb_forall in H. now apply H.
Qed.

(** X27. Round trip of a clause: parsing the representation of a clause
    that has at least one literal, each on a symbol of one character that
    is not white space, gives the clause back in canonical form, hence the
    clause itself when it is canonical.  (The empty clause, whose
    representation is [{}], is not read back.) *)
Theorem Clause_parse_repr (c : Clause.t) :
  c <> [] -> forallb printable c = true ->
  Clause.parse (Clause.repr c) = Return (Clause.refactor c) /\
  (Clause.canonical c -> Clause.parse (Clause.repr c) = Return c).
Proof.
  intros Hne H. pose proof (Clause_parse_printed c Hne H) as Hp.
  split; [assumption |].
  intros Hc. now rewrite (refactor_fixed Hc) in Hp.
Qed.

Lemma Clause_parse_repr_witness :
  Clause.parse (Clause.repr [Literal.mk "B" true; Literal.mk "A" false])
  = Return (Clause.refactor [Literal.mk "B" true; Literal.mk "A" false]) /\
  (Clause.canonical [Literal.mk "B" true; Literal.mk "A" false] ->
   Clause.parse (Clause.repr [Literal.mk "B" true; Literal.mk "A" false])
   = Return [Literal.mk "B" true; Literal.mk "A" false]).
Proof.
  apply (Clause_parse_repr [Literal.mk "B" true; Literal.mk "A" false]).
  - discriminate.
  - reflexivity.
Defined.

(** ** Clauses that clash on two literals *)

Lemma negate_injective (x y : Literal.t) :
  Literal.negate x = Literal.negate y -> x = y.
Proof.
  destruct x as [sx nx], y as [sy ny]. unfold Literal.negate. simpl.
  intros H. injection H as -> H. now destruct nx, ny.
Qed.

Lemma kept_resolvents_two_clashes (a b : Clause.t) (l1 l2 : Literal.t) :
  In l1 a -> In l2 a -> l1 <> l2 ->
  In (Literal.negate l1) b -> In (Literal.negate l2) b ->
  kept_resolvents a b = [].
Proof.
  intros H1 H2 Hne Hn1 Hn2.
  destruct (kept_resolvents a b) as [| r rest] eqn:E; [reflexivity | exfalso].
  assert (Hr : In r (kept_resolvents a b)) by (rewrite E; now left).
  apply In_kept_resolvents in Hr.
  destruct Hr as [x [y [Hx [Hy [Hc [-> Ht]]]]]].
  apply is_complement_negate in Hc. subst y.
  assert (Hother : exists l, In l a /\ l <> x /\ In (Literal.negate l) b).
  { destruct (Literal.eq x l1) eqn:Ex.
    - apply Literal_eq_spec in Ex. subst x. exists l2. auto.
    - exists l1. repeat split; trivial. intros ->.
      rewrite Literal_eq_refl in Ex. discriminate. }
  destruct Hother as [l [Hl [Hlx Hnl]]].
  rewrite (canonical_complements_detected l) in Ht; [discriminate | | |].
  - apply merge_canonical.
  - apply In_merge_clone. left. now split.
  - apply In_merge_clone. right. split; [assumption |].
    intros E'. apply negate_injective in E'. contradiction.
Qed.

(** X28. Two clauses that clash on two literals or more have no resolvent
    worth keeping: when two different literals of one clause have their
    negations in the other, every resolvent is always true, and
    [pl_resolve] returns the empty set and an unraised flag. *)
Theorem pl_resolve_two_clashes (a b : Clause.t) (l1 l2 : Literal.t) :
  In l1 a -> In l2 a -> l1 <> l2 ->
  In (Literal.negate l1) b -> In (Literal.negate l2) b ->
  Clause.pl_resolve a b = ([], false).
Proof.
  intros H1 H2 Hne Hn1 Hn2. rewrite pl_resolve_kept.
  now rewrite (kept_resolvents_two_clashes a b l1 l2).
Qed.

Lemma pl_resolve_two_clashes_witness :
  Clause.pl_resolve
    [Literal.mk "A" false; Literal.mk "B" false; Literal.mk "C" false]
    [Literal.mk "A" true; Literal.mk "C" true; Literal.mk "D" false]
  = ([], false).
Proof.
  apply (pl_resolve_two_clashes
           [Literal.mk "A" false; Literal.mk "B" false; Literal.mk "C" false]
           [Literal.mk "A" true; Literal.mk "C" true; Literal.mk "D" false]
           (Literal.mk "A" false) (Literal.mk "C" false)).
  - now left.
  - right. right. now left.
  - discriminate.
  - now left.
  - right. now left.
Defined.

(** ** The initial clauses of [pl_resolution] *)

Lemma mem_false_not_In (c : Clause.t) (s : list Clause.t) :
  mem Clause.eq c s = false -> ~ In c s.
Proof.
  intros H Hin.
  assert (Ht : mem Clause.eq c s = true).
  { unfold mem. apply existsb_exists. exists c. split; [assumption |].
    apply Clause_eq_same. tauto. }
  congruence.
Qed.

Lemma negated_query_units (pieces : list string) :
  forall acc cs : list Clause.t,
    for_each (fun (clauses : list Clause.t) literal_str =>
                literal <- Literal.parse (Str.strip literal_str) ;;
                let clause : Clause.t := [Literal.negate literal] in
                Return (if negb (mem Clause.eq clause clauses)
                        then clauses ++ [clause] else clauses)) pieces acc
    = Return cs ->
    exists units,
      cs = acc ++ units /\
      NoDup units /\
      forall c, In c units -> mem Clause.eq c acc = false.
Proof.
  induction pieces as [| p pieces IH]; intros acc cs; simpl.
  - intros H. injection H as <-. exists []. rewrite app_nil_r.
    split; [reflexivity |]. split; [constructor | intros c []].
  - destruct (Literal.parse (Str.strip p)) as [l | |]; simpl; try discriminate.
    intros H. apply IH in H. destruct H as [units [-> [Hnd Hunits]]].
    destruct (mem Clause.eq [Literal.negate l] acc) eqn:Em; simpl in *.
    + exists units. auto.
    + exists ([Literal.negate l] :: units).
      split; [now rewrite <- app_assoc |]. split.
      * constructor; [| assumption]. intros Hin.
        pose proof (Hunits _ Hin) as Hf.
        apply mem_false_not_In in Hf. apply Hf. apply in_or_app. right. now left.
      * intros c [<- | Hc]; [assumption |].
        pose proof (Hunits c Hc) as Hf. unfold mem in *.
        rewrite existsb_app in Hf. now apply orb_false_iff in Hf.
Qed.

(** X29. The initial clauses of [pl_resolution]: the clauses of the base,
    in their order, followed by unit clauses, each the negation of a
    literal of the query; no unit clause is added twice, none is added
    that the base holds already, and the negation of every literal of the
    query is among the initial clauses. *)
Theorem negated_query_spec (kb cs : list Clause.t) (alpha : string) :
  KnowledgeBase.negated_query kb alpha = Return cs ->
  exists ls units,
    Clause.parse alpha = Return (Clause.refactor ls) /\
    cs = kb ++ units /\
    NoDup units /\
    (forall c, In c units ->
               mem Clause.eq c kb = false /\
               exists l, In l ls /\ c = [Literal.negate l]) /\
    (forall l, In l ls -> mem Clause.eq [Literal.negate l] cs = true).
Proof.
  intros H.
  destruct (negated_query_parse kb cs alpha H) as [ls [Hq [_ [Hfrom Hls]]]].
  destruct (negated_query_units _ _ _ H) as [units [-> [Hnd Hunits]]].
  exists ls, units. repeat split; trivial.
  - now apply Hunits.
  - destruct (Hfrom c (in_or_app _ _ _ (or_intror H0))) as [Hk | Hl];
      [| assumption].
    exfalso. apply (mem_false_not_In c kb); auto.
Qed.

Lemma negated_query_spec_witness :
  exists ls units,
    Clause.parse "B OR A" = Return (Clause.refactor ls) /\
    [[Literal.mk "A" false; Literal.mk "B" false]; [Literal.mk "A" true];
     [Literal.mk "B" true]]
    = [[Literal.mk "A" false; Literal.mk "B" false]; [Literal.mk "A" true]]
      ++ units /\
    NoDup units /\
    (forall c, In c units ->
               mem Clause.eq c
                   [[Literal.mk "A" false; Literal.mk "B" false];
                    [Literal.mk "A" true]] = false /\
               exists l, In l ls /\ c = [Literal.negate l]) /\
    (forall l, In l ls ->
               mem Clause.eq [Literal.negate l]
                   [[Literal.mk "A" false; Literal.mk "B" false];
                    [Literal.mk "A" true]; [Literal.mk "B" true]] = true).
Proof.
  apply (negated_query_spec
           [[Literal.mk "A" false; Literal.mk "B" false]; [Literal.mk "A" true]]
           [[Literal.mk "A" false; Literal.mk "B" false]; [Literal.mk "A" true];
            [Literal.mk "B" true]]
           "B OR A").
  vm_compute. reflexivity.
Defined.

(** ** [pl_resolution] decides entailment *)

(** X30. On well-formed texts [pl_resolution] decides entailment: the
    premises parse to a knowledge base, the query to a clause, and with
    [2 ^ n] rounds allowed, where [n] counts the literals of the base and
    of the query, the call returns; its answer is true if and only if
    every valuation under which the clauses of the base hold makes the
    clause of the query hold, whatever the order in which the working set
    is iterated. *)
Theorem pl_resolution_decides_entailment
        (set_iter : list Clause.t -> list Clause.t)
        (premises : list string) (alpha : string) :
  (forall s, Permutation (set_iter s) s) ->
  forallb well_formed premises = true -> well_formed alpha = true ->
  exists kb q b trace,
    KnowledgeBase.parse premises = Return kb /\
    Clause.parse alpha = Return q /\
    KnowledgeBase.pl_resolution
      set_iter (2 ^ (List.length (List.concat kb) + List.length q)) kb alpha
    = Return (b, trace) /\
    (b = true <-> forall v, models v kb = true -> holds v q = true).
Proof.
  intros Hperm Hprem Halpha.
  destruct (@KnowledgeBase_parse_well_formed premises Hprem) as [kb [Hkb Hcan]].
  destruct (parsed_canonical_nonempty premises kb Hkb) as [_ Hne].
  destruct (@negated_query_well_formed kb alpha Halpha Hcan) as [cs [Ecs _]].
  destruct (initial_set kb cs alpha Hcan Ecs) as [_ [HW [Hnd _]]].
  destruct (initial_set_size kb cs alpha Ecs) as [ls [Hq [H0 Hu]]].
  set (fuel := 2 ^ (List.length (List.concat kb)
                    + List.length (Clause.refactor ls))) in *.
  assert (Hrun : exists b trace,
             KnowledgeBase.saturate set_iter fuel (pyset Clause.eq cs) [] false
             = Return (b, trace)).
  { apply (@saturate_halts set_iter Hperm (List.concat cs)); trivial. lia. }
  destruct Hrun as [b [trace Hrun]].
  assert (Hres : KnowledgeBase.pl_resolution set_iter fuel kb alpha
                 = Return (b, trace)).
  { unfold KnowledgeBase.pl_resolution. rewrite Ecs. exact Hrun. }
  exists kb, (Clause.refactor ls), b, trace.
  split; [assumption |]. split; [assumption |]. split; [assumption |]. split.
  - intros ->.
    destruct (pl_resolution_true_entails set_iter kb alpha fuel trace Hperm Hres)
      as [q' [Hq' Hent]].
    rewrite Hq in Hq'. injection Hq' as <-. exact Hent.
  - intros Hent. destruct b; [reflexivity | exfalso].
    destruct (pl_resolution_false_countermodel set_iter kb alpha fuel trace
                Hperm Hcan Hne Hres) as [q' [v [Hq' [Hm Hf]]]].
    rewrite Hq in Hq'. injection Hq' as <-.
    rewrite (Hent v Hm) in Hf. discriminate.
Qed.

Lemma pl_resolution_decides_entailment_witness :
  exists kb q b trace,
    KnowledgeBase.parse ["-A OR B"; "-B OR C"; "A"] = Return kb /\
    Clause.parse "C OR D" = Return q /\
    KnowledgeBase.pl_resolution
      (fun s => s) (2 ^ (List.length (List.concat kb) + List.length q)) kb "C OR D"
    = Return (b, trace) /\
    (b = true <-> forall v, models v kb = true -> holds v q = true).
Proof.
  apply (pl_resolution_decides_entailment
           (fun s => s) ["-A OR B"; "-B OR C"; "A"] "C OR D").
  - intros s. apply Permutation_refl.
  - reflexivity.
  - reflexivity.
Defined.
